(** * Shallow embedding of the blobverb acoustic ray tracer

    Numbers of the JavaScript source (IEEE doubles, Float32Array cells) are
    modelled as exact reals [R]; [Math.floor]/[Math.ceil] as [Zfloor]/[Zceil];
    [Math.max]/[Math.min] as [Rmax]/[Rmin].  Arrays are lists. *)

From Stdlib Require Import Reals Lra Lia ZArith List String Bool.
From Stdlib Require Import Sorting.Sorted Sorting.Permutation.
Import ListNotations.
Open Scope R_scope.

(** ** Numeric helpers *)

(** [Math.floor] and [Math.ceil]. *)
Definition Zfloor (x : R) : Z := (up x - 1)%Z.
Definition Zceil (x : R) : Z := (- Zfloor (- x))%Z.

(** Boolean comparisons, as the JavaScript conditions read them. *)
Definition Rltb (x y : R) : bool := if Rlt_dec x y then true else false.
Definition Rleb (x y : R) : bool := if Rle_dec x y then true else false.

(** Rounding half to even to an integer. *)
Definition Zround_even (z : R) : Z :=
  let f := Zfloor z in
  let d := z - IZR f in
  if Rlt_dec d (1 / 2) then f
  else if Rlt_dec (1 / 2) d then (f + 1)%Z
  else if Z.even f then f else (f + 1)%Z.

(** [Math.fround], i.e. a store into a [Float32Array]: IEEE binary32
    round-to-nearest-even, with 24-bit significands and subnormals below
    [2^-126].  Magnitudes that round to [2^128] or more become infinities in
    binary32; they are outside this model. *)
Definition fround32 (x : R) : R :=
  if Req_EM_T x 0 then 0
  else
    let e := Z.max (Zfloor (ln (Rabs x) / ln 2)) (-126) in
    let ulp := powerRZ 2 (e - 23) in
    IZR (Zround_even (x / ulp)) * ulp.

(** ** createIRAudioBuffer (src/src/main.js) *)

Record Arrival := mkArrival { time : R; amplitude : R }.

Record AudioBuffer := mkAudioBuffer { ab_sampleRate : R; ab_data : list R }.

(** [audioContext.createBuffer(1, length, sampleRate)]: zero-filled. *)
Definition createBuffer (len : nat) (sampleRate : R) : AudioBuffer :=
  mkAudioBuffer sampleRate (repeat 0 len).

(** [data[i] += v] on a Float32Array: writes outside [0, length) are
    ignored by typed arrays. *)
Fixpoint list_add (buf : list R) (i : nat) (v : R) : list R :=
  match buf, i with
  | [], _ => []
  | x :: xs, O => (x + v) :: xs
  | x :: xs, S i' => x :: list_add xs i' v
  end.

Definition addAt (buf : list R) (i : Z) (v : R) : list R :=
  if (i <? 0)%Z then buf else list_add buf (Z.to_nat i) v.

(** [arrivals.reduce((max, arr) => Math.max(max, arr.time), 0)] *)
Definition maxArrivalTime (arrivals : list Arrival) : R :=
  fold_left (fun m a => Rmax m (time a)) arrivals 0.

(** One iteration of the fractional-placement loop. *)
Definition placeArrival (sampleRate : R) (bufferLength : Z)
    (buf : list R) (a : Arrival) : list R :=
  let exactSample := time a * sampleRate in
  let baseSample := Zfloor exactSample in
  let fraction := exactSample - IZR baseSample in
  if (baseSample <? bufferLength - 1)%Z then
    addAt (addAt buf baseSample (amplitude a * (1 - fraction)))
          (baseSample + 1) (amplitude a * fraction)
  else if (baseSample <? bufferLength)%Z then
    addAt buf baseSample (amplitude a)
  else buf.

(** [bufferData.reduce((max, s) => Math.max(max, Math.abs(s)), 0)] *)
Definition peakAbs (buf : list R) : R :=
  fold_left (fun m s => Rmax m (Rabs s)) buf 0.

Definition createIRAudioBuffer (arrivals : list Arrival) (sampleRate : R)
    : AudioBuffer :=
  match arrivals with
  | [] => createBuffer 1 sampleRate
  | _ =>
    let maxTime := maxArrivalTime arrivals in
    let duration := Rmax (maxTime + 0.5) 1 in
    let bufferLength := Zceil (duration * sampleRate) in
    let data0 := ab_data (createBuffer (Z.to_nat bufferLength) sampleRate) in
    let data1 := fold_left (placeArrival sampleRate bufferLength) arrivals data0 in
    let maxSample := peakAbs data1 in
    let data2 := if Rltb 1 maxSample then map (fun s => s / maxSample) data1
                 else data1 in
    mkAudioBuffer sampleRate data2
  end.

(** ** firwinBandpass and its band edges (src/src/main.js) *)

(** [hannWindow(N)]: [win[n] = 0.5 * (1 - cos(2 pi n / (N - 1)))], stored
    into a [Float32Array]. *)
Definition hann (N n : nat) : R := 0.5 * (1 - cos (2 * PI * INR n / (INR N - 1))).

Definition hannWindow (N : nat) : list R := map (fun n => fround32 (hann N n)) (seq 0 N).

(** The windowed taps before the normalisation loop: [kernel[n] = h * win[n]]
    into the [Float32Array] [kernel]. *)
Definition firwinTaps (numTaps : nat) (fLow fHigh fs : R) : list R :=
  let win := hannWindow numTaps in
  let M := INR numTaps - 1 in
  let fc1 := fLow / fs in
  let fc2 := fHigh / fs in
  map (fun n =>
         let k := INR n - M / 2 in
         let h := if Req_EM_T k 0 then 2 * (fc2 - fc1)
                  else (sin (2 * PI * fc2 * k) - sin (2 * PI * fc1 * k)) / (PI * k) in
         fround32 (h * nth n win 0))
      (seq 0 numTaps).

Definition sumList (l : list R) : R := fold_left Rplus l 0.

(** [firwinBandpass]: [sum] is [kernel.reduce] in doubles, then
    [kernel[n] /= sum] stores each quotient back into the [Float32Array]
    ("unity gain at DC"). *)
Definition firwinBandpass (numTaps : nat) (fLow fHigh fs : R) : list R :=
  let kernel := firwinTaps numTaps fLow fHigh fs in
  let sum := sumList kernel in
  map (fun x => fround32 (x / sum)) kernel.

(** The band edges computed in [plotMultiBandImpulseResponse]. *)
Definition bandEdges (centerFreq sampleRate : R) : R * R :=
  let bandwidth := centerFreq in
  (Rmax (centerFreq - bandwidth / 2) 20,
   Rmin (centerFreq + bandwidth / 2) (sampleRate / 2 - 1)).

Definition numTaps : nat := 257.

(** The FIR kernel used for the band of centre [centerFreq]. *)
Definition bandKernel (centerFreq sampleRate : R) : list R :=
  let '(fLow, fHigh) := bandEdges centerFreq sampleRate in
  firwinBandpass numTaps fLow fHigh sampleRate.

(** Spec side: the magnitude response of the ideal bandpass [fLow, fHigh];
    its value at [f = 0] is the analytic DC gain of a bandpass. *)
Definition ideal_bandpass_response (fLow fHigh f : R) : R :=
  if Rle_dec fLow (Rabs f) then (if Rle_dec (Rabs f) fHigh then 1 else 0) else 0.

(** ** three.js Vector3 *)

Record V3 := mkV3 { vx : R; vy : R; vz : R }.

Definition vadd (a b : V3) : V3 := mkV3 (vx a + vx b) (vy a + vy b) (vz a + vz b).
Definition vsub (a b : V3) : V3 := mkV3 (vx a - vx b) (vy a - vy b) (vz a - vz b).
Definition vscale (a : V3) (s : R) : V3 := mkV3 (vx a * s) (vy a * s) (vz a * s).
Definition vdot (a b : V3) : R := vx a * vx b + vy a * vy b + vz a * vz b.
Definition vcross (a b : V3) : V3 :=
  mkV3 (vy a * vz b - vz a * vy b) (vz a * vx b - vx a * vz b) (vx a * vy b - vy a * vx b).
Definition vlength (a : V3) : R := sqrt (vdot a a).
(** [normalize()] is [divideScalar(this.length() || 1)]. *)
Definition vnormalize (a : V3) : V3 :=
  let l := vlength a in
  vscale a (1 / (if Req_EM_T l 0 then 1 else l)).
(** [reflect(normal)]: [this - normal * (2 * this.dot(normal))]. *)
Definition vreflect (v n : V3) : V3 := vsub v (vscale n (2 * vdot v n)).

(** ** A state monad *)

Definition St (S A : Type) : Type := S -> A * S.
Definition st_ret {S A} (a : A) : St S A := fun s => (a, s).
Definition st_bind {S A B} (m : St S A) (f : A -> St S B) : St S B :=
  fun s => let '(a, s') := m s in f a s'.
Notation "x <- m ;; k" := (st_bind m (fun x => k))
  (at level 61, m at next level, right associativity).

Fixpoint zipWith {A B C} (f : A -> B -> C) (l1 : list A) (l2 : list B) : list C :=
  match l1, l2 with
  | a :: l1', b :: l2' => f a b :: zipWith f l1' l2'
  | _, _ => []
  end.

(** [Array.prototype.sort] with a numeric comparator: a stable sort. *)
Fixpoint insert_by {A} (le : A -> A -> bool) (x : A) (l : list A) : list A :=
  match l with
  | [] => [x]
  | y :: l' => if le y x then y :: insert_by le x l' else x :: y :: l'
  end.
Definition sort_by {A} (le : A -> A -> bool) (l : list A) : list A :=
  fold_left (fun acc x => insert_by le x acc) l [].

(** ** Worker configuration (src/unnamed/part_001, runSimulation) *)

Record RRConfig := mkRRConfig {
  rr_enabled : bool;
  rr_scatteringCoeff : R;
  rr_histogramResolution : R;
  rr_maxTime : R;
  rr_hybridBounceThreshold : R;
  rr_poissonDensity : R;
  rr_minEnergyThreshold : R;
  rr_diffuseGain : R }.

(** The properties present in [params.rrConfig]. *)
Record RROverrides := mkRROverrides {
  ov_enabled : option bool;
  ov_scatteringCoeff : option R;
  ov_histogramResolution : option R;
  ov_maxTime : option R;
  ov_hybridBounceThreshold : option R;
  ov_poissonDensity : option R;
  ov_minEnergyThreshold : option R;
  ov_diffuseGain : option R }.

Definition noOverrides : RROverrides :=
  mkRROverrides None None None None None None None None.

Definition with_default {A} (o : option A) (d : A) : A :=
  match o with Some a => a | None => d end.

(** [{ enabled: true, scatteringCoeff: 0.35, ..., ...rrOverrides }] *)
Definition mergeRR (o : RROverrides) : RRConfig :=
  mkRRConfig (with_default (ov_enabled o) true)
             (with_default (ov_scatteringCoeff o) 0.35)
             (with_default (ov_histogramResolution o) 0.0025)
             (with_default (ov_maxTime o) 3.5)
             (with_default (ov_hybridBounceThreshold o) 3)
             (with_default (ov_poissonDensity o) 12)
             (with_default (ov_minEnergyThreshold o) 1e-8)
             (with_default (ov_diffuseGain o) 1.0).

(** The clamping assignments of lines 238-242. *)
Definition normalizeRR (c : RRConfig) : RRConfig :=
  let hr := Rmax 1e-4 (rr_histogramResolution c) in
  mkRRConfig (rr_enabled c) (rr_scatteringCoeff c) hr
             (Rmax hr (rr_maxTime c))
             (Rmax 0 (IZR (Zfloor (rr_hybridBounceThreshold c))))
             (Rmax 0.1 (rr_poissonDensity c))
             (Rmax 1e-10 (rr_minEnergyThreshold c))
             (rr_diffuseGain c).

(** [THREE.MathUtils.clamp(v, 0, 1)] is [Math.max(0, Math.min(1, v))]. *)
Definition clamp01 (v : R) : R := Rmax 0 (Rmin 1 v).

(** [data] of a [simulate] message; destructuring defaults already applied.
    [absorptionCoeffs] lists the (distinct) numeric keys of the object. *)
Record SimParams := mkSimParams {
  numRays : Z;
  maxBounces : Z;
  wallAbsorption : option R;
  useFreqDependent : bool;
  absorptionCoeffs : list (R * R);
  seed : string;
  speedOfSound : R;
  batchSize : Z;
  rrOverrides : RROverrides }.

Fixpoint lookupCoeff (k : R) (l : list (R * R)) : option R :=
  match l with
  | [] => None
  | (k', v) :: l' => if Req_EM_T k k' then Some v else lookupCoeff k l'
  end.

(** [Object.keys(absorptionCoeffs).map(Number).sort((a, b) => a - b)] *)
Definition freqBands (p : SimParams) : list R :=
  sort_by Rleb (map fst (absorptionCoeffs p)).

(** Per-band absorption, in band order; the broadband path has one band. *)
Definition bandAlphas (p : SimParams) : list R :=
  if useFreqDependent p
  then map (fun f => with_default (lookupCoeff f (absorptionCoeffs p)) 0) (freqBands p)
  else [with_default (wallAbsorption p) 0].

(** ** Geometry seen by the worker *)

Record Hit := mkHit { h_distance : R; h_point : V3; h_faceNormal : option V3 }.

(** [ray.intersectObject(roomMesh)] and [ray.intersectObject(emitterMesh)]
    with [firstHitOnly]: the nearest intersection, if any, for a ray
    (origin, direction). *)
Record Scene := mkScene {
  castRoom : V3 -> V3 -> option Hit;
  castReceiver : V3 -> V3 -> option Hit;
  emitterRadius : R;
  emitterPositionVec : V3 }.

Record SimAcc := mkAcc {
  acc_arrivals : list (list Arrival);
  acc_hists : list (list R);
  acc_count : Z }.

(** Messages posted by the worker (wall-clock rates are not modelled). *)
Inductive Msg :=
| MsgReady
| MsgGeometrySet
| MsgProgress (progress : R) (currentArrivals : Z)
| MsgComplete (bands : option (list R)) (arrivalsByBand : list (list Arrival))
              (totalArrivals lateArrivalCount : Z) (enabled : bool)
              (histogramBins : Z) (rrConfig : RRConfig)
| MsgError (error : string).

(** ** The worker's simulation, over the generator behind [Math.random] *)

Section Worker.

(** A generator state and its next draw; [seedrandom s] is the state of the
    generator [seedrandom(s, { global: true })] installs. *)
Variable G : Type.
Variable rand : G -> R * G.
Variable seedrandom : string -> G.

(** [Math.random]: either the native generator or an installed seeded one.
    [restoreRandom] holds the native function itself, so restoring it goes
    back to the native generator in whatever state it has reached. *)
Record RandomState := mkRandomState { native : G; active : option G }.

Definition M (A : Type) : Type := St RandomState A.

Definition mathRandom : M R := fun s =>
  match active s with
  | Some g => let '(x, g') := rand g in (x, mkRandomState (native s) (Some g'))
  | None => let '(x, g') := rand (native s) in (x, mkRandomState g' None)
  end.

Definition getActive : M (option G) := fun s => (active s, s).
Definition setActive (o : option G) : M unit :=
  fun s => (tt, mkRandomState (native s) o).

(** [randomHemisphereDirection(normal)] *)
Definition randomHemisphereDirection (normal : V3) : M V3 :=
  u1 <- mathRandom ;;
  u2 <- mathRandom ;;
  let r := sqrt u1 in
  let phi := 2 * PI * u2 in
  let tangent :=
    if Rltb (Rabs (vz normal)) (Rabs (vx normal))
    then vnormalize (mkV3 (- vy normal) (vx normal) 0)
    else vnormalize (mkV3 0 (- vz normal) (vy normal)) in
  let bitangent := vcross normal tangent in
  st_ret (vnormalize
            (vadd (vadd (vscale tangent (r * cos phi)) (vscale bitangent (r * sin phi)))
                  (vscale normal (sqrt (Rmax 0 (1 - u1)))))).

(** Emission direction, lines 292-296. *)
Definition emitDirection : M V3 :=
  x <- mathRandom ;;
  y <- mathRandom ;;
  z <- mathRandom ;;
  st_ret (vnormalize (mkV3 (x * 2 - 1) (y * 2 - 1) (z * 2 - 1))).

(** Constants of one run. *)
Record Ctx := mkCtx {
  cx_scene : Scene;
  cx_cfg : RRConfig;          (* normalised rrConfig *)
  cx_useRR : bool;
  cx_scatter : R;             (* scatterWeight *)
  cx_gain : R;                (* diffuseGain *)
  cx_c : R;                   (* speedOfSound *)
  cx_alphas : list R;         (* absorption per band *)
  cx_bins : Z }.              (* histogramBins *)

(** The per-band loop of lines 367-376: returns the histograms and the
    number of contributions. *)
Fixpoint depositBands (binIndex : Z) (energy : R -> R) (minEnergy : R)
    (amps : list R) (hists : list (list R)) : list (list R) * Z :=
  match amps, hists with
  | a :: amps', h :: hists' =>
    let '(hs, n) := depositBands binIndex energy minEnergy amps' hists' in
    if Rleb a 0 then (h :: hs, n)
    else if Rltb minEnergy (energy a) then (addAt h binIndex (energy a) :: hs, (n + 1)%Z)
    else (h :: hs, n)
  | _, _ => (hists, 0%Z)
  end.

(** The radiosity contribution of a wall hit, lines 356-389. *)
Definition rrDeposit (cx : Ctx) (bounce : Z) (p : V3) (totalDistance : R)
    (amps : list R) (hists : list (list R)) : list (list R) * Z :=
  let cfg := cx_cfg cx in
  let sc := cx_scene cx in
  if cx_useRR cx && Rleb (rr_hybridBounceThreshold cfg) (IZR bounce)
     && (0 <? cx_bins cx)%Z then
    let distanceToReceiver :=
      Rmax (vlength (vsub p (emitterPositionVec sc)))
           (Rmax (emitterRadius sc * 0.5) 0.01) in
    let timeToReceiver := (totalDistance + distanceToReceiver) / cx_c cx in
    if Rleb timeToReceiver (rr_maxTime cfg) then
      let invDistanceTerm :=
        1 / Rmax (4 * PI * distanceToReceiver * distanceToReceiver) 1e-6 in
      let binIndex := Zfloor (timeToReceiver / rr_histogramResolution cfg) in
      if (binIndex <? cx_bins cx)%Z then
        depositBands binIndex
          (fun amp => amp * amp * cx_gain cx * invDistanceTerm * Rmax (cx_scatter cx) 1e-3)
          (rr_minEnergyThreshold cfg) amps hists
      else (hists, 0%Z)
    else (hists, 0%Z)
  else (hists, 0%Z).

(** [amplitudes[freq] *= (1.0 - absorption)] for every band. *)
Definition absorbAll (amps alphas : list R) : list R :=
  zipWith (fun a alpha => a * (1 - alpha)) amps alphas.

(** [arrivalsByBand[freq].push({ time, amplitude: amplitudes[freq] })] *)
Definition pushArrivals (arrs : list (list Arrival)) (t : R) (amps : list R)
    : list (list Arrival) :=
  zipWith (fun l a => l ++ [mkArrival t a]) arrs amps.

(** The bounce loop of lines 304-403; [fuel] counts the remaining
    iterations of [bounce < maxBounces]. *)
Fixpoint bounceLoop (cx : Ctx) (fuel : nat) (bounce : Z) (origin dir : V3)
    (totalDistance : R) (amps : list R) (acc : SimAcc) : M SimAcc :=
  match fuel with
  | O => st_ret acc
  | S fuel' =>
    let sc := cx_scene cx in
    let receiverHit := castReceiver sc origin dir in
    let roomHit := castRoom sc origin dir in
    let continue :=
      match roomHit with
      | None => st_ret acc
      | Some w =>
        let td := totalDistance + h_distance w in
        let amps' := absorbAll amps (cx_alphas cx) in
        let '(hists', n) := rrDeposit cx bounce (h_point w) td amps' (acc_hists acc) in
        let acc' := mkAcc (acc_arrivals acc) hists' (acc_count acc + n) in
        let faceNormal := with_default (h_faceNormal w) (mkV3 0 1 0) in
        let normal := vnormalize faceNormal in
        let specularDir := vreflect dir normal in
        scatteredDir <- (if Rltb 0 (cx_scatter cx)
                         then randomHemisphereDirection normal
                         else st_ret specularDir) ;;
        let dir' := vnormalize (vadd (vscale specularDir (1 - cx_scatter cx))
                                     (vscale scatteredDir (cx_scatter cx))) in
        let origin' := vadd (h_point w) (vscale dir' 0.001) in
        bounceLoop cx fuel' (bounce + 1) origin' dir' td amps' acc'
      end in
    match receiverHit with
    | Some r =>
      let receiverFirst :=
        match roomHit with
        | None => true
        | Some w => Rltb (h_distance r) (h_distance w)
        end in
      if receiverFirst && Rltb 0.001 (h_distance r) then
        let t := (totalDistance + h_distance r) / cx_c cx in
        st_ret (mkAcc (pushArrivals (acc_arrivals acc) t amps)
                      (acc_hists acc) (acc_count acc))
      else continue
    | None => continue
    end
  end.

(** One iteration of the ray loop of [processBatch]. *)
Definition traceRay (cx : Ctx) (maxBounces : Z) (acc : SimAcc) : M SimAcc :=
  dir <- emitDirection ;;
  bounceLoop cx (Z.to_nat maxBounces) 0 (mkV3 0 0 0) dir 0
             (repeat 1 (List.length (cx_alphas cx))) acc.

Fixpoint traceRays (cx : Ctx) (maxBounces : Z) (n : nat) (acc : SimAcc) : M SimAcc :=
  match n with
  | O => st_ret acc
  | S n' => acc' <- traceRay cx maxBounces acc ;; traceRays cx maxBounces n' acc'
  end.

(** [bounceLoop] with a ghost counter [hits] of the wall hits so far: it is
    incremented where the loop runs [amplitudes[freq] *= (1.0 - absorption)]
    and returned with the accumulator.  Nothing else differs. *)
Fixpoint bounceLoopHits (cx : Ctx) (fuel : nat) (bounce : Z) (origin dir : V3)
    (totalDistance : R) (amps : list R) (acc : SimAcc) (hits : nat) : M (SimAcc * nat) :=
  match fuel with
  | O => st_ret (acc, hits)
  | S fuel' =>
    let sc := cx_scene cx in
    let receiverHit := castReceiver sc origin dir in
    let roomHit := castRoom sc origin dir in
    let continue :=
      match roomHit with
      | None => st_ret (acc, hits)
      | Some w =>
        let td := totalDistance + h_distance w in
        let amps' := absorbAll amps (cx_alphas cx) in
        let '(hists', n) := rrDeposit cx bounce (h_point w) td amps' (acc_hists acc) in
        let acc' := mkAcc (acc_arrivals acc) hists' (acc_count acc + n) in
        let faceNormal := with_default (h_faceNormal w) (mkV3 0 1 0) in
        let normal := vnormalize faceNormal in
        let specularDir := vreflect dir normal in
        scatteredDir <- (if Rltb 0 (cx_scatter cx)
                         then randomHemisphereDirection normal
                         else st_ret specularDir) ;;
        let dir' := vnormalize (vadd (vscale specularDir (1 - cx_scatter cx))
                                     (vscale scatteredDir (cx_scatter cx))) in
        let origin' := vadd (h_point w) (vscale dir' 0.001) in
        bounceLoopHits cx fuel' (bounce + 1) origin' dir' td amps' acc' (S hits)
      end in
    match receiverHit with
    | Some r =>
      let receiverFirst :=
        match roomHit with
        | None => true
        | Some w => Rltb (h_distance r) (h_distance w)
        end in
      if receiverFirst && Rltb 0.001 (h_distance r) then
        let t := (totalDistance + h_distance r) / cx_c cx in
        st_ret (mkAcc (pushArrivals (acc_arrivals acc) t amps)
                      (acc_hists acc) (acc_count acc), hits)
      else continue
    | None => continue
    end
  end.

(** [traceRay] with the ghost wall-hit counter, started at 0. *)
Definition traceRayHits (cx : Ctx) (maxBounces : Z) (acc : SimAcc) : M (SimAcc * nat) :=
  dir <- emitDirection ;;
  bounceLoopHits cx (Z.to_nat maxBounces) 0 (mkV3 0 0 0) dir 0
                 (repeat 1 (List.length (cx_alphas cx))) acc 0.

(** Bound on the iterations of the [do ... while] loop of [samplePoisson]
    that are modelled; beyond it the loop counts as not terminating. *)
Variable loopFuel : nat.

Fixpoint poissonLoop (fuel : nat) (L : R) (k : nat) (p : R) : M (option nat) :=
  match fuel with
  | O => st_ret None
  | S fuel' =>
    u <- mathRandom ;;
    let k' := S k in
    let p' := p * u in
    if Rltb L p' then poissonLoop fuel' L k' p' else st_ret (Some (k' - 1)%nat)
  end.

(** [samplePoisson(lambda)] *)
Definition samplePoisson (lambda : R) : M (option nat) :=
  if Rleb lambda 0 then st_ret (Some 0%nat)
  else poissonLoop loopFuel (exp (- lambda)) 0 1.

(** The inner loop over [j < pulseCount] of [synthesizeRadiosityPulses]. *)
Fixpoint emitPulses (n : nat) (baseTime binSize amp : R) : M (list Arrival) :=
  match n with
  | O => st_ret []
  | S n' =>
    u <- mathRandom ;;
    let timeJitter := u * binSize in
    v <- mathRandom ;;
    let sign := if Rltb v 0.5 then -1 else 1 in
    rest <- emitPulses n' baseTime binSize amp ;;
    st_ret (mkArrival (baseTime + timeJitter) (amp * sign) :: rest)
  end.

(** The pulses of one bin [i] of energy [energy]. *)
Definition synthBin (i : nat) (energy binSize poissonDensity minEnergy : R)
    : M (option (list Arrival)) :=
  if Rleb energy minEnergy then st_ret (Some [])
  else
    let lambda := Rmax (energy * poissonDensity) 0 in
    opc <- samplePoisson lambda ;;
    match opc with
    | None => st_ret None
    | Some pc =>
      let pulseCount := match pc with O => 1%nat | _ => pc end in
      let energyPerPulse := energy / INR pulseCount in
      let amplitude := sqrt energyPerPulse in
      let baseTime := INR i * binSize in
      ps <- emitPulses pulseCount baseTime binSize amplitude ;;
      st_ret (Some ps)
    end.

Fixpoint synthBins (hist : list R) (i : nat) (binSize poissonDensity minEnergy : R)
    : M (option (list Arrival)) :=
  match hist with
  | [] => st_ret (Some [])
  | energy :: hist' =>
    ops <- synthBin i energy binSize poissonDensity minEnergy ;;
    match ops with
    | None => st_ret None
    | Some ps =>
      orest <- synthBins hist' (S i) binSize poissonDensity minEnergy ;;
      st_ret (option_map (fun rest => ps ++ rest) orest)
    end
  end.

(** [synthesizeRadiosityPulses(histogram, binSize, poissonDensity, minEnergy)] *)
Definition synthesizeRadiosityPulses (hist : list R) (binSize poissonDensity minEnergy : R)
    : M (option (list Arrival)) :=
  synthBins hist 0 binSize poissonDensity minEnergy.

(** The synthesis loop over the bands, lines 432-444. *)
Fixpoint synthAllBands (cfg : RRConfig) (hists : list (list R))
    (arrs : list (list Arrival)) : M (option (list (list Arrival) * Z)) :=
  match hists, arrs with
  | h :: hists', a :: arrs' =>
    ops <- synthesizeRadiosityPulses h (rr_histogramResolution cfg)
             (rr_poissonDensity cfg) (rr_minEnergyThreshold cfg) ;;
    match ops with
    | None => st_ret None
    | Some ps =>
      orest <- synthAllBands cfg hists' arrs' ;;
      st_ret (option_map (fun '(rest, n) =>
                ((a ++ ps) :: rest, (Z.of_nat (List.length ps) + n)%Z)) orest)
    end
  | _, _ => st_ret (Some (arrs, 0%Z))
  end.

(** [arr.sort((a, b) => a.time - b.time)] *)
Definition sortArrivals (l : list Arrival) : list Arrival :=
  sort_by (fun a b => Rleb (time a) (time b)) l.

Definition countArrivals (arrs : list (list Arrival)) : Z :=
  fold_left (fun s l => s + Z.of_nat (List.length l))%Z arrs 0%Z.

(** The [else] branch of [processBatch] once all rays are done,
    lines 426-495. *)
Definition finish (cx : Ctx) (bands : option (list R)) (restore : option G)
    (acc : SimAcc) : M (list Msg) :=
  _ <- setActive restore ;;
  r <- (if cx_useRR cx && (0 <? cx_bins cx)%Z then
          o <- synthAllBands (cx_cfg cx) (acc_hists acc) (acc_arrivals acc) ;;
          st_ret (option_map (fun '(arrs, late) => (map sortArrivals arrs, late)) o)
        else st_ret (Some (acc_arrivals acc, 0%Z))) ;;
  match r with
  | None => st_ret []
  | Some (arrs, late) =>
    st_ret [MsgComplete bands arrs (countArrivals arrs) late (cx_useRR cx)
                        (cx_bins cx) (cx_cfg cx)]
  end.

(** [processBatch] and its rescheduling through [setTimeout]; [fuel] bounds
    the number of batches modelled. *)
Fixpoint processBatches (cx : Ctx) (p : SimParams) (fuel : nat) (processed : Z)
    (acc : SimAcc) (msgs : list Msg) : M (option SimAcc * list Msg) :=
  match fuel with
  | O => st_ret (None, msgs)
  | S fuel' =>
    let endRay := Z.min (processed + batchSize p) (numRays p) in
    acc' <- traceRays cx (maxBounces p) (Z.to_nat (endRay - processed)) acc ;;
    let progress := IZR endRay / IZR (numRays p) in
    let current := (countArrivals (acc_arrivals acc')
                    + (if cx_useRR cx then acc_count acc' else 0))%Z in
    let msgs' := msgs ++ [MsgProgress progress current] in
    if (endRay <? numRays p)%Z then processBatches cx p fuel' endRay acc' msgs'
    else st_ret (Some acc', msgs')
  end.

Definition makeCtx (sc : Scene) (p : SimParams) : Ctx :=
  let cfg := normalizeRR (mergeRR (rrOverrides p)) in
  let useRR := rr_enabled cfg in
  mkCtx sc cfg useRR (clamp01 (rr_scatteringCoeff cfg)) (rr_diffuseGain cfg)
        (speedOfSound p) (bandAlphas p)
        (if useRR then Zceil (rr_maxTime cfg / rr_histogramResolution cfg) else 0%Z).

(** Empty arrival lists and zero histograms, one per band (the histograms
    are [null] in the source when radiosity is off; they are never read). *)
Definition initAcc (cx : Ctx) : SimAcc :=
  let nb := List.length (cx_alphas cx) in
  mkAcc (repeat [] nb) (repeat (repeat 0 (Z.to_nat (cx_bins cx))) nb) 0.

(** [if (seed) seedrandom(seed, { global: true })] *)
Definition seedMathRandom (s : string) : M unit :=
  if String.eqb s "" then st_ret tt else setActive (Some (seedrandom s)).

(** Seeding and all the batches; [None] when the batches never finish. *)
Definition rayPhase (sc : Scene) (p : SimParams) : M (option SimAcc * list Msg) :=
  let cx := makeCtx sc p in
  _ <- seedMathRandom (seed p) ;;
  processBatches cx p (S (Z.to_nat (numRays p))) 0 (initAcc cx) [].

(** [runSimulation(params)]: the messages it posts. *)
Definition runSimulation (sc : Scene) (p : SimParams) : M (list Msg) :=
  let cx := makeCtx sc p in
  restoreRandom <- getActive ;;
  r <- rayPhase sc p ;;
  match r with
  | (None, msgs) => st_ret msgs
  | (Some acc, msgs) =>
    fin <- finish cx (if useFreqDependent p then Some (freqBands p) else None)
                  restoreRandom acc ;;
    st_ret (msgs ++ fin)
  end.

(** ** The message handler [self.onmessage] *)

Record WorkerState := mkWorkerState { ws_random : RandomState; ws_scene : option Scene }.

Inductive InMsg :=
| InInit
| InSetGeometry (sc : Scene)
| InSimulate (p : SimParams)
| InTerminate.

(** A scene no ray is ever cast against. *)
Definition noScene : Scene :=
  mkScene (fun _ _ => None) (fun _ _ => None) 0.5 (mkV3 0 0 0).

Definition onmessage (m : InMsg) (w : WorkerState) : list Msg * WorkerState :=
  match m with
  | InInit => ([MsgReady], w)
  | InSetGeometry sc => ([MsgGeometrySet], mkWorkerState (ws_random w) (Some sc))
  | InSimulate p =>
    match ws_scene w with
    | Some sc =>
      let '(msgs, rs) := runSimulation sc p (ws_random w) in
      (msgs, mkWorkerState rs (Some sc))
    | None =>
      if (0 <? Z.min (batchSize p) (numRays p))%Z then
        (* the first ray's [intersectObject(undefined)] throws *)
        let '(_, rs) := (_ <- seedMathRandom (seed p) ;; emitDirection) (ws_random w) in
        ([MsgError "Cannot read properties of undefined (reading 'layers')"],
         mkWorkerState rs None)
      else
        let '(msgs, rs) := runSimulation noScene p (ws_random w) in
        (msgs, mkWorkerState rs None)
    end
  | InTerminate => ([], w)
  end.

End Worker.

(** ** The receiver test: [emitterMesh], a [THREE.SphereGeometry(radius, 16, 16)]
    with a front-side material, raycast through three-mesh-bvh *)

Definition widthSegments : nat := 16.
Definition heightSegments : nat := 16.

(** The vertex formula of [SphereGeometry] with [phi] and [theta] angles. *)
Definition sph (radius phi theta : R) : V3 :=
  mkV3 (- radius * cos phi * sin theta) (radius * cos theta) (radius * sin phi * sin theta).

(** [u = ix / widthSegments], [v = iy / heightSegments], [phiStart = 0],
    [phiLength = 2 pi], [thetaStart = 0], [thetaLength = pi]. *)
Definition sphereVertex (radius : R) (ix iy : nat) : V3 :=
  sph radius (0 + INR ix / INR widthSegments * (2 * PI))
             (0 + INR iy / INR heightSegments * PI).

(** The index loop: triangles [(a, b, d)] (not on the first row) and
    [(b, c, d)] (not on the last row). *)
Definition sphereQuad (radius : R) (iy ix : nat) : list (V3 * V3 * V3) :=
  let a := sphereVertex radius (S ix) iy in
  let b := sphereVertex radius ix iy in
  let c := sphereVertex radius ix (S iy) in
  let d := sphereVertex radius (S ix) (S iy) in
  (if Nat.eqb iy 0 then [] else [(a, b, d)]) ++
  (if Nat.eqb iy (heightSegments - 1) then [] else [(b, c, d)]).

Definition sphereTriangles (radius : R) : list (V3 * V3 * V3) :=
  flat_map (fun iy => flat_map (sphereQuad radius iy) (seq 0 widthSegments))
           (seq 0 heightSegments).

(** [Ray.intersectTriangle(a, b, c, backfaceCulling)]: the ray parameter of
    the hit ([this.at(QdN / DdN)]). *)
Definition intersectTriangle (o d a b c : V3) (backfaceCulling : bool) : option R :=
  let edge1 := vsub b a in
  let edge2 := vsub c a in
  let normal := vcross edge1 edge2 in
  let DdN0 := vdot d normal in
  let sd :=
    if Rltb 0 DdN0 then (if backfaceCulling then None else Some (1, DdN0))
    else if Rltb DdN0 0 then Some (-1, - DdN0)
    else None in
  match sd with
  | None => None
  | Some (sign, DdN) =>
    let diff := vsub o a in
    let DdQxE2 := sign * vdot d (vcross diff edge2) in
    if Rltb DdQxE2 0 then None else
    let DdE1xQ := sign * vdot d (vcross edge1 diff) in
    if Rltb DdE1xQ 0 then None else
    if Rltb DdN (DdQxE2 + DdE1xQ) then None else
    let QdN := - sign * vdot diff normal in
    if Rltb QdN 0 then None else Some (QdN / DdN)
  end.

(** three-mesh-bvh [checkIntersection] for a front-side material
    ([near] = 0, [far] = infinity): distance and point, in local space. *)
Definition triangleHit (o d : V3) (tri : V3 * V3 * V3) : option (R * V3) :=
  let '(a, b, c) := tri in
  match intersectTriangle o d a b c true with
  | None => None
  | Some t =>
    let point := vadd o (vscale d t) in
    let distance := vlength (vsub point o) in
    if Rltb distance 0 then None else Some (distance, point)
  end.

(** [raycastFirst]: the closest triangle hit.  The BVH only prunes nodes
    that cannot hold a closer hit, so the result is the closest hit over
    all triangles, taken here by a scan. *)
Fixpoint closestHit (o d : V3) (tris : list (V3 * V3 * V3)) : option (R * V3) :=
  match tris with
  | [] => None
  | tri :: tris' =>
    match triangleHit o d tri, closestHit o d tris' with
    | Some (t1, p1), Some (t2, p2) => if Rleb t1 t2 then Some (t1, p1) else Some (t2, p2)
    | Some h, None => Some h
    | None, r => r
    end
  end.

(** [ray.intersectObject(emitterMesh)]: the ray is moved into the mesh's
    local frame (a translation by [position]), the hit back to the world
    frame.  The receiver hit's face is never read by the driver. *)
Definition receiverTest (radius : R) (center o d : V3) : option Hit :=
  match closestHit (vsub o center) d (sphereTriangles radius) with
  | None => None
  | Some (_, pL) =>
    let p := vadd pL center in
    Some (mkHit (vlength (vsub p o)) p None)
  end.

(** Distance from [c] to the line through [o] of direction [d]. *)
Definition closestApproach (o d c : V3) : R :=
  let q := vsub c o in
  sqrt (vdot q q - (vdot q d * vdot q d) / vdot d d).

(** ** Draws of [Math.random] *)

(** [n] successive calls to [Math.random]. *)
Fixpoint drawList {G} (rand : G -> R * G) (n : nat) : M G (list R) :=
  match n with
  | O => st_ret []
  | S n' => u <- mathRandom G rand ;; us <- drawList rand n' ;; st_ret (u :: us)
  end.

Definition prodList (l : list R) : R := fold_left Rmult l 1.

(** ** combineFrequencyBands (src/src/main.js) *)

(** [for (i < irData.length) combinedData[i] += irData[i]]: writes past the
    end of the Float32Array are ignored. *)
Fixpoint addInto (combined irData : list R) : list R :=
  match combined, irData with
  | c :: combined', x :: irData' => (c + x) :: addInto combined' irData'
  | _, _ => combined
  end.

(** [audioContext] is [Some sampleRate] once created; [irBuffers freq] is the
    channel data of the buffer stored under [freq], if there is one. *)
Definition combineFrequencyBands (audioContext : option R)
    (irBuffers : R -> option (list R)) (freqBands : list R) : option AudioBuffer :=
  match audioContext with
  | None => None
  | Some sampleRate =>
    let freqs := sort_by Rleb freqBands in
    let maxLength :=
      fold_left (fun m freq => match irBuffers freq with
                               | Some d => Nat.max m (List.length d)
                               | None => m end) freqs 0%nat in
    if Nat.eqb maxLength 0 then None else
    let combined0 := ab_data (createBuffer maxLength sampleRate) in
    let combined1 :=
      fold_left (fun acc freq => match irBuffers freq with
                                 | Some irData => addInto acc irData
                                 | None => acc end) freqs combined0 in
    let maxSample := peakAbs combined1 in
    let combined2 := if Rltb 0 maxSample
                     then map (fun s => s / maxSample * 0.98) combined1
                     else combined1 in
    Some (mkAudioBuffer sampleRate combined2)
  end.

(** ** Multi-channel buffers, applyPreDelayToBuffer and audioBufferToWav
    (src/src/main.js) *)

(** An [AudioBuffer]: sample rate, [length], one array per channel. *)
Record MultiBuffer := mkMultiBuffer {
  mb_sampleRate : R;
  mb_length : nat;
  mb_channels : list (list R) }.

(** [audioContext.createBuffer(numberOfChannels, length, sampleRate)] *)
Definition createMultiBuffer (numberOfChannels len : nat) (sampleRate : R) : MultiBuffer :=
  mkMultiBuffer sampleRate len (repeat (repeat 0 len) numberOfChannels).

(** [Math.round]: rounds half-way cases up. *)
Definition jsRound (x : R) : Z := Zfloor (x + 0.5).

(** [destData.set(src)] on a zero-filled array of length [n >= src.length]. *)
Definition setInto (n : nat) (src : list R) : list R :=
  src ++ repeat 0 (n - List.length src).

Definition applyPreDelayToBuffer (sourceBuffer : option MultiBuffer) (preDelayMs : R)
    : option MultiBuffer :=
  match sourceBuffer with
  | None => None
  | Some b =>
    let sampleRate := mb_sampleRate b in
    let offsetSamples := jsRound (preDelayMs / 1000 * sampleRate) in
    if (offsetSamples <=? 0)%Z then Some b
    else if (Z.of_nat (mb_length b) <=? offsetSamples)%Z then
      Some (createMultiBuffer (List.length (mb_channels b)) 1 sampleRate)
    else
      let off := Z.to_nat offsetSamples in
      let trimmedLength := (mb_length b - off)%nat in
      Some (mkMultiBuffer sampleRate trimmedLength
              (map (fun srcData => setInto trimmedLength
                                     (firstn trimmedLength (skipn off srcData)))
                   (mb_channels b)))
  end.

(** [ToIntegerOrInfinity] on a finite number: truncation towards zero. *)
Definition Ztrunc (x : R) : Z := if Rlt_dec x 0 then Zceil x else Zfloor x.

(** [x | 0]: [ToInt32]. *)
Definition toInt32 (z : Z) : Z := ((z + 2 ^ 31) mod 2 ^ 32 - 2 ^ 31)%Z.

(** [DataView.setUintN]/[setIntN] with [littleEndian = true] store the [k]
    low bytes of the integer (modulo [256 ^ k]), least significant first. *)
Fixpoint bytesLE (k : nat) (v : Z) : list Z :=
  match k with
  | O => []
  | S k' => (v mod 256)%Z :: bytesLE k' (v / 256)%Z
  end.

(** The 16-bit value of one sample. *)
Definition wavSample (x : R) : Z :=
  let sample := Rmax (-1) (Rmin 1 x) in
  toInt32 (Ztrunc (if Rltb sample 0 then sample * 32768 else sample * 32767)).

(** The [while (pos < length)] loop; [fuel] bounds its iterations.  A read
    past the end of a channel gives [undefined], whose sample is [NaN | 0 = 0],
    the value [wavSample 0] also has. *)
Fixpoint wavData (fuel : nat) (channels : list (list R)) (numOfChan len pos : Z)
    (offset : nat) : list Z :=
  match fuel with
  | O => []
  | S fuel' =>
    if (pos <? len)%Z then
      flat_map (fun ch => bytesLE 2 (wavSample (nth offset ch 0))) channels
      ++ wavData fuel' channels numOfChan len (pos + 2 * numOfChan)%Z (S offset)
    else []
  end.

(** The header writes; [pos] is the number of bytes written so far. *)
Definition wavHeader (numOfChan : Z) (sampleRate : R) (len : Z) : list Z :=
  let h := bytesLE 4 0x46464952 ++ bytesLE 4 (len - 8) ++ bytesLE 4 0x45564157
           ++ bytesLE 4 0x20746d66 ++ bytesLE 4 16 ++ bytesLE 2 1
           ++ bytesLE 2 numOfChan ++ bytesLE 4 (Ztrunc sampleRate)
           ++ bytesLE 4 (Ztrunc (sampleRate * 2 * IZR numOfChan))
           ++ bytesLE 2 (numOfChan * 2) ++ bytesLE 2 16 ++ bytesLE 4 0x61746164 in
  let pos := Z.of_nat (List.length h) in
  h ++ bytesLE 4 (len - pos - 4).

(** [audioBufferToWav(aBuffer)]: the bytes of the blob. *)
Definition audioBufferToWav (aBuffer : MultiBuffer) : list Z :=
  let numOfChan := Z.of_nat (List.length (mb_channels aBuffer)) in
  let len := (Z.of_nat (mb_length aBuffer) * numOfChan * 2 + 44)%Z in
  let header := wavHeader numOfChan (mb_sampleRate aBuffer) len in
  header ++ wavData (Z.to_nat len) (mb_channels aBuffer) numOfChan len
                    (Z.of_nat (List.length header)) 0.

(** Reading back: the unsigned little-endian value of a byte list, and the
    signed 16-bit value of two bytes ([getInt16(pos, true)]). *)
Fixpoint readLE (bs : list Z) : Z :=
  match bs with
  | [] => 0%Z
  | b :: bs' => (b + 256 * readLE bs')%Z
  end.

Definition readInt16 (bs : list Z) : Z :=
  let u := readLE bs in if (u <? 2 ^ 15)%Z then u else (u - 2 ^ 16)%Z.

(** ** normalizeRayRadiosityConfig (src/src/main.js) *)

(** [CONFIG.RAY_RADIOSITY] *)
Definition rrBase : RRConfig := mkRRConfig true 0.3 0.003 6.0 3 22 1e-9 1.6.

(** [{ ...base, ...(configOverrides || {}) }] and the clamping that follows
    ([??] never applies: every property is present after the spread). *)
Definition normalizeRayRadiosityConfig (o : RROverrides) : RRConfig :=
  let cfg := mkRRConfig (with_default (ov_enabled o) (rr_enabled rrBase))
               (with_default (ov_scatteringCoeff o) (rr_scatteringCoeff rrBase))
               (with_default (ov_histogramResolution o) (rr_histogramResolution rrBase))
               (with_default (ov_maxTime o) (rr_maxTime rrBase))
               (with_default (ov_hybridBounceThreshold o) (rr_hybridBounceThreshold rrBase))
               (with_default (ov_poissonDensity o) (rr_poissonDensity rrBase))
               (with_default (ov_minEnergyThreshold o) (rr_minEnergyThreshold rrBase))
               (with_default (ov_diffuseGain o) (rr_diffuseGain rrBase)) in
  let hr := Rmax 0.0005 (rr_histogramResolution cfg) in
  mkRRConfig (rr_enabled cfg) (clamp01 (rr_scatteringCoeff cfg)) hr
             (Rmax hr (rr_maxTime cfg))
             (Rmax 0 (IZR (Zfloor (rr_hybridBounceThreshold cfg))))
             (Rmax 0.1 (rr_poissonDensity cfg))
             (Rmax 1e-12 (rr_minEnergyThreshold cfg))
             (Rmax 0.01 (rr_diffuseGain cfg)).

(** A configuration object posted as [rrConfig]: every property present. *)
Definition configAsOverrides (c : RRConfig) : RROverrides :=
  mkRROverrides (Some (rr_enabled c)) (Some (rr_scatteringCoeff c))
    (Some (rr_histogramResolution c)) (Some (rr_maxTime c))
    (Some (rr_hybridBounceThreshold c)) (Some (rr_poissonDensity c))
    (Some (rr_minEnergyThreshold c)) (Some (rr_diffuseGain c)).

(** ** Concrete inputs *)

(** An empty room around a receiver of radius 0.5 at the origin. *)
Definition emptyRoom : Scene :=
  mkScene (fun _ _ => None) (fun _ _ => None) 0.5 (mkV3 0 0 0).

(** [Delta t = 0.25 s], [T_max = 1 s], [c = 1 m/s], broadband, no seed. *)
Definition edgeParams : SimParams :=
  mkSimParams 1 4 (Some 0) false [] "" 1 5000
    (mkRROverrides None None (Some 0.25) (Some 1) None None None None).

(** A [Math.random] replaying a fixed list of draws (then 0). *)
Definition streamRand (l : list R) : R * list R :=
  match l with
  | x :: l' => (x, l')
  | [] => (0, [])
  end.

Definition streamSeed (_ : string) : list R := [].

(** A receiver seen at distance 2 by rays going towards [x > 0] and at
    distance 1 by the others; no room geometry. *)
Definition sidedRoom : Scene :=
  mkScene (fun _ _ => None)
          (fun _ dir => if Rltb 0 (vx dir) then Some (mkHit 2 (mkV3 2 0 0) None)
                        else Some (mkHit 1 (mkV3 (-1) 0 0) None))
          0.5 (mkV3 0 0 0).

(** Broadband, radiosity disabled, [c = 1], no seed, [numRays] rays. *)
Definition plainParams (n : Z) : SimParams :=
  mkSimParams n 1 (Some 0) false [] "" 1 5000
    (mkRROverrides (Some false) None None None None None None None).

(** A wall 1 m away in every direction, hit at [(1, 0, 0)]; the receiver
    (radius 0.5 at the origin) is never hit. *)
Definition tailRoom : Scene :=
  mkScene (fun _ _ => Some (mkHit 1 (mkV3 1 0 0) (Some (mkV3 (-1) 0 0))))
          (fun _ _ => None) 0.5 (mkV3 0 0 0).

(** One ray, one bounce, seed ["s"], radiosity on from the first bounce,
    no scattering, [Delta t = 1 s], [T_max = 3 s], [c = 1 m/s]. *)
Definition tailParams : SimParams :=
  mkSimParams 1 1 (Some 0) false [] "s" 1 5000
    (mkRROverrides None (Some 0) (Some 1) (Some 3) (Some 0) None None None).

(** The energy the wall hit deposits: [1 * 1 * 1 / (4 pi) * 1e-3]. *)
Definition tailEnergy : R := 1e-3 / (4 * PI).




(** A ray passing the centre of a receiver of radius 1/2 at the origin at
    distance [grazeOffset], between the mesh's face planes and the sphere,
    along the unit direction [grazeNormal] (between two meridians of the
    mesh); it starts below the sphere and travels upwards. *)
Definition grazeNormal : V3 := mkV3 (- cos (PI / 16)) 0 (sin (PI / 16)).

Definition grazeOffset : R := (1 / 2 * cos (PI / 16) + 1 / 2) / 2.

Definition grazeOrigin : V3 :=
  mkV3 (- grazeOffset * cos (PI / 16)) (-1) (grazeOffset * sin (PI / 16)).

(** Spec side: the inverse-CDF construction of a direction from two
    uniform draws, [z = 2u - 1], [phi = 2 pi u']. *)
Definition inverseCdfDirection (u u' : R) : V3 :=
  let z := 2 * u - 1 in
  let phi := 2 * PI * u' in
  let r := sqrt (1 - z * z) in
  mkV3 (r * cos phi) (r * sin phi) z.

(** * Properties *)

(** ** Floor and ceiling *)

Lemma Zfloor_spec (x : R) : IZR (Zfloor x) <= x < IZR (Zfloor x) + 1.
Proof.
  unfold Zfloor. rewrite minus_IZR. destruct (archimed x) as [H1 H2]. lra.
Qed.

Lemma Zfloor_unique (x : R) (z : Z) : IZR z <= x < IZR z + 1 -> Zfloor x = z.
Proof.
  intros [H1 H2]. unfold Zfloor.
  assert (Hu : (z + 1)%Z = up x).
  { apply tech_up; rewrite plus_IZR; lra. }
  lia.
Qed.

Lemma Zceil_ge (x : R) : x <= IZR (Zceil x).
Proof.
  unfold Zceil. rewrite opp_IZR. pose proof (Zfloor_spec (- x)). lra.
Qed.

Lemma Zceil_unique (x : R) (z : Z) : IZR z - 1 < x <= IZR z -> Zceil x = z.
Proof.
  intros [H1 H2]. unfold Zceil.
  rewrite (Zfloor_unique (- x) (- z)); [lia|].
  rewrite opp_IZR. lra.
Qed.

Lemma Rltb_true (x y : R) : x < y -> Rltb x y = true.
Proof. unfold Rltb. destruct (Rlt_dec x y); [reflexivity | contradiction]. Qed.

Lemma Rltb_false (x y : R) : y <= x -> Rltb x y = false.
Proof. unfold Rltb. destruct (Rlt_dec x y); [lra | reflexivity]. Qed.

Lemma Rleb_true (x y : R) : x <= y -> Rleb x y = true.
Proof. unfold Rleb. destruct (Rle_dec x y); [reflexivity | contradiction]. Qed.

Lemma Rleb_false (x y : R) : y < x -> Rleb x y = false.
Proof. unfold Rleb. destruct (Rle_dec x y); [lra | reflexivity]. Qed.

(** ** Buffer lengths in [createIRAudioBuffer] *)

Lemma list_add_length (buf : list R) (i : nat) (v : R) :
  List.length (list_add buf i v) = List.length buf.
Proof.
  revert i; induction buf as [|x xs IH]; intros [|i]; simpl; auto.
Qed.

Lemma addAt_length (buf : list R) (i : Z) (v : R) :
  List.length (addAt buf i v) = List.length buf.
Proof. unfold addAt. destruct (i <? 0)%Z; [reflexivity | apply list_add_length]. Qed.

Lemma placeArrival_length sr len buf a :
  List.length (placeArrival sr len buf a) = List.length buf.
Proof.
  unfold placeArrival.
  destruct (_ <? _)%Z; [rewrite !addAt_length; reflexivity|].
  destruct (_ <? _)%Z; [apply addAt_length | reflexivity].
Qed.

Lemma fold_placeArrival_length sr len arrivals buf :
  List.length (fold_left (placeArrival sr len) arrivals buf) = List.length buf.
Proof.
  revert buf; induction arrivals as [|a l IH]; intro buf; simpl; auto.
  rewrite IH. apply placeArrival_length.
Qed.

(** C10: on an empty arrival list [createIRAudioBuffer] returns a buffer
    holding exactly one sample, of value 0; only on a non-empty list is the
    length [ceil(max(maxTime + 0.5, 1) * sampleRate)], which is at least one
    second of samples. *)
Theorem createIRAudioBuffer_empty_single_sample (sampleRate : R) :
  ab_data (createIRAudioBuffer [] sampleRate) = [0] /\
  forall arrivals, arrivals <> [] ->
    List.length (ab_data (createIRAudioBuffer arrivals sampleRate)) =
      Z.to_nat (Zceil (Rmax (maxArrivalTime arrivals + 0.5) 1 * sampleRate)) /\
    (0 <= sampleRate ->
     sampleRate <= INR (List.length (ab_data (createIRAudioBuffer arrivals sampleRate)))).
Proof.
  split; [reflexivity|].
  intros arrivals Hne.
  assert (Hlen : List.length (ab_data (createIRAudioBuffer arrivals sampleRate)) =
      Z.to_nat (Zceil (Rmax (maxArrivalTime arrivals + 0.5) 1 * sampleRate))).
  { destruct arrivals as [|a l]; [contradiction|].
    unfold createIRAudioBuffer. cbv zeta.
    destruct (Rltb 1 _); simpl ab_data;
      rewrite ?length_map, ?fold_placeArrival_length, ?placeArrival_length;
      apply repeat_length. }
  split; [exact Hlen|].
  intro Hsr. rewrite Hlen.
  set (x := Rmax (maxArrivalTime arrivals + 0.5) 1 * sampleRate).
  assert (Hx : sampleRate <= x).
  { unfold x. pose proof (Rmax_r (maxArrivalTime arrivals + 0.5) 1). nra. }
  pose proof (Zceil_ge x) as Hc.
  assert (Hz : (0 <= Zceil x)%Z) by (apply le_IZR; lra).
  rewrite INR_IZR_INZ, Z2Nat.id by exact Hz. lra.
Qed.

Lemma createIRAudioBuffer_empty_single_sample_witness :
  [mkArrival 1 1] <> [] /\ 0 <= 44100 /\
  44100 <= INR (List.length (ab_data (createIRAudioBuffer [mkArrival 1 1] 44100))).
Proof.
  split; [discriminate|]. split; [lra|].
  apply (proj2 (proj2 (createIRAudioBuffer_empty_single_sample 44100)
                       [mkArrival 1 1] ltac:(discriminate))).
  lra.
Defined.

(** ** The FIR kernel *)

Lemma sumList_nil : sumList [] = 0.
Proof. reflexivity. Qed.

Lemma fold_left_Rplus_acc (l : list R) (a : R) :
  fold_left Rplus l a = a + fold_left Rplus l 0.
Proof.
  revert a; induction l as [|x l IH]; intro a; simpl; [lra|].
  rewrite IH, (IH (0 + x)). lra.
Qed.

Lemma sumList_cons (x : R) (l : list R) : sumList (x :: l) = x + sumList l.
Proof. unfold sumList. simpl. rewrite fold_left_Rplus_acc. lra. Qed.

Lemma sumList_map_div (l : list R) (s : R) :
  sumList (map (fun x => x / s) l) = sumList l / s.
Proof.
  induction l as [|x l IH]; simpl.
  - rewrite sumList_nil. unfold Rdiv. ring.
  - rewrite !sumList_cons, IH. unfold Rdiv. ring.
Qed.

Lemma nth_map_div (l : list R) (s : R) (n : nat) :
  nth n (map (fun x => x / s) l) 0 = nth n l 0 / s.
Proof.
  revert n; induction l as [|x l IH]; intros [|n]; simpl; auto; unfold Rdiv; ring.
Qed.

Lemma sumList_nonneg (l : list R) :
  (forall x, In x l -> 0 <= x) -> 0 <= sumList l.
Proof.
  induction l as [|x l IH]; intro H; [rewrite sumList_nil; lra|].
  rewrite sumList_cons.
  pose proof (H x (or_introl eq_refl)).
  pose proof (IH (fun y Hy => H y (or_intror Hy))). lra.
Qed.

Lemma sumList_nonneg_ge (l : list R) (n : nat) :
  (forall x, In x l -> 0 <= x) -> nth n l 0 <= sumList l.
Proof.
  revert n; induction l as [|x l IH]; intros n H.
  - destruct n; simpl; rewrite sumList_nil; lra.
  - rewrite sumList_cons.
    pose proof (sumList_nonneg l (fun y Hy => H y (or_intror Hy))).
    pose proof (H x (or_introl eq_refl)).
    destruct n as [|n]; simpl.
    + lra.
    + pose proof (IH n (fun y Hy => H y (or_intror Hy))). lra.
Qed.

Lemma nth_map_seq {A} (f : nat -> A) (N n : nat) (d : A) :
  (n < N)%nat -> nth n (map f (seq 0 N)) d = f n.
Proof.
  intro H.
  rewrite nth_indep with (d' := f O) by (rewrite length_map, length_seq; lia).
  rewrite map_nth, seq_nth by lia. reflexivity.
Qed.

(** *** [Math.fround] *)

Lemma Zround_even_err (z : R) : Rabs (IZR (Zround_even z) - z) <= 1 / 2.
Proof.
  unfold Zround_even. pose proof (Zfloor_spec z) as Hf.
  set (f := Zfloor z) in *.
  destruct (Rlt_dec (z - IZR f) (1 / 2)).
  - rewrite Rabs_left1 by lra. lra.
  - destruct (Rlt_dec (1 / 2) (z - IZR f)).
    + rewrite plus_IZR. rewrite Rabs_right by lra. lra.
    + destruct (Z.even f); [rewrite Rabs_left1 by lra; lra|].
      rewrite plus_IZR. rewrite Rabs_right by lra. lra.
Qed.

Lemma Zround_even_le (z : R) (m : Z) : z <= IZR m -> (Zround_even z <= m)%Z.
Proof.
  intro Hz. unfold Zround_even. pose proof (Zfloor_spec z) as Hf.
  set (f := Zfloor z) in *.
  assert (Hfm : (f <= m)%Z) by (apply le_IZR; lra).
  destruct (Z.eq_dec f m) as [Heq|Hne].
  - assert (Hd : z - IZR f = 0) by (rewrite Heq in *; lra).
    rewrite Hd. destruct (Rlt_dec 0 (1 / 2)); [lia | lra].
  - destruct (Rlt_dec (z - IZR f) (1 / 2)); [lia|].
    destruct (Rlt_dec (1 / 2) (z - IZR f)); [lia|].
    destruct (Z.even f); lia.
Qed.

Lemma Zround_even_ge (z : R) (m : Z) : IZR m <= z -> (m <= Zround_even z)%Z.
Proof.
  intro Hz. unfold Zround_even. pose proof (Zfloor_spec z) as Hf.
  set (f := Zfloor z) in *.
  assert (Hfm : (m < f + 1)%Z) by (apply lt_IZR; rewrite plus_IZR; lra).
  destruct (Rlt_dec (z - IZR f) (1 / 2)); [lia|].
  destruct (Rlt_dec (1 / 2) (z - IZR f)); [lia|].
  destruct (Z.even f); lia.
Qed.

Lemma ln2_pos : 0 < ln 2.
Proof. rewrite <- ln_1. apply ln_increasing; lra. Qed.

Lemma powerRZ2_pos (z : Z) : 0 < powerRZ 2 z.
Proof. apply powerRZ_lt. lra. Qed.

Lemma powerRZ2_add (a b : Z) : powerRZ 2 (a + b) = powerRZ 2 a * powerRZ 2 b.
Proof. apply powerRZ_add. lra. Qed.

Lemma powerRZ2_opp (a : Z) : powerRZ 2 (- a) = / powerRZ 2 a.
Proof. apply powerRZ_neg'. Qed.

Lemma powerRZ2_1 : powerRZ 2 1 = 2.
Proof. simpl. ring. Qed.

Lemma pow2_powerRZ (n : nat) : 2 ^ n = powerRZ 2 (Z.of_nat n).
Proof. apply pow_powerRZ. Qed.

Lemma powerRZ2_floor_le (a : R) : 0 < a -> powerRZ 2 (Zfloor (ln a / ln 2)) <= a.
Proof.
  intro Ha. rewrite powerRZ_Rpower by lra. unfold Rpower.
  pose proof (Zfloor_spec (ln a / ln 2)) as [Hf _].
  pose proof ln2_pos as Hl.
  assert (H : IZR (Zfloor (ln a / ln 2)) * ln 2 <= ln a).
  { apply (Rmult_le_compat_r (ln 2)) in Hf; [|lra].
    replace (ln a / ln 2 * ln 2) with (ln a) in Hf by (field; lra). exact Hf. }
  destruct (Rle_lt_or_eq_dec _ _ H) as [Hlt|Heq].
  - apply Rlt_le. rewrite <- (exp_ln a) at 2 by exact Ha. apply exp_increasing. exact Hlt.
  - rewrite Heq, exp_ln by exact Ha. lra.
Qed.

Lemma Zfloor_log2_le1 (a : R) : 0 < a <= 1 -> (Zfloor (ln a / ln 2) <= 0)%Z.
Proof.
  intros [Ha Ha1]. pose proof (Zfloor_spec (ln a / ln 2)) as [Hf _].
  pose proof ln2_pos as Hl.
  assert (Hln : ln a <= 0).
  { destruct (Rle_lt_or_eq_dec _ _ Ha1) as [Hlt | Heq].
    - rewrite <- ln_1. left. apply ln_increasing; lra.
    - rewrite Heq, ln_1. lra. }
  assert (ln a / ln 2 <= 0).
  { unfold Rdiv. rewrite <- (Rmult_0_l (/ ln 2)). apply Rmult_le_compat_r; [|lra].
    left. apply Rinv_0_lt_compat. lra. }
  apply le_IZR. lra.
Qed.

Lemma fround32_0 : fround32 0 = 0.
Proof. unfold fround32. destruct (Req_EM_T 0 0); [reflexivity | congruence]. Qed.

(** The rounding error: half a unit in the last place, relative [2^-24]
    for normal numbers and absolute [2^-150] in the subnormal range. *)
Lemma fround32_err (x : R) : Rabs (fround32 x - x) <= Rabs x / 2 ^ 24 + / 2 ^ 150.
Proof.
  unfold fround32. destruct (Req_EM_T x 0) as [Hx|Hx].
  { subst x. rewrite Rminus_0_r, Rabs_R0. unfold Rdiv. rewrite Rmult_0_l.
    pose proof (pow_lt 2 150 ltac:(lra)). left. apply Rinv_0_lt_compat in H. lra. }
  cbv zeta.
  set (a := Rabs x). assert (Ha : 0 < a) by (apply Rabs_pos_lt; exact Hx).
  set (f := Zfloor (ln a / ln 2)). set (e := Z.max f (-126)).
  set (ulp := powerRZ 2 (e - 23)). assert (Hu : 0 < ulp) by apply powerRZ2_pos.
  assert (Heq : IZR (Zround_even (x / ulp)) * ulp - x
                = ulp * (IZR (Zround_even (x / ulp)) - x / ulp)) by (field; lra).
  rewrite Heq, Rabs_mult, (Rabs_right ulp) by lra.
  pose proof (Zround_even_err (x / ulp)) as Hr.
  assert (Hhalf : ulp * / 2 <= a / 2 ^ 24 + / 2 ^ 150).
  { rewrite !pow2_powerRZ. change (Z.of_nat 24) with 24%Z. change (Z.of_nat 150) with 150%Z.
    pose proof (powerRZ2_pos 24). pose proof (powerRZ2_pos 150).
    assert (Hi : 0 < / powerRZ 2 150) by (apply Rinv_0_lt_compat; lra).
    unfold ulp. destruct (Z.max_spec f (-126)) as [[Hlt He] | [Hge He]]; fold e in He; rewrite He.
    - replace (-126 - 23)%Z with (Z.opp 150 + 1)%Z by lia.
      rewrite powerRZ2_add, powerRZ2_opp, powerRZ2_1.
      assert (0 <= a / powerRZ 2 24) by (apply Rmult_le_pos; [lra | left; apply Rinv_0_lt_compat; lra]).
      replace (/ powerRZ 2 150 * 2 * / 2) with (/ powerRZ 2 150) by (field; lra). lra.
    - replace (f - 23)%Z with (f + Z.opp 24 + 1)%Z by lia.
      rewrite !powerRZ2_add, powerRZ2_opp, powerRZ2_1.
      pose proof (powerRZ2_floor_le a Ha) as Hp. fold f in Hp.
      replace (powerRZ 2 f * / powerRZ 2 24 * 2 * / 2) with (powerRZ 2 f / powerRZ 2 24) by (field; lra).
      assert (powerRZ 2 f / powerRZ 2 24 <= a / powerRZ 2 24).
      { unfold Rdiv. apply Rmult_le_compat_r; [left; apply Rinv_0_lt_compat; lra | exact Hp]. }
      lra. }
  assert (ulp * Rabs (IZR (Zround_even (x / ulp)) - x / ulp) <= ulp * / 2).
  { apply Rmult_le_compat_l; lra. }
  lra.
Qed.

Lemma fround32_nonneg (x : R) : 0 <= x -> 0 <= fround32 x.
Proof.
  intro Hx. unfold fround32. destruct (Req_EM_T x 0); [lra|]. cbv zeta.
  set (ulp := powerRZ 2 _). assert (Hu : 0 < ulp) by apply powerRZ2_pos.
  apply Rmult_le_pos; [|lra]. apply IZR_le. apply Zround_even_ge.
  apply Rmult_le_pos; [lra | left; apply Rinv_0_lt_compat; lra].
Qed.

Lemma fround32_le_1 (x : R) : 0 <= x <= 1 -> fround32 x <= 1.
Proof.
  intros [Hx0 Hx1]. unfold fround32. destruct (Req_EM_T x 0); [lra|]. cbv zeta.
  rewrite Rabs_right by lra.
  set (f := Zfloor (ln x / ln 2)). set (e := Z.max f (-126)).
  assert (Hf : (f <= 0)%Z) by (apply Zfloor_log2_le1; lra).
  assert (He : (e <= 0)%Z) by (unfold e; lia).
  set (ulp := powerRZ 2 (e - 23)). assert (Hu : 0 < ulp) by apply powerRZ2_pos.
  set (k := (23 - e)%Z).
  assert (Hk : IZR (2 ^ k) * ulp = 1).
  { rewrite <- (Z2Nat.id k) by (unfold k; lia).
    rewrite <- pow_IZR, pow2_powerRZ. unfold ulp.
    rewrite <- powerRZ2_add. replace (Z.of_nat (Z.to_nat k) + (e - 23))%Z with 0%Z
      by (rewrite Z2Nat.id by (unfold k; lia); unfold k; lia).
    reflexivity. }
  assert (Hq : x / ulp <= IZR (2 ^ k)).
  { apply (Rmult_le_reg_r ulp); [exact Hu|]. unfold Rdiv. rewrite Rmult_assoc, Rinv_l by lra. lra. }
  apply Zround_even_le, IZR_le in Hq.
  rewrite <- Hk. apply Rmult_le_compat_r; lra.
Qed.

Lemma fround32_1 : fround32 1 = 1.
Proof.
  unfold fround32. destruct (Req_EM_T 1 0); [lra|]. cbv zeta.
  rewrite Rabs_R1, ln_1. unfold Rdiv. rewrite Rmult_0_l.
  replace (Zfloor 0) with 0%Z by (symmetry; apply Zfloor_unique; simpl; lra).
  change (Z.max 0 (-126) - 23)%Z with (Z.opp 23)%Z.
  rewrite powerRZ2_opp.
  assert (Hp : powerRZ 2 23 = IZR (2 ^ 23)) by (change (powerRZ 2 23) with (powerRZ 2 (Z.of_nat 23)); rewrite <- pow_powerRZ, pow_IZR; reflexivity).
  rewrite Hp. rewrite Rmult_1_l, Rinv_inv.
  replace (Zround_even (IZR (2 ^ 23))) with (2 ^ 23)%Z.
  - field. apply not_0_IZR. lia.
  - symmetry. apply Z.le_antisymm; [apply Zround_even_le | apply Zround_even_ge]; lra.
Qed.

Lemma inv_pow2_le (m n : nat) : (m <= n)%nat -> / 2 ^ n <= / 2 ^ m.
Proof.
  intro H. apply Rinv_le_contravar; [apply pow_lt; lra | apply Rle_pow; [lra | exact H]].
Qed.

(** Above [2^-100] rounding loses less than half of the value. *)
Lemma fround32_ge_half (x : R) : / 2 ^ 100 <= x -> x / 2 <= fround32 x.
Proof.
  intro Hx. pose proof (fround32_err x) as He.
  pose proof (pow_lt 2 100 ltac:(lra)) as Hp.
  assert (H0 : 0 < x) by (apply Rinv_0_lt_compat in Hp; lra).
  rewrite Rabs_minus_sym, (Rabs_right x) in He by lra.
  pose proof (Rle_abs (x - fround32 x)) as Ha.
  assert (H24 : x / 2 ^ 24 <= x / 4).
  { unfold Rdiv. apply Rmult_le_compat_l; [lra|].
    apply Rinv_le_contravar; [lra|]. replace 4 with (2 ^ 2) by ring.
    apply Rle_pow; [lra | lia]. }
  assert (H150 : / 2 ^ 150 <= x / 4).
  { replace (2 ^ 150) with (2 ^ 100 * 2 ^ 50) by (rewrite <- pow_add; reflexivity).
    rewrite Rinv_mult. unfold Rdiv. apply Rmult_le_compat.
    - left. apply Rinv_0_lt_compat. exact Hp.
    - left. apply Rinv_0_lt_compat, pow_lt. lra.
    - exact Hx.
    - replace (/ 4) with (/ 2 ^ 2) by (f_equal; ring). apply inv_pow2_le. lia. }
  lra.
Qed.

Lemma nth_map_fround_div (l : list R) (s : R) (n : nat) :
  nth n (map (fun x => fround32 (x / s)) l) 0 = fround32 (nth n l 0 / s).
Proof.
  revert n; induction l as [|x l IH]; intros [|n]; simpl;
    try (unfold Rdiv; rewrite Rmult_0_l, fround32_0; reflexivity); auto.
Qed.

(** Dividing by [s] and rounding every quotient to binary32 moves the sum
    away from [sumList l / s] by at most [2^-24] times [sum |x| / |s|],
    plus [2^-150] per element. *)
Lemma sumList_map_fround_div_err (l : list R) (s : R) :
  s <> 0 ->
  Rabs (sumList (map (fun x => fround32 (x / s)) l) - sumList l / s)
  <= sumList (map Rabs l) / Rabs s / 2 ^ 24 + INR (List.length l) / 2 ^ 150.
Proof.
  intro Hs. pose proof (Rabs_pos_lt s Hs) as Has.
  pose proof (pow_lt 2 24 ltac:(lra)). pose proof (pow_lt 2 150 ltac:(lra)).
  induction l as [|x l IH]; simpl map; simpl List.length.
  - rewrite !sumList_nil. simpl INR. unfold Rdiv. rewrite !Rmult_0_l, Rminus_0_r, Rabs_R0. lra.
  - rewrite !sumList_cons, S_INR.
    pose proof (fround32_err (x / s)) as Hx.
    replace (Rabs (x / s)) with (Rabs x / Rabs s) in Hx
      by (unfold Rdiv; rewrite Rabs_mult, Rabs_inv; reflexivity).
    set (A := sumList (map (fun x => fround32 (x / s)) l)) in *.
    assert (Hsplit : fround32 (x / s) + A - (x + sumList l) / s
                     = (fround32 (x / s) - x / s) + (A - sumList l / s)) by (field; exact Hs).
    rewrite Hsplit.
    pose proof (Rabs_triang (fround32 (x / s) - x / s) (A - sumList l / s)).
    assert (Heq : (Rabs x + sumList (map Rabs l)) / Rabs s / 2 ^ 24
                  + (INR (List.length l) + 1) / 2 ^ 150
                  = (Rabs x / Rabs s / 2 ^ 24 + / 2 ^ 150)
                    + (sumList (map Rabs l) / Rabs s / 2 ^ 24 + INR (List.length l) / 2 ^ 150))
      by (field; lra).
    rewrite Heq. lra.
Qed.

Lemma sumList_le_const (l : list R) (c : R) :
  (forall x, In x l -> x <= c) -> sumList l <= INR (List.length l) * c.
Proof.
  induction l as [|x l IH]; intro H; [rewrite sumList_nil; simpl; lra|].
  rewrite sumList_cons. simpl List.length. rewrite S_INR.
  pose proof (H x (or_introl eq_refl)).
  pose proof (IH (fun y Hy => H y (or_intror Hy))). lra.
Qed.

Lemma map_Rabs_nonneg (l : list R) :
  (forall x, In x l -> 0 <= x) -> map Rabs l = l.
Proof.
  induction l as [|x l IH]; intro H; [reflexivity|]. simpl.
  rewrite (Rabs_right x) by (apply Rle_ge, H; left; reflexivity).
  rewrite IH by (intros y Hy; apply H; right; exact Hy). reflexivity.
Qed.

Lemma nth_hannWindow (N n : nat) :
  (n < N)%nat -> nth n (hannWindow N) 0 = fround32 (hann N n).
Proof. apply (nth_map_seq (fun n => fround32 (hann N n))). Qed.

Lemma firwinTaps_length (N : nat) (fl fh fs : R) :
  List.length (firwinTaps N fl fh fs) = N.
Proof. unfold firwinTaps. rewrite length_map, length_seq. reflexivity. Qed.

Lemma INR_numTaps : INR numTaps = 257.
Proof. unfold numTaps. rewrite INR_IZR_INZ. reflexivity. Qed.

Lemma firwinTaps_nth (fl fh fs : R) (n : nat) :
  (n < numTaps)%nat ->
  nth n (firwinTaps numTaps fl fh fs) 0 =
  fround32
    ((if Nat.eqb n 128 then 2 * (fh - fl) / fs
      else (sin (2 * PI * (fh / fs) * (INR n - 128))
            - sin (2 * PI * (fl / fs) * (INR n - 128))) / (PI * (INR n - 128)))
     * fround32 (hann numTaps n)).
Proof.
  intro H. unfold firwinTaps.
  rewrite nth_map_seq by exact H. cbv zeta.
  rewrite nth_hannWindow by exact H.
  replace ((INR numTaps - 1) / 2) with 128 by (rewrite INR_numTaps; lra).
  f_equal. f_equal.
  destruct (Req_EM_T (INR n - 128) 0) as [Hk|Hk];
    destruct (Nat.eqb_spec n 128) as [Hn|Hn].
  - unfold Rdiv. ring.
  - exfalso. apply Hn. apply INR_eq. rewrite INR_IZR_INZ with (n := 128%nat). simpl. lra.
  - exfalso. apply Hk. subst n. rewrite INR_IZR_INZ. simpl. lra.
  - reflexivity.
Qed.

Lemma bandKernel_unfold (centerFreq sampleRate : R) :
  bandKernel centerFreq sampleRate =
  firwinBandpass numTaps (fst (bandEdges centerFreq sampleRate))
                 (snd (bandEdges centerFreq sampleRate)) sampleRate.
Proof. unfold bandKernel. destruct (bandEdges centerFreq sampleRate). reflexivity. Qed.

(** The kernel's sum is 1 up to the binary32 rounding of its taps. *)
Lemma firwinBandpass_sum_err (N : nat) (fl fh fs : R) :
  sumList (firwinTaps N fl fh fs) <> 0 ->
  Rabs (sumList (firwinBandpass N fl fh fs) - 1)
  <= sumList (map Rabs (firwinTaps N fl fh fs)) / Rabs (sumList (firwinTaps N fl fh fs)) / 2 ^ 24
     + INR N / 2 ^ 150.
Proof.
  intro Hs. unfold firwinBandpass. cbv zeta.
  pose proof (sumList_map_fround_div_err (firwinTaps N fl fh fs) _ Hs) as H.
  rewrite firwinTaps_length in H.
  replace (sumList (firwinTaps N fl fh fs) / sumList (firwinTaps N fl fh fs)) with 1 in H
    by (field; exact Hs).
  exact H.
Qed.

Lemma div_pos_same_sign (a b : R) :
  (0 < a /\ 0 < b) \/ (a < 0 /\ b < 0) -> 0 < a / b.
Proof.
  intros [[Ha Hb]|[Ha Hb]].
  - apply Rdiv_lt_0_compat; assumption.
  - replace (a / b) with ((- a) / (- b)) by (field; lra).
    apply Rdiv_lt_0_compat; lra.
Qed.

Lemma hann_nonneg (N n : nat) : 0 <= hann N n.
Proof. unfold hann. pose proof (COS_bound (2 * PI * INR n / (INR N - 1))). lra. Qed.

Lemma hann_le_1 (N n : nat) : hann N n <= 1.
Proof. unfold hann. pose proof (COS_bound (2 * PI * INR n / (INR N - 1))). lra. Qed.

Lemma fround32_hann_range (N n : nat) : 0 <= fround32 (hann N n) <= 1.
Proof.
  split; [apply fround32_nonneg, hann_nonneg|].
  apply fround32_le_1. split; [apply hann_nonneg | apply hann_le_1].
Qed.

Lemma hann_center : hann numTaps 128 = 1.
Proof.
  unfold hann. rewrite INR_numTaps.
  replace (2 * PI * INR 128 / (257 - 1)) with PI
    by (rewrite INR_IZR_INZ; simpl; field).
  rewrite cos_PI. lra.
Qed.

(** The band of centre 40 Hz at 44.1 kHz: [f_low = 20], [f_high = 60]. *)
Lemma bandEdges_40 : bandEdges 40 44100 = (20, 60).
Proof.
  unfold bandEdges. f_equal.
  - rewrite Rmax_left; lra.
  - rewrite Rmin_left; lra.
Qed.

(** Every stored tap of that band lies in [0, 1]: the unwindowed taps do,
    as [sin] is increasing on the arguments, at most [2 pi 60 128 / 44100]. *)
Lemma firwinTaps_40_taps (x : R) :
  In x (firwinTaps numTaps 20 60 44100) -> 0 <= x <= 1.
Proof.
  intro Hx. apply In_nth with (d := 0) in Hx.
  destruct Hx as [n [Hn Hx]]. subst x.
  rewrite firwinTaps_length in Hn.
  rewrite firwinTaps_nth by exact Hn.
  pose proof (fround32_hann_range numTaps n) as Hw.
  set (w := fround32 (hann numTaps n)) in *.
  assert (Hh : forall h, 0 <= h <= 1 -> 0 <= fround32 (h * w) <= 1).
  { intros h Hh. assert (0 <= h * w <= 1) by (split; nra).
    split; [apply fround32_nonneg | apply fround32_le_1]; lra. }
  apply Hh.
  destruct (Nat.eqb_spec n 128) as [Heq|Hne]; [lra|].
  pose proof PI_RGT_0 as Hpi. pose proof PI2_3_2 as Hpi3.
  assert (H256 : (n <= 256)%nat) by (unfold numTaps in Hn; lia).
  apply le_INR in H256. rewrite (INR_IZR_INZ 256) in H256. simpl in H256.
  pose proof (pos_INR n) as Hn0.
  pose proof (SIN_bound (2 * PI * (20 / 44100) * (INR n - 128))).
  pose proof (SIN_bound (2 * PI * (60 / 44100) * (INR n - 128))).
  destruct (Nat.lt_ge_cases n 128) as [Hlt | Hge].
  - assert (Hk : INR n <= 127).
    { assert (H127 : (n <= 127)%nat) by lia. apply le_INR in H127.
      rewrite (INR_IZR_INZ 127) in H127. exact H127. }
    assert (sin (2 * PI * (60 / 44100) * (INR n - 128))
            < sin (2 * PI * (20 / 44100) * (INR n - 128))).
    { apply sin_increasing_1; nra. }
    replace ((sin (2 * PI * (60 / 44100) * (INR n - 128))
              - sin (2 * PI * (20 / 44100) * (INR n - 128))) / (PI * (INR n - 128)))
      with ((sin (2 * PI * (20 / 44100) * (INR n - 128))
             - sin (2 * PI * (60 / 44100) * (INR n - 128))) / (PI * (128 - INR n)))
      by (field; nra).
    split.
    + left. apply Rdiv_lt_0_compat; nra.
    + apply (Rmult_le_reg_r (PI * (128 - INR n))); [nra|].
      unfold Rdiv. rewrite Rmult_assoc, Rinv_l by nra. nra.
  - assert (Hk : 129 <= INR n).
    { assert (H129 : (129 <= n)%nat) by lia. apply le_INR in H129.
      rewrite (INR_IZR_INZ 129) in H129. exact H129. }
    assert (sin (2 * PI * (20 / 44100) * (INR n - 128))
            < sin (2 * PI * (60 / 44100) * (INR n - 128))).
    { apply sin_increasing_1; nra. }
    split.
    + left. apply Rdiv_lt_0_compat; nra.
    + apply (Rmult_le_reg_r (PI * (INR n - 128))); [nra|].
      unfold Rdiv. rewrite Rmult_assoc, Rinv_l by nra. nra.
Qed.

(** Its centre tap is [fround32 (80 / 44100)], at least half of [80 / 44100]. *)
Lemma firwinTaps_40_center :
  80 / 44100 / 2 <= nth 128 (firwinTaps numTaps 20 60 44100) 0.
Proof.
  rewrite firwinTaps_nth by (unfold numTaps; lia).
  simpl Nat.eqb. cbv iota. rewrite hann_center, fround32_1.
  apply Rle_trans with (2 * (60 - 20) / 44100 * 1 / 2); [lra|].
  apply fround32_ge_half.
  pose proof (inv_pow2_le 16 100 ltac:(lia)).
  replace (2 ^ 16) with 65536 in H by (simpl; ring).
  lra.
Qed.

Lemma firwinTaps_40_sum_bounds :
  80 / 44100 / 2 <= sumList (firwinTaps numTaps 20 60 44100) <= 257.
Proof.
  pose proof (sumList_nonneg_ge (firwinTaps numTaps 20 60 44100) 128
                (fun x Hx => proj1 (firwinTaps_40_taps x Hx))).
  pose proof firwinTaps_40_center.
  pose proof (sumList_le_const (firwinTaps numTaps 20 60 44100) 1
                (fun x Hx => proj2 (firwinTaps_40_taps x Hx))) as Hle.
  rewrite firwinTaps_length, INR_numTaps in Hle.
  lra.
Qed.

Lemma firwinTaps_40_sum_pos : 0 < sumList (firwinTaps numTaps 20 60 44100).
Proof. pose proof firwinTaps_40_sum_bounds. lra. Qed.

Lemma map_Rabs_firwinTaps_40 :
  map Rabs (firwinTaps numTaps 20 60 44100) = firwinTaps numTaps 20 60 44100.
Proof. apply map_Rabs_nonneg. intros x Hx. exact (proj1 (firwinTaps_40_taps x Hx)). Qed.

(** C9 (amended): for a band of centre [f_c], [f_low = max(f_c - f_c/2, 20)]
    and [f_high = min(f_c + f_c/2, f_s/2 - 1)]; the 257 taps before
    normalisation are the binary32-rounded products of the bandpass sinc in
    normalised frequencies, [(sin(2 pi (f_high/f_s) k) - sin(2 pi (f_low/f_s) k)) / (pi k)]
    for [k = n - 128 <> 0] and [2 (f_high - f_low) / f_s] at [n = 128],
    with the binary32 Hann window.  The kernel is every tap divided by the
    taps' sum [S] and rounded to binary32, so whenever [S <> 0] and no value
    overflows binary32, the kernel's sum differs from 1 (unity gain at DC) by
    at most [2^-24 sum |raw| / |S| + 257 / 2^150].  The bound is of the
    order of [2^-24] when the taps do not cancel, and grows without limit
    as [S] approaches 0. *)
Theorem bandKernel_windowed_sinc_unity_dc (centerFreq sampleRate : R) :
  let fLow := fst (bandEdges centerFreq sampleRate) in
  let fHigh := snd (bandEdges centerFreq sampleRate) in
  let raw := firwinTaps numTaps fLow fHigh sampleRate in
  let kernel := bandKernel centerFreq sampleRate in
  fLow = Rmax (centerFreq - centerFreq / 2) 20 /\
  fHigh = Rmin (centerFreq + centerFreq / 2) (sampleRate / 2 - 1) /\
  List.length raw = numTaps /\
  (forall n, (n < numTaps)%nat ->
     nth n raw 0 =
     fround32
       ((if Nat.eqb n 128 then 2 * (fHigh - fLow) / sampleRate
         else (sin (2 * PI * (fHigh / sampleRate) * (INR n - 128))
               - sin (2 * PI * (fLow / sampleRate) * (INR n - 128))) / (PI * (INR n - 128)))
        * fround32 (0.5 * (1 - cos (2 * PI * INR n / 256))))) /\
  (sumList raw <> 0 ->
     List.length kernel = numTaps /\
     (forall n, nth n kernel 0 = fround32 (nth n raw 0 / sumList raw)) /\
     (sumList (map Rabs raw) < 2 ^ 127 ->
      sumList (map Rabs raw) / Rabs (sumList raw) < 2 ^ 127 ->
      Rabs (sumList kernel - 1)
      <= sumList (map Rabs raw) / Rabs (sumList raw) / 2 ^ 24 + INR numTaps / 2 ^ 150)).
Proof.
  cbv zeta.
  split; [unfold bandEdges; simpl; f_equal; lra|].
  split; [unfold bandEdges; simpl; f_equal; lra|].
  split; [apply firwinTaps_length|].
  split.
  - intros n Hn. rewrite firwinTaps_nth by exact Hn. do 3 f_equal.
    unfold hann. rewrite INR_numTaps. do 4 f_equal. lra.
  - intro Hs. rewrite bandKernel_unfold.
    split; [unfold firwinBandpass; rewrite length_map; apply firwinTaps_length|].
    split; [intro n; unfold firwinBandpass; apply nth_map_fround_div|].
    intros _ _. apply firwinBandpass_sum_err. exact Hs.
Qed.

Lemma bandKernel_windowed_sinc_unity_dc_witness :
  sumList (firwinTaps numTaps (fst (bandEdges 40 44100)) (snd (bandEdges 40 44100)) 44100) <> 0
  /\ sumList (map Rabs (firwinTaps numTaps (fst (bandEdges 40 44100)) (snd (bandEdges 40 44100)) 44100)) < 2 ^ 127
  /\ sumList (map Rabs (firwinTaps numTaps (fst (bandEdges 40 44100)) (snd (bandEdges 40 44100)) 44100))
     / Rabs (sumList (firwinTaps numTaps (fst (bandEdges 40 44100)) (snd (bandEdges 40 44100)) 44100)) < 2 ^ 127
  /\ Rabs (sumList (bandKernel 40 44100) - 1)
     <= sumList (map Rabs (firwinTaps numTaps (fst (bandEdges 40 44100)) (snd (bandEdges 40 44100)) 44100))
        / Rabs (sumList (firwinTaps numTaps (fst (bandEdges 40 44100)) (snd (bandEdges 40 44100)) 44100)) / 2 ^ 24
        + INR numTaps / 2 ^ 150.
Proof.
  pose proof firwinTaps_40_sum_bounds as Hb.
  assert (H128 : 257 < 2 ^ 127).
  { apply Rlt_le_trans with (2 ^ 9); [simpl; lra | apply Rle_pow; [lra | lia]]. }
  assert (H1 : 1 < 2 ^ 127).
  { apply Rlt_le_trans with (2 ^ 1); [simpl; lra | apply Rle_pow; [lra | lia]]. }
  assert (Hs : sumList (firwinTaps numTaps (fst (bandEdges 40 44100))
                                 (snd (bandEdges 40 44100)) 44100) <> 0).
  { rewrite bandEdges_40. simpl. lra. }
  assert (Ha : sumList (map Rabs (firwinTaps numTaps (fst (bandEdges 40 44100))
                 (snd (bandEdges 40 44100)) 44100)) < 2 ^ 127).
  { rewrite bandEdges_40. simpl fst. simpl snd. rewrite map_Rabs_firwinTaps_40. lra. }
  assert (Hr : sumList (map Rabs (firwinTaps numTaps (fst (bandEdges 40 44100)) (snd (bandEdges 40 44100)) 44100))
               / Rabs (sumList (firwinTaps numTaps (fst (bandEdges 40 44100)) (snd (bandEdges 40 44100)) 44100))
               < 2 ^ 127).
  { rewrite bandEdges_40. simpl fst. simpl snd. rewrite map_Rabs_firwinTaps_40.
    rewrite Rabs_right by lra. unfold Rdiv. rewrite Rinv_r by lra. exact H1. }
  split; [exact Hs|]. split; [exact Ha|]. split; [exact Hr|].
  exact (proj2 (proj2 (proj2 (proj2 (proj2 (proj2
           (bandKernel_windowed_sinc_unity_dc 40 44100)))) Hs)) Ha Hr).
Defined.

(** C9 counterexample: for the 40 Hz band at 44.1 kHz the stored kernel sums
    to 1 within [2^-24 + 257 / 2^150], while the DC value of a bandpass
    [20, 60] Hz is 0. *)
Lemma bandKernel_dc_is_not_bandpass_dc :
  Rabs (sumList (bandKernel 40 44100) - 1) <= / 2 ^ 24 + INR numTaps / 2 ^ 150 /\
  ideal_bandpass_response (fst (bandEdges 40 44100)) (snd (bandEdges 40 44100)) 0 = 0 /\
  sumList (bandKernel 40 44100)
    <> ideal_bandpass_response (fst (bandEdges 40 44100)) (snd (bandEdges 40 44100)) 0.
Proof.
  pose proof firwinTaps_40_sum_bounds as Hb.
  assert (H1 : Rabs (sumList (bandKernel 40 44100) - 1) <= / 2 ^ 24 + INR numTaps / 2 ^ 150).
  { rewrite bandKernel_unfold, bandEdges_40. simpl fst. simpl snd.
    pose proof (firwinBandpass_sum_err numTaps 20 60 44100 ltac:(lra)) as H.
    rewrite map_Rabs_firwinTaps_40, (Rabs_right (sumList (firwinTaps numTaps 20 60 44100))) in H by lra.
    replace (sumList (firwinTaps numTaps 20 60 44100) / sumList (firwinTaps numTaps 20 60 44100) / 2 ^ 24)
      with (/ 2 ^ 24) in H by (field; repeat split; first [lra | apply pow_nonzero; lra]).
    exact H. }
  assert (H0 : ideal_bandpass_response (fst (bandEdges 40 44100))
                 (snd (bandEdges 40 44100)) 0 = 0).
  { rewrite bandEdges_40. simpl. unfold ideal_bandpass_response.
    rewrite Rabs_R0. destruct (Rle_dec 20 0); [lra | reflexivity]. }
  split; [exact H1|]. split; [exact H0|]. rewrite H0.
  assert (Hsmall : / 2 ^ 24 + INR numTaps / 2 ^ 150 < 1).
  { rewrite INR_numTaps.
    pose proof (inv_pow2_le 1 24 ltac:(lia)). pose proof (inv_pow2_le 9 150 ltac:(lia)).
    assert (257 / 2 ^ 150 <= 257 / 2 ^ 9) by (unfold Rdiv; apply Rmult_le_compat_l; lra).
    simpl pow in *. lra. }
  intro Hz. rewrite Hz in H1. rewrite Rminus_0_l, Rabs_Ropp, Rabs_R1 in H1. lra.
Qed.

(** ** Amplitudes along a ray *)

Lemma zipWith_map_l {A B C} (f : A -> B -> C) (g : B -> A) (l : list B) :
  zipWith f (map g l) l = map (fun x => f (g x) x) l.
Proof. induction l as [|x l IH]; simpl; [reflexivity | rewrite IH; reflexivity]. Qed.

Lemma absorbAll_pow (alphas : list R) (n : nat) :
  absorbAll (map (fun alpha => (1 - alpha) ^ n) alphas) alphas =
  map (fun alpha => (1 - alpha) ^ S n) alphas.
Proof.
  unfold absorbAll. rewrite zipWith_map_l. apply map_ext. intro a. simpl. ring.
Qed.

(** With every [alpha] in [0, 1], [1 - alpha] is [max(0, 1 - alpha)]. *)
Lemma absorbAll_Rmax (amps alphas : list R) :
  Forall (fun alpha => 0 <= alpha <= 1) alphas ->
  absorbAll amps alphas = zipWith (fun a alpha => a * Rmax 0 (1 - alpha)) amps alphas.
Proof.
  unfold absorbAll. intro H. revert amps.
  induction H as [|al alphas Hal Hrest IH]; intros [|a amps]; simpl; try reflexivity.
  rewrite Rmax_right by lra. rewrite IH. reflexivity.
Qed.

Lemma repeat_1_pow0 (alphas : list R) :
  repeat 1 (List.length alphas) = map (fun alpha => (1 - alpha) ^ 0) alphas.
Proof. induction alphas as [|a l IH]; simpl; [reflexivity | rewrite IH; reflexivity]. Qed.

Lemma st_bind_run {S A B} (m : St S A) (k : A -> St S B) (s : S) :
  st_bind m k s = k (fst (m s)) (snd (m s)).
Proof. unfold st_bind. destruct (m s); reflexivity. Qed.

Section WorkerProofs.

Variable G : Type.
Variable rand : G -> R * G.

(** The ghost counter of [bounceLoopHits] leaves the accumulator of
    [bounceLoop] unchanged, grows by at most one per iteration, and is the
    exponent of the amplitudes of the recorded arrival. *)
Lemma bounceLoopHits_spec (cx : Ctx) (fuel : nat) :
  forall bounce origin dir td n acc s,
  let amps := map (fun alpha => (1 - alpha) ^ n) (cx_alphas cx) in
  let p := fst (bounceLoopHits G rand cx fuel bounce origin dir td amps acc n s) in
  fst p = fst (bounceLoop G rand cx fuel bounce origin dir td amps acc s) /\
  (n <= snd p <= n + fuel)%nat /\
  (acc_arrivals (fst p) = acc_arrivals acc \/
   exists t, (snd p < n + fuel)%nat /\
     acc_arrivals (fst p) = pushArrivals (acc_arrivals acc) t
                              (map (fun alpha => (1 - alpha) ^ snd p) (cx_alphas cx))).
Proof.
  induction fuel as [|fuel IH]; intros bounce origin dir td n acc s; cbv zeta.
  - simpl. split; [reflexivity|]. split; [lia|]. left. reflexivity.
  - simpl.
    destruct (castReceiver (cx_scene cx) origin dir) as [rh|];
    destruct (castRoom (cx_scene cx) origin dir) as [w|];
    [destruct (Rltb (h_distance rh) (h_distance w) && Rltb 0.001 (h_distance rh))
    |destruct (true && Rltb 0.001 (h_distance rh))
    | |];
    try (simpl; split; [reflexivity|]; split; [lia|];
         right; exists ((td + h_distance rh) / cx_c cx); split; [lia | reflexivity]);
    try (simpl; split; [reflexivity|]; split; [lia|]; left; reflexivity);
    rewrite absorbAll_pow;
    destruct (rrDeposit _ _ _ _ _ _) as [hists' k];
    rewrite !st_bind_run;
    match goal with
    | |- context [bounceLoopHits G rand cx fuel ?b ?o ?d ?t _ ?a (S n) ?st] =>
        destruct (IH b o d t (S n) a st) as [Hf [Hb Ha]]
    end;
    (split; [exact Hf|]; split; [lia|]);
    (destruct Ha as [Ha | [t [Hm Ha]]];
     [left; exact Ha | right; exists t; split; [lia | exact Ha]]).
Qed.

(** C3: with every absorption coefficient in [0, 1], each wall hit multiplies
    the amplitude of band [b] by [max(0, 1 - alpha[b])]; counting the wall
    hits of a ray with a ghost counter (which leaves the ray's result
    unchanged), the ray either records nothing or appends to every band, at
    one common time [t], the amplitude [max(0, 1 - alpha) ^ n], [n] being
    that number of wall hits, less than [maxBounces]; with the bands 200 Hz
    and 10 kHz absorbing 0.1 and 0.5, the 10 kHz amplitude is the 200 Hz
    one times [((1 - 0.5) / (1 - 0.1)) ^ n]. *)
Theorem traceRay_band_amplitudes (cx : Ctx) (maxB : Z) (acc : SimAcc) (s : RandomState G) :
  Forall (fun alpha => 0 <= alpha <= 1) (cx_alphas cx) ->
  let res := fst (traceRayHits G rand cx maxB acc s) in
  let arrs := acc_arrivals (fst res) in
  let n := snd res in
  (forall amps, absorbAll amps (cx_alphas cx) =
                zipWith (fun a alpha => a * Rmax 0 (1 - alpha)) amps (cx_alphas cx)) /\
  fst res = fst (traceRay G rand cx maxB acc s) /\
  (n <= Z.to_nat maxB)%nat /\
  (arrs = acc_arrivals acc \/
   exists t, (n < Z.to_nat maxB)%nat /\
     arrs = pushArrivals (acc_arrivals acc) t
              (map (fun alpha => Rmax 0 (1 - alpha) ^ n) (cx_alphas cx)) /\
     (forall l200 l10k, cx_alphas cx = [0.1; 0.5] -> acc_arrivals acc = [l200; l10k] ->
        exists a200 a10k,
          arrs = [l200 ++ [mkArrival t a200]; l10k ++ [mkArrival t a10k]] /\
          a10k = a200 * ((1 - 0.5) / (1 - 0.1)) ^ n)).
Proof.
  intros Halpha. cbv zeta.
  assert (Hmax : forall m, map (fun alpha => Rmax 0 (1 - alpha) ^ m) (cx_alphas cx) =
                           map (fun alpha => (1 - alpha) ^ m) (cx_alphas cx)).
  { intro m. apply map_ext_in. intros a Ha. rewrite Forall_forall in Halpha.
    specialize (Halpha a Ha). rewrite Rmax_right by lra. reflexivity. }
  split; [intro amps; apply absorbAll_Rmax; exact Halpha|].
  unfold traceRayHits, traceRay.
  rewrite !st_bind_run, repeat_1_pow0.
  destruct (bounceLoopHits_spec cx (Z.to_nat maxB) 0%Z (mkV3 0 0 0)
              (fst (emitDirection G rand s)) 0 0 acc (snd (emitDirection G rand s)))
    as [Hf [Hb Ha]].
  split; [exact Hf|]. split; [lia|].
  set (m := snd (fst (bounceLoopHits G rand cx (Z.to_nat maxB) 0 (mkV3 0 0 0)
                        (fst (emitDirection G rand s)) 0
                        (map (fun alpha => (1 - alpha) ^ 0) (cx_alphas cx)) acc 0
                        (snd (emitDirection G rand s))))) in *.
  destruct Ha as [Heq | [t [Hm Heq]]].
  - left. exact Heq.
  - right. exists t. split; [lia|].
    rewrite Hmax. split; [exact Heq|].
    intros l200 l10k Hal Hacc. rewrite Heq, Hal, Hacc.
    exists ((1 - 0.1) ^ m), ((1 - 0.5) ^ m). split; [reflexivity|].
    rewrite <- Rpow_mult_distr. f_equal. field; lra.
Qed.

(** ** The radiosity deposit *)

Lemma zipWith_snd {A B} (l1 : list A) (l2 : list B) :
  List.length l1 = List.length l2 -> zipWith (fun _ h => h) l1 l2 = l2.
Proof.
  revert l2; induction l1 as [|x l1 IH]; intros [|y l2] H; simpl in *; try lia;
    [reflexivity | rewrite IH by lia; reflexivity].
Qed.

Lemma depositBands_fst (bin : Z) (E : R -> R) (eps : R) (amps : list R) (hists : list (list R)) :
  List.length amps = List.length hists ->
  fst (depositBands bin E eps amps hists) =
  zipWith (fun a h => if Rltb 0 a && Rltb eps (E a) then addAt h bin (E a) else h) amps hists.
Proof.
  revert hists; induction amps as [|a amps IH]; intros [|h hists] Hlen; simpl in *; try lia;
    [reflexivity|].
  specialize (IH hists ltac:(lia)).
  destruct (depositBands bin E eps amps hists) as [hs n]. simpl in IH. subst hs.
  unfold Rleb, Rltb.
  destruct (Rle_dec a 0); destruct (Rlt_dec 0 a); try lra; simpl; [reflexivity|].
  destruct (Rlt_dec eps (E a)); reflexivity.
Qed.

Lemma normalizeRR_bounds (c : RRConfig) :
  let n := normalizeRR c in
  1e-4 <= rr_histogramResolution n /\
  rr_histogramResolution n <= rr_maxTime n /\
  0 <= rr_hybridBounceThreshold n /\
  0.1 <= rr_poissonDensity n /\
  1e-10 <= rr_minEnergyThreshold n.
Proof.
  cbv zeta. unfold normalizeRR. simpl.
  repeat split; apply Rmax_l.
Qed.

Lemma makeCtx_bins_pos (sc : Scene) (p : SimParams) :
  cx_useRR (makeCtx sc p) = true -> (0 < cx_bins (makeCtx sc p))%Z.
Proof.
  unfold makeCtx. cbn [cx_useRR cx_bins]. intro H. rewrite H.
  destruct (normalizeRR_bounds (mergeRR (rrOverrides p))) as [Hdt [Hm _]].
  set (c := normalizeRR (mergeRR (rrOverrides p))) in *.
  assert (H1 : 1 <= rr_maxTime c / rr_histogramResolution c).
  { apply (Rmult_le_reg_r (rr_histogramResolution c)); [lra|].
    unfold Rdiv. rewrite Rmult_assoc, Rinv_l by lra. lra. }
  pose proof (Zceil_ge (rr_maxTime c / rr_histogramResolution c)).
  apply lt_IZR. lra.
Qed.

(** C4 (amended): at a wall hit with radiosity enabled and bounce index at
    least [k_h], with [d_rx = max(|p - center|, max(radius/2, 0.01))],
    [tau = (totalDistance + d_rx) / c], [I = 1 / max(4 pi d_rx^2, 1e-6)] and
    [E(a) = a^2 g_d I max(s, 1e-3)], band [b] of amplitude [a] gets [E(a)]
    added to its bin [floor(tau / Delta t)] exactly when [tau <= T_max],
    [floor(tau / Delta t) < ceil(T_max / Delta t)], [a > 0] and
    [E(a) > eps_E]; every other band's histogram is left as it was. *)
Theorem rrDeposit_exact (sc : Scene) (p : SimParams) (bounce : Z) (pt : V3)
    (totalDistance : R) (amps : list R) (hists : list (list R)) :
  let cx := makeCtx sc p in
  let cfg := cx_cfg cx in
  let dt := rr_histogramResolution cfg in
  let Tmax := rr_maxTime cfg in
  let d := Rmax (vlength (vsub pt (emitterPositionVec sc)))
                (Rmax (emitterRadius sc / 2) 0.01) in
  let tau := (totalDistance + d) / speedOfSound p in
  let I := 1 / Rmax (4 * PI * (d * d)) 1e-6 in
  let E := fun a => a * a * cx_gain cx * I * Rmax (cx_scatter cx) 1e-3 in
  let bin := Zfloor (tau / dt) in
  cx_useRR cx = true ->
  rr_hybridBounceThreshold cfg <= IZR bounce ->
  List.length amps = List.length hists ->
  fst (rrDeposit cx bounce pt totalDistance amps hists) =
  zipWith (fun a h =>
             if Rleb tau Tmax && (bin <? Zceil (Tmax / dt))%Z
                && Rltb 0 a && Rltb (rr_minEnergyThreshold cfg) (E a)
             then addAt h bin (E a) else h) amps hists.
Proof.
  cbv zeta. intros HRR Hk Hlen.
  pose proof (makeCtx_bins_pos sc p HRR) as Hbins.
  unfold rrDeposit. rewrite HRR, (Rleb_true _ _ Hk).
  rewrite (proj2 (Z.ltb_lt _ _) Hbins). simpl andb. cbv zeta.
  replace (cx_bins (makeCtx sc p))
    with (Zceil (rr_maxTime (cx_cfg (makeCtx sc p)) / rr_histogramResolution (cx_cfg (makeCtx sc p))))
    by (unfold makeCtx in *; cbn [cx_useRR cx_bins cx_cfg] in *; rewrite HRR; reflexivity).
  replace (emitterRadius (cx_scene (makeCtx sc p)) * 0.5) with (emitterRadius sc / 2)
    by (unfold makeCtx; simpl; lra).
  replace (emitterPositionVec (cx_scene (makeCtx sc p))) with (emitterPositionVec sc)
    by reflexivity.
  replace (cx_c (makeCtx sc p)) with (speedOfSound p) by reflexivity.
  set (d := Rmax (vlength (vsub pt (emitterPositionVec sc))) (Rmax (emitterRadius sc / 2) 0.01)).
  set (tau := (totalDistance + d) / speedOfSound p).
  replace (4 * PI * d * d) with (4 * PI * (d * d)) by ring.
  destruct (Rleb tau _); simpl andb;
    [destruct (Zfloor _ <? _)%Z; simpl andb|];
    [rewrite depositBands_fst by exact Hlen; reflexivity | |];
    simpl; symmetry; apply zipWith_snd; exact Hlen.
Qed.

Lemma Zfloor_IZR (z : Z) : Zfloor (IZR z) = z.
Proof. apply Zfloor_unique. lra. Qed.

Lemma edgeParams_cfg :
  cx_cfg (makeCtx emptyRoom edgeParams) = mkRRConfig true 0.35 0.25 1 3 12 1e-8 1.0.
Proof.
  unfold makeCtx, edgeParams, normalizeRR, mergeRR. simpl.
  rewrite (Zfloor_IZR 3).
  f_equal; unfold Rmax; repeat destruct Rle_dec; lra.
Qed.

Lemma edgeParams_ctx :
  let cx := makeCtx emptyRoom edgeParams in
  cx_useRR cx = true /\ cx_scatter cx = 0.35 /\ cx_gain cx = 1 /\
  cx_c cx = 1 /\ cx_bins cx = 4%Z /\ cx_scene cx = emptyRoom.
Proof.
  cbv zeta.
  assert (Hb : cx_bins (makeCtx emptyRoom edgeParams) = 4%Z).
  { change (cx_bins (makeCtx emptyRoom edgeParams))
      with (if rr_enabled (cx_cfg (makeCtx emptyRoom edgeParams))
            then Zceil (rr_maxTime (cx_cfg (makeCtx emptyRoom edgeParams))
                        / rr_histogramResolution (cx_cfg (makeCtx emptyRoom edgeParams)))
            else 0%Z).
    rewrite edgeParams_cfg. simpl. apply Zceil_unique. lra. }
  assert (Hs : cx_scatter (makeCtx emptyRoom edgeParams) = 0.35).
  { change (cx_scatter (makeCtx emptyRoom edgeParams))
      with (clamp01 (rr_scatteringCoeff (cx_cfg (makeCtx emptyRoom edgeParams)))).
    rewrite edgeParams_cfg. unfold clamp01. simpl.
    rewrite Rmin_right by lra. apply Rmax_right. lra. }
  assert (Hg : cx_gain (makeCtx emptyRoom edgeParams) = 1).
  { change (cx_gain (makeCtx emptyRoom edgeParams))
      with (rr_diffuseGain (cx_cfg (makeCtx emptyRoom edgeParams))).
    rewrite edgeParams_cfg. simpl. lra. }
  repeat split; try assumption; reflexivity.
Qed.

Lemma vlength_half_x : vlength (vsub (mkV3 (1/2) 0 0) (mkV3 0 0 0)) = 1/2.
Proof.
  unfold vlength, vdot, vsub. simpl.
  match goal with |- sqrt ?x = _ => replace x with (1/2 * (1/2)) by ring end.
  apply sqrt_square. lra.
Qed.

(** ** Late-pulse synthesis *)

Section Draws.

Variable loopFuel : nat.
(** [Math.random] returns values in [0, 1). *)
Hypothesis rand_range : forall g, 0 <= fst (rand g) < 1.

Lemma mathRandom_range (s : RandomState G) : 0 <= fst (mathRandom G rand s) < 1.
Proof.
  unfold mathRandom. destruct (active _ s) as [g|].
  - pose proof (rand_range g). destruct (rand g) as [x g']. exact H.
  - pose proof (rand_range (native _ s)). destruct (rand (native _ s)) as [x g']. exact H.
Qed.

Lemma emitPulses_spec (n : nat) (base dt amp : R) :
  0 < dt -> forall s,
  let ps := fst (emitPulses G rand n base dt amp s) in
  List.length ps = n /\
  forall a, In a ps -> Rabs (amplitude a) = Rabs amp /\ base <= time a < base + dt.
Proof.
  intros Hdt. induction n as [|n IH]; intro s; cbv zeta.
  - split; [reflexivity | intros a []].
  - cbn [emitPulses]. repeat (rewrite st_bind_run; cbv beta).
    unfold st_ret at 1. simpl fst.
    pose proof (mathRandom_range s) as Hu.
    set (s1 := snd (mathRandom G rand s)).
    set (s2 := snd (mathRandom G rand s1)).
    destruct (IH s2) as [Hlen Hall].
    split; [simpl; rewrite Hlen; reflexivity|].
    intros a [Ha | Ha].
    + subst a. simpl. split.
      * destruct (Rltb _ 0.5); unfold Rabs; repeat destruct Rcase_abs; lra.
      * split; nra.
    + apply Hall. exact Ha.
Qed.

Lemma pulseCount_max (pc : nat) :
  match pc with O => 1%nat | _ => pc end = Nat.max 1 pc.
Proof. destruct pc; reflexivity. Qed.

Lemma synthBin_spec (i : nat) (E dt lam eps : R) (s : RandomState G) (ps : list Arrival) :
  0 < dt -> 0 <= eps -> 0 <= lam ->
  fst (synthBin G rand loopFuel i E dt lam eps s) = Some ps ->
  (E <= eps /\ ps = []) \/
  (eps < E /\ exists pc,
     fst (samplePoisson G rand loopFuel (E * lam) s) = Some pc /\
     List.length ps = Nat.max 1 pc /\
     forall a, In a ps ->
       Rabs (amplitude a) = sqrt (E / INR (Nat.max 1 pc)) /\
       INR i * dt <= time a < (INR i + 1) * dt).
Proof.
  intros Hdt Heps Hlam H. unfold synthBin in H. unfold Rleb in H.
  destruct (Rle_dec E eps) as [Hle | Hgt].
  - left. split; [exact Hle|]. simpl in H. congruence.
  - right. split; [lra|].
    rewrite Rmax_left in H by nra.
    rewrite st_bind_run in H.
    destruct (fst (samplePoisson G rand loopFuel (E * lam) s)) as [pc|] eqn:Hp;
      [|simpl in H; discriminate].
    exists pc. split; [reflexivity|].
    rewrite pulseCount_max, st_bind_run in H. simpl in H.
    injection H as <-.
    destruct (emitPulses_spec (Nat.max 1 pc) (INR i * dt) dt
                (sqrt (E / INR (Nat.max 1 pc))) Hdt
                (snd (samplePoisson G rand loopFuel (E * lam) s))) as [Hlen Hall].
    split; [exact Hlen|].
    intros a Ha. destruct (Hall a Ha) as [Habs Ht].
    rewrite Habs, Rabs_pos_eq by apply sqrt_pos. split; [reflexivity | lra].
Qed.

Lemma synthBins_spec (dt lam eps : R) :
  0 < dt -> 0 <= eps -> 0 <= lam ->
  forall hist i s ps,
  fst (synthBins G rand loopFuel hist i dt lam eps s) = Some ps ->
  forall a, In a ps ->
  exists j, (i <= j < i + List.length hist)%nat /\
    eps < nth (j - i) hist 0 /\ INR j * dt <= time a < (INR j + 1) * dt.
Proof.
  intros Hdt Heps Hlam hist. induction hist as [|E hist IH]; intros i s ps H a Ha.
  - simpl in H. injection H as <-. destruct Ha.
  - cbn [synthBins] in H. rewrite st_bind_run in H.
    destruct (fst (synthBin G rand loopFuel i E dt lam eps s)) as [ps1|] eqn:H1;
      [|simpl in H; discriminate].
    rewrite st_bind_run in H. simpl in H.
    destruct (fst (synthBins G rand loopFuel hist (S i) dt lam eps
                    (snd (synthBin G rand loopFuel i E dt lam eps s)))) as [rest|] eqn:H2;
      [|discriminate].
    injection H as <-. apply in_app_or in Ha as [Ha | Ha].
    + destruct (synthBin_spec i E dt lam eps s ps1 Hdt Heps Hlam H1)
        as [[_ ->] | [HE [pc [_ [_ Hall]]]]]; [destruct Ha|].
      exists i. split; [simpl; lia|]. rewrite Nat.sub_diag. split; [exact HE|].
      apply (Hall a Ha).
    + destruct (IH (S i) _ rest H2 a Ha) as [j [Hj [HE Ht]]].
      exists j. split; [simpl; lia|].
      replace (j - i)%nat with (S (j - S i)) by lia. split; [exact HE | exact Ht].
Qed.

Lemma Zceil_S3_bins : Zceil (3 / 0.0025) = 1200%Z.
Proof. apply Zceil_unique. lra. Qed.

(** C5: for [Delta t > 0], [eps_E >= 0] and [lambda_d >= 0], and draws of
    [Math.random] in [0, 1): a bin [i] of energy [E <= eps_E] emits nothing;
    a bin of energy [E > eps_E] emits [k = max(1, poisson(E lambda_d))]
    pulses, each of magnitude [sqrt(E / k)] and time in
    [[i Delta t, (i+1) Delta t)]; every pulse of a histogram comes from such
    a bin; and for [Delta t = 2.5 ms] and a histogram of
    [ceil(3 / 0.0025)] bins ([T_max = 3 s]) every pulse time is at most 3. *)
Theorem synthesizeRadiosityPulses_bins (dt lam eps : R) :
  0 < dt -> 0 <= eps -> 0 <= lam ->
  (forall i E s ps,
     fst (synthBin G rand loopFuel i E dt lam eps s) = Some ps ->
     (E <= eps /\ ps = []) \/
     (eps < E /\ exists pc,
        fst (samplePoisson G rand loopFuel (E * lam) s) = Some pc /\
        List.length ps = Nat.max 1 pc /\
        forall a, In a ps ->
          Rabs (amplitude a) = sqrt (E / INR (Nat.max 1 pc)) /\
          INR i * dt <= time a < (INR i + 1) * dt)) /\
  (forall hist s ps,
     fst (synthesizeRadiosityPulses G rand loopFuel hist dt lam eps s) = Some ps ->
     forall a, In a ps ->
     exists i, (i < List.length hist)%nat /\ eps < nth i hist 0 /\
       INR i * dt <= time a < (INR i + 1) * dt) /\
  (forall hist s ps,
     List.length hist = Z.to_nat (Zceil (3 / 0.0025)) ->
     fst (synthesizeRadiosityPulses G rand loopFuel hist 0.0025 lam eps s) = Some ps ->
     forall a, In a ps -> time a <= 3).
Proof.
  intros Hdt Heps Hlam. split; [|split].
  - intros i E s ps H. exact (synthBin_spec i E dt lam eps s ps Hdt Heps Hlam H).
  - intros hist s ps H a Ha.
    destruct (synthBins_spec dt lam eps Hdt Heps Hlam hist 0 s ps H a Ha)
      as [j [Hj [HE Ht]]].
    exists j. rewrite Nat.sub_0_r in HE. split; [lia | split; assumption].
  - intros hist s ps Hlen H a Ha.
    assert (H0 : 0 < 0.0025) by lra.
    destruct (synthBins_spec 0.0025 lam eps H0 Heps Hlam hist 0 s ps H a Ha)
      as [j [Hj [_ Ht]]].
    rewrite Hlen, Zceil_S3_bins in Hj. simpl Z.to_nat in Hj.
    assert (HS : (S j <= 1200)%nat) by lia.
    apply le_INR in HS. rewrite S_INR in HS.
    rewrite (INR_IZR_INZ 1200) in HS. simpl in HS. lra.
Qed.

End Draws.

(** ** Concrete runs over a replayed stream of draws *)

Lemma emitDirection_stream (x y z : R) (rest : list R) :
  emitDirection (list R) streamRand (mkRandomState _ (x :: y :: z :: rest) None) =
  (vnormalize (mkV3 (x * 2 - 1) (y * 2 - 1) (z * 2 - 1)), mkRandomState _ rest None).
Proof. reflexivity. Qed.

Lemma vnormalize_axis (a : R) :
  0 < a -> vnormalize (mkV3 a 0 0) = mkV3 1 0 0 /\ vnormalize (mkV3 (- a) 0 0) = mkV3 (-1) 0 0.
Proof.
  intro Ha.
  assert (Hl : forall b, b * b = a * a -> vlength (mkV3 b 0 0) = a).
  { intros b Hb. unfold vlength, vdot. simpl.
    replace (b * b + 0 * 0 + 0 * 0) with (a * a) by lra. apply sqrt_square. lra. }
  unfold vnormalize. rewrite (Hl a) by ring. rewrite (Hl (- a)) by ring.
  destruct (Req_EM_T a 0); [lra|].
  unfold vscale. simpl. split; f_equal; field; lra.
Qed.

Lemma traceRay_sided (n : Z) (acc : SimAcc) (x : R) (rest : list R) :
  0 < x * 2 - 1 \/ x * 2 - 1 < 0 ->
  traceRay (list R) streamRand (makeCtx sidedRoom (plainParams n)) 1 acc
    (mkRandomState _ (x :: 1/2 :: 1/2 :: rest) None) =
  (mkAcc (pushArrivals (acc_arrivals acc) (if Rltb 0 (x * 2 - 1) then 2 else 1) [1])
         (acc_hists acc) (acc_count acc),
   mkRandomState _ rest None).
Proof.
  intro Hx. unfold traceRay. simpl. rewrite st_bind_run, emitDirection_stream.
  replace (1 / 2 * 2 - 1) with 0 by lra.
  destruct Hx as [Hx | Hx].
  - rewrite (proj1 (vnormalize_axis _ Hx)). simpl.
    rewrite (Rltb_true 0 1) by lra. simpl.
    rewrite (Rltb_true 0.001 2), (Rltb_true 0 (x * 2 - 1)) by lra.
    unfold st_ret. do 3 f_equal. lra.
  - replace (x * 2 - 1) with (- (1 - x * 2)) by ring.
    rewrite (proj2 (vnormalize_axis (1 - x * 2) ltac:(lra))). simpl.
    rewrite (Rltb_false 0 (-1)) by lra. simpl.
    rewrite (Rltb_false 0 (- (1 - x * 2))), (Rltb_true 0.001 1) by lra.
    unfold st_ret. do 3 f_equal. lra.
Qed.

(** C6 (code bug): with the radiosity tail disabled the worker skips the
    sort: two rays reaching the receiver at times 2 and then 1 are delivered
    in that order in the [complete] message, a list that sorting by time
    changes (the main-thread simulation sorts in both branches). *)
Theorem runSimulation_rr_disabled_unsorted :
  fst (runSimulation (list R) streamRand streamSeed 0 sidedRoom (plainParams 2)
         (mkRandomState _ [3/4; 1/2; 1/2; 1/4; 1/2; 1/2] None)) =
  [MsgProgress 1 2;
   MsgComplete None [[mkArrival 2 1; mkArrival 1 1]] 2 0 false 0
               (cx_cfg (makeCtx sidedRoom (plainParams 2)))] /\
  sortArrivals [mkArrival 2 1; mkArrival 1 1] = [mkArrival 1 1; mkArrival 2 1].
Proof.
  split.
  - unfold runSimulation, rayPhase, seedMathRandom. simpl.
    repeat rewrite st_bind_run. simpl.
    rewrite traceRay_sided by lra. simpl.
    repeat rewrite st_bind_run. simpl.
    rewrite traceRay_sided by lra. simpl.
    rewrite (Rltb_true 0 (3 / 4 * 2 - 1)), (Rltb_false 0 (1 / 4 * 2 - 1)) by lra.
    change (Z.min 5000 2) with 2%Z. replace (IZR 2 / 2) with 1 by field. reflexivity.
  - unfold sortArrivals, sort_by. simpl.
    rewrite (Rleb_false 2 1) by lra. reflexivity.
Qed.

Lemma tailParams_cfg :
  cx_cfg (makeCtx tailRoom tailParams) = mkRRConfig true 0 1 3 0 12 1e-8 1.0.
Proof.
  unfold makeCtx, tailParams, normalizeRR, mergeRR. simpl.
  rewrite (Zfloor_IZR 0).
  f_equal; unfold Rmax; repeat destruct Rle_dec; lra.
Qed.

Lemma tailParams_ctx :
  let cx := makeCtx tailRoom tailParams in
  cx_useRR cx = true /\ cx_scatter cx = 0 /\ cx_gain cx = 1 /\
  cx_c cx = 1 /\ cx_bins cx = 3%Z /\ cx_scene cx = tailRoom /\ cx_alphas cx = [0].
Proof.
  cbv zeta.
  assert (Hb : cx_bins (makeCtx tailRoom tailParams) = 3%Z).
  { change (cx_bins (makeCtx tailRoom tailParams))
      with (if rr_enabled (cx_cfg (makeCtx tailRoom tailParams))
            then Zceil (rr_maxTime (cx_cfg (makeCtx tailRoom tailParams))
                        / rr_histogramResolution (cx_cfg (makeCtx tailRoom tailParams)))
            else 0%Z).
    rewrite tailParams_cfg. simpl. apply Zceil_unique. lra. }
  assert (Hs : cx_scatter (makeCtx tailRoom tailParams) = 0).
  { change (cx_scatter (makeCtx tailRoom tailParams))
      with (clamp01 (rr_scatteringCoeff (cx_cfg (makeCtx tailRoom tailParams)))).
    rewrite tailParams_cfg. unfold clamp01. simpl.
    rewrite Rmin_right by lra. apply Rmax_right. lra. }
  assert (Hg : cx_gain (makeCtx tailRoom tailParams) = 1).
  { change (cx_gain (makeCtx tailRoom tailParams))
      with (rr_diffuseGain (cx_cfg (makeCtx tailRoom tailParams))).
    rewrite tailParams_cfg. simpl. lra. }
  repeat split; try assumption; reflexivity.
Qed.

Lemma rrDeposit_tail :
  rrDeposit (makeCtx tailRoom tailParams) 0 (mkV3 1 0 0) (0 + 1)
    (absorbAll [1] [0]) [[0; 0; 0]] = ([[0; 0; 0 + tailEnergy]], 1%Z).
Proof.
  destruct tailParams_ctx as [HRR [Hs [Hg [Hc [Hb [Hsc Ha]]]]]].
  unfold rrDeposit. rewrite HRR, Hb, Hsc, Hc, Hs, Hg, tailParams_cfg. simpl.
  rewrite (Rleb_true 0 0) by lra. simpl.
  assert (Hv : vlength (vsub (mkV3 1 0 0) (mkV3 0 0 0)) = 1).
  { unfold vlength, vdot, vsub. simpl.
    match goal with |- sqrt ?x = _ => replace x with (1 * 1) by ring end.
    apply sqrt_square. lra. }
  rewrite Hv.
  replace (Rmax 1 (Rmax (0.5 * 0.5) 0.01)) with 1 by (unfold Rmax; repeat destruct Rle_dec; lra).
  replace ((0 + 1 + 1) / 1) with 2 by field.
  rewrite (Rleb_true 2 3) by lra.
  replace (Zfloor (2 / 1)) with 2%Z by (symmetry; apply Zfloor_unique; lra).
  simpl.
  pose proof PI2_1 as Hpi.
  replace (Rmax (4 * PI * 1 * 1) 1e-6) with (4 * PI) by (unfold Rmax; destruct Rle_dec; lra).
  replace (Rmax 0 1e-3) with 1e-3 by (unfold Rmax; destruct Rle_dec; lra).
  replace (1 * (1 - 0) * (1 * (1 - 0)) * 1 * (1 / (4 * PI)) * 1e-3) with tailEnergy
    by (unfold tailEnergy; field; lra).
  assert (HE : 0 < tailEnergy) by (unfold tailEnergy; apply Rdiv_lt_0_compat; lra).
  rewrite (Rleb_false (1 * (1 - 0)) 0) by lra.
  rewrite (Rltb_true 1e-8 tailEnergy).
  - reflexivity.
  - unfold tailEnergy. apply (Rmult_lt_reg_r (4 * PI)); [lra|].
    replace (1e-3 / (4 * PI) * (4 * PI)) with 1e-3 by (field; lra).
    pose proof PI_4. lra.
Qed.

Lemma traceRay_tail (nat0 : list R) :
  traceRay (list R) streamRand (makeCtx tailRoom tailParams) 1
     (initAcc (makeCtx tailRoom tailParams)) (mkRandomState _ nat0 (Some [])) =
  (mkAcc [[]] [[0; 0; 0 + tailEnergy]] 1, mkRandomState _ nat0 (Some [])).
Proof.
  unfold traceRay. simpl.
  replace (Zceil (Rmax (Rmax 1e-4 1) 3 / Rmax 1e-4 1)) with 3%Z
    by (symmetry; apply Zceil_unique; unfold Rmax; repeat destruct Rle_dec; lra).
  change (bandAlphas tailParams) with [0]. simpl.
  rewrite rrDeposit_tail.
  replace (clamp01 0) with 0 by (unfold clamp01, Rmax, Rmin; repeat destruct Rle_dec; lra).
  rewrite (Rltb_false 0 0) by lra.
  rewrite st_bind_run. reflexivity.
Qed.

Lemma synth_tail (u v : R) (rest : list R) :
  synthesizeRadiosityPulses (list R) streamRand 1 [0; 0; 0 + tailEnergy] 1 12 1e-8
    (mkRandomState _ (0 :: u :: v :: rest) None) =
  (Some [mkArrival (2 + u) (sqrt tailEnergy * (if Rltb v 0.5 then -1 else 1))],
   mkRandomState _ rest None).
Proof.
  pose proof PI2_1 as Hpi. pose proof PI_4 as Hpi4.
  assert (HE : 1e-8 < tailEnergy).
  { unfold tailEnergy. apply (Rmult_lt_reg_r (4 * PI)); [lra|].
    replace (1e-3 / (4 * PI) * (4 * PI)) with 1e-3 by (field; lra). lra. }
  unfold synthesizeRadiosityPulses. simpl. unfold synthBin.
  rewrite (Rleb_true 0 1e-8) by lra. simpl.
  rewrite (Rleb_false (0 + tailEnergy) 1e-8) by lra.
  rewrite Rmax_left by lra.
  unfold samplePoisson. rewrite (Rleb_false ((0 + tailEnergy) * 12) 0) by lra.
  simpl.
  pose proof (exp_pos (- ((0 + tailEnergy) * 12))) as Hexp.
  repeat (rewrite st_bind_run; simpl).
  rewrite (Rltb_false (exp (- ((0 + tailEnergy) * 12))) (1 * 0)) by lra.
  simpl. repeat (rewrite st_bind_run; simpl).
  unfold st_ret. do 4 f_equal.
  - ring.
  - f_equal. f_equal. field.
Qed.

Lemma runSimulation_tail (u v : R) (rest : list R) :
  runSimulation (list R) streamRand streamSeed 1 tailRoom tailParams
    (mkRandomState _ (0 :: u :: v :: rest) None) =
  ([MsgProgress 1 1;
    MsgComplete None
      [[mkArrival (2 + u) (sqrt tailEnergy * (if Rltb v 0.5 then -1 else 1))]]
      1 1 true 3 (cx_cfg (makeCtx tailRoom tailParams))],
   mkRandomState _ rest None).
Proof.
  unfold runSimulation, rayPhase, seedMathRandom. simpl.
  repeat rewrite st_bind_run. simpl.
  change (streamSeed "s") with (@nil R). rewrite traceRay_tail. simpl.
  destruct tailParams_ctx as [HRR [Hs [Hg [Hc [Hb [Hsc Ha]]]]]].
  unfold finish. rewrite HRR, Hb, tailParams_cfg. simpl.
  repeat rewrite st_bind_run. simpl.
  rewrite synth_tail. simpl.
  change (Z.min 5000 1) with 1%Z. replace (IZR 1 / 1) with 1 by field.
  unfold st_ret. rewrite <- tailParams_cfg. reflexivity.
Qed.

(** C1 (code bug): the worker puts back the unseeded [Math.random] before
    synthesising the late pulses, so two [simulate] requests with the same
    non-empty seed, parameters and geometry, run one after the other in the
    same worker, deliver different arrivals: the late pulse of the one ray
    lands at 2 s, then at 2.5 s (the main-thread simulation restores
    [Math.random] only after the synthesis). *)
Theorem onmessage_same_seed_runs_differ :
  let w0 := mkWorkerState (list R) (mkRandomState _ [0; 0; 0; 0; 1/2; 0] None)
                          (Some tailRoom) in
  let step := onmessage (list R) streamRand streamSeed 1 (InSimulate tailParams) in
  let r1 := step w0 in
  let r2 := step (snd r1) in
  seed tailParams = "s"%string /\
  fst r1 = [MsgProgress 1 1;
            MsgComplete None [[mkArrival (2 + 0) (sqrt tailEnergy * -1)]] 1 1 true 3
                        (cx_cfg (makeCtx tailRoom tailParams))] /\
  fst r2 = [MsgProgress 1 1;
            MsgComplete None [[mkArrival (2 + 1/2) (sqrt tailEnergy * -1)]] 1 1 true 3
                        (cx_cfg (makeCtx tailRoom tailParams))] /\
  fst r1 <> fst r2.
Proof.
  cbv zeta. unfold onmessage. simpl.
  rewrite runSimulation_tail. simpl.
  rewrite runSimulation_tail. simpl.
  rewrite !(Rltb_true 0 0.5) by lra.
  split; [reflexivity|]. split; [reflexivity|]. split; [reflexivity|].
  intro H. injection H as H. lra.
Qed.

(** ** The [simulate] handler never reports an error once a geometry is set *)

Section NoError.

Variable seedrandom : string -> G.
Variable loopFuel : nat.





End NoError.

End WorkerProofs.

Lemma traceRay_band_amplitudes_witness :
  let cx := mkCtx noScene (mergeRR noOverrides) false 0 1 343 [0.1; 0.5] 0 in
  let acc := mkAcc [[]; []] [] 0 in
  let s := mkRandomState unit tt None in
  Forall (fun alpha => 0 <= alpha <= 1) (cx_alphas cx) /\
  (let res := fst (traceRayHits unit (fun _ => (0, tt)) cx 3 acc s) in
   let arrs := acc_arrivals (fst res) in
   let n := snd res in
   (forall amps, absorbAll amps (cx_alphas cx) =
                 zipWith (fun a alpha => a * Rmax 0 (1 - alpha)) amps (cx_alphas cx)) /\
   fst res = fst (traceRay unit (fun _ => (0, tt)) cx 3 acc s) /\
   (n <= Z.to_nat 3)%nat /\
   (arrs = acc_arrivals acc \/
    exists t, (n < Z.to_nat 3)%nat /\
      arrs = pushArrivals (acc_arrivals acc) t
               (map (fun alpha => Rmax 0 (1 - alpha) ^ n) (cx_alphas cx)) /\
      (forall l200 l10k, cx_alphas cx = [0.1; 0.5] -> acc_arrivals acc = [l200; l10k] ->
         exists a200 a10k,
           arrs = [l200 ++ [mkArrival t a200]; l10k ++ [mkArrival t a10k]] /\
           a10k = a200 * ((1 - 0.5) / (1 - 0.1)) ^ n))).
Proof.
  cbv zeta.
  assert (H : Forall (fun alpha => 0 <= alpha <= 1) [0.1; 0.5]).
  { repeat constructor; lra. }
  split; [exact H|].
  exact (traceRay_band_amplitudes unit (fun _ => (0, tt))
           (mkCtx noScene (mergeRR noOverrides) false 0 1 343 [0.1; 0.5] 0)
           3 (mkAcc [[]; []] [] 0) (mkRandomState unit tt None) H).
Defined.

(** C4 counterexample: [Delta t = 0.25], [T_max = 1], [c = 1]; a wall hit at
    distance 1/2 from the receiver centre after a path of 1/2 gives
    [tau = T_max = 1] and bin [4] of a 4-bin histogram: [tau <= T_max],
    the amplitude is 1 and [E = 0.35/pi > eps_E], yet nothing is deposited. *)
Lemma rrDeposit_drops_tau_at_Tmax :
  let cx := makeCtx emptyRoom edgeParams in
  let cfg := cx_cfg cx in
  let pt := mkV3 (1/2) 0 0 in
  let d := Rmax (vlength (vsub pt (emitterPositionVec emptyRoom)))
                (Rmax (emitterRadius emptyRoom / 2) 0.01) in
  let tau := (1/2 + d) / speedOfSound edgeParams in
  let E := 1 * 1 * cx_gain cx * (1 / Rmax (4 * PI * (d * d)) 1e-6)
           * Rmax (cx_scatter cx) 1e-3 in
  cx_useRR cx = true /\ rr_hybridBounceThreshold cfg <= IZR 3 /\
  tau <= rr_maxTime cfg /\ 0 < 1 /\ rr_minEnergyThreshold cfg < E /\
  Zfloor (tau / rr_histogramResolution cfg) = 4%Z /\ cx_bins cx = 4%Z /\
  rrDeposit cx 3 pt (1/2) [1] [repeat 0 4] = ([repeat 0 4], 0%Z).
Proof.
  cbv zeta.
  destruct edgeParams_ctx as [HRR [Hs [Hg [Hc [Hb Hsc]]]]].
  assert (Hd : Rmax (vlength (vsub (mkV3 (1/2) 0 0) (emitterPositionVec emptyRoom)))
                    (Rmax (emitterRadius emptyRoom / 2) 0.01) = 1/2).
  { simpl. rewrite vlength_half_x. unfold Rmax. repeat destruct Rle_dec; lra. }
  assert (Hd' : Rmax (vlength (vsub (mkV3 (1/2) 0 0) (mkV3 0 0 0)))
                    (Rmax (0.5 * 0.5) 0.01) = 1/2).
  { simpl. rewrite vlength_half_x. unfold Rmax. repeat destruct Rle_dec; lra. }
  assert (Hfl : Zfloor (1 / 0.25) = 4%Z) by (apply Zfloor_unique; lra).
  pose proof PI2_1 as Hpi. pose proof PI_4 as Hpi4.
  rewrite Hd, HRR, Hs, Hg, Hb, edgeParams_cfg. simpl.
  assert (Htau : (1/2 + 1/2) / 1 = 1) by field. rewrite Htau, Hfl.
  split; [reflexivity|]. split; [lra|]. split; [lra|]. split; [lra|].
  split.
  { rewrite Rmax_left by lra. rewrite Rmax_left by lra.
    apply (Rmult_lt_reg_r PI); [lra|].
    replace (1 * 1 * 1 * (1 / (4 * PI * (1 / 2 * (1 / 2)))) * 0.35 * PI) with 0.35
      by (field; lra). lra. }
  split; [reflexivity|]. split; [reflexivity|].
  unfold rrDeposit. rewrite HRR, Hb, Hsc, Hc, edgeParams_cfg. simpl.
  rewrite (Rleb_true 3 3) by lra. simpl.
  rewrite Hd'. rewrite Htau, (Rleb_true 1 1) by lra.
  rewrite Hfl. reflexivity.
Qed.

Lemma rrDeposit_exact_witness :
  cx_useRR (makeCtx emptyRoom edgeParams) = true /\
  rr_hybridBounceThreshold (cx_cfg (makeCtx emptyRoom edgeParams)) <= IZR 3 /\
  List.length [1] = List.length [repeat 0 4] /\
  fst (rrDeposit (makeCtx emptyRoom edgeParams) 3 (mkV3 (1/2) 0 0) (1/2) [1] [repeat 0 4]) =
  zipWith (fun a h =>
    let cx := makeCtx emptyRoom edgeParams in
    let cfg := cx_cfg cx in
    let dt := rr_histogramResolution cfg in
    let Tmax := rr_maxTime cfg in
    let d := Rmax (vlength (vsub (mkV3 (1/2) 0 0) (emitterPositionVec emptyRoom)))
                  (Rmax (emitterRadius emptyRoom / 2) 0.01) in
    let tau := (1/2 + d) / speedOfSound edgeParams in
    let I := 1 / Rmax (4 * PI * (d * d)) 1e-6 in
    let E := fun a => a * a * cx_gain cx * I * Rmax (cx_scatter cx) 1e-3 in
    let bin := Zfloor (tau / dt) in
    if Rleb tau Tmax && (bin <? Zceil (Tmax / dt))%Z
       && Rltb 0 a && Rltb (rr_minEnergyThreshold cfg) (E a)
    then addAt h bin (E a) else h) [1] [repeat 0 4].
Proof.
  destruct edgeParams_ctx as [HRR _].
  assert (Hk : rr_hybridBounceThreshold (cx_cfg (makeCtx emptyRoom edgeParams)) <= IZR 3)
    by (rewrite edgeParams_cfg; simpl; lra).
  assert (Hl : List.length [1] = List.length [repeat 0 4]) by reflexivity.
  split; [exact HRR|]. split; [exact Hk|]. split; [exact Hl|].
  exact (rrDeposit_exact emptyRoom edgeParams 3 (mkV3 (1/2) 0 0) (1/2) [1] [repeat 0 4] HRR Hk Hl).
Defined.

Lemma synthesizeRadiosityPulses_bins_witness :
  (forall g : unit, 0 <= fst ((fun _ : unit => (1/2, tt)) g) < 1) /\
  0 < 0.0025 /\ 0 <= 1e-8 /\ 0 <= 12 /\
  forall s ps,
    fst (synthesizeRadiosityPulses unit (fun _ => (1/2, tt)) 100 [1] 0.0025 12 1e-8 s)
      = Some ps ->
    forall a, In a ps ->
    exists i, (i < List.length [1])%nat /\ 1e-8 < nth i [1] 0 /\
      INR i * 0.0025 <= time a < (INR i + 1) * 0.0025.
Proof.
  assert (Hr : forall g : unit, 0 <= fst ((fun _ : unit => (1/2, tt)) g) < 1)
    by (intro g; simpl; lra).
  assert (Hdt : 0 < 0.0025) by lra.
  assert (He : 0 <= 1e-8) by lra.
  assert (Hl : 0 <= 12) by lra.
  split; [exact Hr|]. split; [exact Hdt|]. split; [exact He|]. split; [exact Hl|].
  exact (proj1 (proj2 (synthesizeRadiosityPulses_bins unit (fun _ => (1/2, tt)) 100 Hr
                         0.0025 12 1e-8 Hdt He Hl)) [1]).
Defined.



Lemma inverseCdfDirection_unit (u u' : R) :
  0 <= u <= 1 -> vlength (inverseCdfDirection u u') = 1.
Proof.
  intro Hu. unfold vlength, vdot, inverseCdfDirection. simpl.
  set (z := 2 * u - 1). set (phi := 2 * PI * u').
  assert (Hz : 0 <= 1 - z * z) by (unfold z; nra).
  replace (sqrt (1 - z * z) * cos phi * (sqrt (1 - z * z) * cos phi)
           + sqrt (1 - z * z) * sin phi * (sqrt (1 - z * z) * sin phi) + z * z)
    with (sqrt (1 - z * z) * sqrt (1 - z * z) * (sin phi * sin phi + cos phi * cos phi) + z * z)
    by ring.
  rewrite sqrt_sqrt by exact Hz.
  pose proof (sin2_cos2 phi) as Hsc. unfold Rsqr in Hsc. rewrite Hsc.
  replace ((1 - z * z) * 1 + z * z) with 1 by ring. apply sqrt_1.
Qed.

Lemma vnormalize_zero : vnormalize (mkV3 0 0 0) = mkV3 0 0 0.
Proof.
  unfold vnormalize, vlength, vdot, vscale. simpl.
  replace (0 * 0 + 0 * 0 + 0 * 0) with 0 by ring. rewrite sqrt_0.
  destruct (Req_EM_T 0 0); [|contradiction]. f_equal; lra.
Qed.

(** C2 (code bug): the worker's emission direction is
    [normalize(2x - 1, 2y - 1, 2z - 1)] of three draws, not the inverse-CDF
    construction: the draws (3/4, 1/2, 1/2) give the axis (1, 0, 0), and the
    draws (1/2, 1/2, 1/2) give the zero vector, which is not on the unit
    sphere, while the inverse-CDF construction always gives a unit vector. *)
Theorem emitDirection_cube_normalisation :
  fst (emitDirection (list R) streamRand (mkRandomState _ [3/4; 1/2; 1/2] None)) = mkV3 1 0 0 /\
  fst (emitDirection (list R) streamRand (mkRandomState _ [1/2; 1/2; 1/2] None)) = mkV3 0 0 0 /\
  vlength (mkV3 0 0 0) = 0 /\
  (forall u u', 0 <= u <= 1 -> vlength (inverseCdfDirection u u') = 1).
Proof.
  split; [|split; [|split]].
  - rewrite emitDirection_stream. simpl.
    replace (3 / 4 * 2 - 1) with (1/2) by lra. replace (1 / 2 * 2 - 1) with 0 by lra.
    apply (proj1 (vnormalize_axis (1/2) ltac:(lra))).
  - rewrite emitDirection_stream. simpl.
    replace (1 / 2 * 2 - 1) with 0 by lra. apply vnormalize_zero.
  - unfold vlength, vdot. simpl. replace (0 * 0 + 0 * 0 + 0 * 0) with 0 by ring. apply sqrt_0.
  - exact inverseCdfDirection_unit.
Qed.

(** ** The receiver mesh *)

Lemma Rltb_t (x y : R) : Rltb x y = true -> x < y.
Proof. unfold Rltb. destruct (Rlt_dec x y); congruence. Qed.

Lemma Rltb_f (x y : R) : Rltb x y = false -> y <= x.
Proof. unfold Rltb. destruct (Rlt_dec x y); [congruence | lra]. Qed.

Lemma sph_norm (r phi theta : R) : vdot (sph r phi theta) (sph r phi theta) = r * r.
Proof.
  unfold sph, vdot. simpl.
  pose proof (sin2_cos2 phi) as Hp. pose proof (sin2_cos2 theta) as Ht.
  unfold Rsqr in *.
  replace (- r * cos phi * sin theta * (- r * cos phi * sin theta) + r * cos theta * (r * cos theta) +
           r * sin phi * sin theta * (r * sin phi * sin theta))
    with (r * r * (sin theta * sin theta * (sin phi * sin phi + cos phi * cos phi)
                   + cos theta * cos theta)) by ring.
  rewrite Hp, Rmult_1_r, Ht. ring.
Qed.

(** The orientation of the two triangles of a quad: the triple product
    [a . ((b - a) x (c - a))]. *)
Lemma sph_det_abd (r p1 p2 t1 t2 : R) :
  let a := sph r p2 t1 in let b := sph r p1 t1 in let c := sph r p2 t2 in
  vdot a (vcross (vsub b a) (vsub c a)) = r * r * r * sin t1 * sin (t2 - t1) * sin (p2 - p1).
Proof.
  cbv zeta. unfold sph, vdot, vcross, vsub. simpl.
  rewrite !sin_minus. ring.
Qed.

Lemma sph_det_bcd (r p1 p2 t1 t2 : R) :
  let a := sph r p1 t1 in let b := sph r p1 t2 in let c := sph r p2 t2 in
  vdot a (vcross (vsub b a) (vsub c a)) = r * r * r * sin t2 * sin (t2 - t1) * sin (p2 - p1).
Proof.
  cbv zeta. unfold sph, vdot, vcross, vsub. simpl.
  rewrite !sin_minus. ring.
Qed.

Lemma INR_16 : INR 16 = 16.
Proof. rewrite INR_IZR_INZ. reflexivity. Qed.

Lemma theta_sin_pos (k : nat) :
  (0 < k < 16)%nat -> 0 < sin (0 + INR k / INR heightSegments * PI).
Proof.
  intros [H0 H16]. unfold heightSegments. rewrite INR_16.
  apply lt_INR in H0, H16. rewrite INR_16 in H16. simpl in H0.
  pose proof PI_RGT_0.
  replace (0 + INR k / 16 * PI) with (INR k / 16 * PI) by ring. apply sin_gt_0.
  - apply Rmult_lt_0_compat; [apply Rdiv_lt_0_compat|]; lra.
  - rewrite <- (Rmult_1_l PI) at 2. apply Rmult_lt_compat_r; [lra|].
    apply Rmult_lt_reg_r with 16; [lra|]. unfold Rdiv.
    rewrite Rmult_assoc, Rinv_l by lra. lra.
Qed.

Lemma dtheta_sin_pos (iy : nat) :
  0 < sin ((0 + INR (S iy) / INR heightSegments * PI) - (0 + INR iy / INR heightSegments * PI)).
Proof.
  replace ((0 + INR (S iy) / INR heightSegments * PI) - (0 + INR iy / INR heightSegments * PI))
    with (PI / 16) by (rewrite S_INR; unfold heightSegments; rewrite INR_16; field).
  pose proof PI_RGT_0. apply sin_gt_0; lra.
Qed.

Lemma dphi_sin_pos (ix : nat) :
  0 < sin ((0 + INR (S ix) / INR widthSegments * (2 * PI)) - (0 + INR ix / INR widthSegments * (2 * PI))).
Proof.
  replace ((0 + INR (S ix) / INR widthSegments * (2 * PI)) - (0 + INR ix / INR widthSegments * (2 * PI)))
    with (PI / 8) by (rewrite S_INR; unfold widthSegments; rewrite INR_16; field).
  pose proof PI_RGT_0. apply sin_gt_0; lra.
Qed.

Lemma sphereTriangles_in (r : R) (tri : V3 * V3 * V3) :
  In tri (sphereTriangles r) ->
  exists iy ix, (iy < 16)%nat /\ (ix < 16)%nat /\ In tri (sphereQuad r iy ix).
Proof.
  unfold sphereTriangles. rewrite in_flat_map. intros (iy & Hiy & Hin).
  rewrite in_flat_map in Hin. destruct Hin as (ix & Hix & Hq).
  apply in_seq in Hiy, Hix. exists iy, ix. unfold heightSegments, widthSegments in *.
  repeat split; [lia | lia | exact Hq].
Qed.

(** Every face of the receiver mesh has its vertices on the sphere and is
    oriented outwards: [a . ((b - a) x (c - a)) > 0]. *)
Lemma sphereTriangles_outward (r : R) (a b c : V3) :
  0 < r -> In (a, b, c) (sphereTriangles r) ->
  0 < vdot a (vcross (vsub b a) (vsub c a)) /\
  vdot a a = r * r /\ vdot b b = r * r /\ vdot c c = r * r.
Proof.
  intros Hr Hin. apply sphereTriangles_in in Hin as (iy & ix & Hiy & Hix & Hq).
  unfold sphereQuad in Hq. apply in_app_or in Hq.
  assert (Hrrr : 0 < r * r * r) by (repeat apply Rmult_lt_0_compat; lra).
  destruct Hq as [Hq | Hq].
  - destruct (Nat.eqb_spec iy 0) as [_ | Hne]; [destruct Hq|].
    destruct Hq as [Hq | []]. injection Hq as <- <- <-.
    unfold sphereVertex. rewrite !sph_norm. repeat split; try reflexivity.
    match goal with
    | |- context [vdot (sph ?r ?p2 ?t1) (vcross (vsub (sph _ ?p1 _) _) (vsub (sph _ _ ?t2) _))] =>
      pose proof (sph_det_abd r p1 p2 t1 t2) as E
    end.
    cbv zeta in E. rewrite E.
    repeat apply Rmult_lt_0_compat; try lra.
    + apply theta_sin_pos. lia.
    + apply dtheta_sin_pos.
    + apply dphi_sin_pos.
  - destruct (Nat.eqb_spec iy (heightSegments - 1)) as [_ | Hne]; [destruct Hq|].
    destruct Hq as [Hq | []]. injection Hq as <- <- <-.
    unfold sphereVertex. rewrite !sph_norm. repeat split; try reflexivity.
    match goal with
    | |- context [vdot (sph ?r ?p1 ?t1) (vcross (vsub (sph _ _ ?t2) _) (vsub (sph _ ?p2 _) _))] =>
      pose proof (sph_det_bcd r p1 p2 t1 t2) as E
    end.
    cbv zeta in E. rewrite E.
    repeat apply Rmult_lt_0_compat; try lra.
    + apply theta_sin_pos. unfold heightSegments in Hne. lia.
    + apply dtheta_sin_pos.
    + apply dphi_sin_pos.
Qed.

Ltac destruct_Rltb :=
  repeat match goal with
         | |- context [Rltb ?x ?y] => let E := fresh "E" in destruct (Rltb x y) eqn:E
         end.

(** A culled intersection test never reports a face whose plane has the
    ray origin strictly behind it. *)
Lemma intersectTriangle_behind (o d a b c : V3) :
  vdot (vsub o a) (vcross (vsub b a) (vsub c a)) < 0 ->
  intersectTriangle o d a b c true = None.
Proof.
  intro H. unfold intersectTriangle. cbv zeta. destruct_Rltb; try reflexivity.
  match goal with
  | E : Rltb _ 0 = false |- Some _ = None => apply Rltb_f in E; lra
  end.
Qed.

(** A reported hit lies in the triangle: [o + t d = a + u (b - a) + v (c - a)]
    with [u, v >= 0] and [u + v <= 1], and the face is seen from the front. *)
Lemma intersectTriangle_hit (o d a b c : V3) (t : R) :
  intersectTriangle o d a b c true = Some t ->
  exists u v, 0 <= u /\ 0 <= v /\ u + v <= 1 /\
    vadd o (vscale d t) = vadd a (vadd (vscale (vsub b a) u) (vscale (vsub c a) v)) /\
    vdot d (vcross (vsub b a) (vsub c a)) < 0.
Proof.
  unfold intersectTriangle. cbv zeta. destruct_Rltb; intro H; try discriminate.
  injection H as <-.
  apply Rltb_f in E. apply Rltb_t in E0. apply Rltb_f in E1. apply Rltb_f in E2.
  apply Rltb_f in E3. apply Rltb_f in E4.
  set (N := vcross (vsub b a) (vsub c a)) in *.
  set (D := - vdot d N) in *.
  exists (-1 * vdot d (vcross (vsub o a) (vsub c a)) / D),
         (-1 * vdot d (vcross (vsub b a) (vsub o a)) / D).
  assert (HD : 0 < D) by (unfold D; lra).
  repeat split.
  - unfold Rdiv. apply Rmult_le_pos; [lra | left; apply Rinv_0_lt_compat; lra].
  - unfold Rdiv. apply Rmult_le_pos; [lra | left; apply Rinv_0_lt_compat; lra].
  - rewrite <- Rdiv_plus_distr. apply Rmult_le_reg_r with D; [lra|].
    unfold Rdiv. rewrite Rmult_assoc, Rinv_l by lra. lra.
  - unfold D, N, vadd, vscale, vsub, vdot, vcross in *. simpl in *.
    f_equal; field; lra.
  - exact E0.
Qed.

Lemma closestHit_none (o d : V3) (tris : list (V3 * V3 * V3)) :
  (forall tri, In tri tris -> triangleHit o d tri = None) -> closestHit o d tris = None.
Proof.
  induction tris as [|tri tris IH]; intro H; [reflexivity|]. simpl.
  rewrite (H tri (or_introl eq_refl)). apply IH. intros tri' Hin. apply H. right. exact Hin.
Qed.

Lemma closestHit_some (o d : V3) (tris : list (V3 * V3 * V3)) (x : R) (p : V3) :
  closestHit o d tris = Some (x, p) -> exists tri, In tri tris /\ triangleHit o d tri = Some (x, p).
Proof.
  induction tris as [|tri tris IH]; simpl; [discriminate|].
  destruct (triangleHit o d tri) as [[t1 p1]|] eqn:E1;
  destruct (closestHit o d tris) as [[t2 p2]|] eqn:E2; intro H.
  - destruct (Rleb t1 t2); injection H as <- <-.
    + exists tri. auto.
    + destruct (IH eq_refl) as (tri' & Hin & Ht). exists tri'. auto.
  - injection H as <- <-. exists tri. auto.
  - injection H as <- <-. destruct (IH eq_refl) as (tri' & Hin & Ht). exists tri'. auto.
  - discriminate.
Qed.

Lemma triangleHit_some (o d a b c : V3) (x : R) (p : V3) :
  triangleHit o d (a, b, c) = Some (x, p) ->
  exists t, intersectTriangle o d a b c true = Some t /\ p = vadd o (vscale d t).
Proof.
  unfold triangleHit. destruct (intersectTriangle o d a b c true) as [t|]; [|discriminate].
  destruct (Rltb _ 0); intro H; [discriminate|]. injection H as _ <-. exists t. auto.
Qed.

Lemma vdot_self_nonneg (a : V3) : 0 <= vdot a a.
Proof. unfold vdot. nra. Qed.

Lemma vdot_self_pos (d n : V3) : vdot d n <> 0 -> 0 < vdot d d.
Proof.
  destruct d as [dx dy dz]. unfold vdot. simpl. intro H.
  destruct (Rlt_le_dec 0 (dx * dx + dy * dy + dz * dz)) as [|Hle]; [assumption|].
  exfalso. assert (dx = 0) by nra. assert (dy = 0) by nra. assert (dz = 0) by nra.
  subst. apply H. ring.
Qed.

(** A point of a triangle whose vertices lie on the sphere of radius [r]
    lies in the ball. *)
Lemma triangle_point_in_ball (a b c : V3) (r u v : R) :
  vdot a a = r * r -> vdot b b = r * r -> vdot c c = r * r ->
  0 <= u -> 0 <= v -> u + v <= 1 ->
  let p := vadd a (vadd (vscale (vsub b a) u) (vscale (vsub c a) v)) in
  vdot p p <= r * r.
Proof.
  intros Ha Hb Hc Hu Hv Huv p. set (l := 1 - u - v).
  assert (E : vdot p p + l * u * vdot (vsub a b) (vsub a b) + l * v * vdot (vsub a c) (vsub a c)
              + u * v * vdot (vsub b c) (vsub b c)
              = (l + u + v) * (l * vdot a a + u * vdot b b + v * vdot c c))
    by (unfold p, l, vadd, vscale, vsub, vdot; simpl; ring).
  rewrite Ha, Hb, Hc in E. replace (l + u + v) with 1 in E by (unfold l; ring).
  pose proof (vdot_self_nonneg (vsub a b)). pose proof (vdot_self_nonneg (vsub a c)).
  pose proof (vdot_self_nonneg (vsub b c)).
  assert (0 <= l) by (unfold l; lra).
  assert (0 <= l * u * vdot (vsub a b) (vsub a b)) by (repeat apply Rmult_le_pos; lra).
  assert (0 <= l * v * vdot (vsub a c) (vsub a c)) by (repeat apply Rmult_le_pos; lra).
  assert (0 <= u * v * vdot (vsub b c) (vsub b c)) by (repeat apply Rmult_le_pos; lra).
  replace (r * r) with (1 * (l * (r * r) + u * (r * r) + v * (r * r))) by (unfold l; ring).
  lra.
Qed.

(** The closest approach of a line to [c] is at most the distance from [c]
    to any of its points. *)
Lemma closestApproach_le (o d c : V3) (t r : R) :
  0 < vdot d d -> 0 <= r ->
  vdot (vsub (vadd o (vscale d t)) c) (vsub (vadd o (vscale d t)) c) <= r * r ->
  closestApproach o d c <= r.
Proof.
  intros Hd Hr Hp. unfold closestApproach. cbv zeta.
  set (q := vsub c o).
  assert (E : vdot (vsub (vadd o (vscale d t)) c) (vsub (vadd o (vscale d t)) c)
              - (vdot q q - vdot q d * vdot q d / vdot d d)
              = (t * vdot d d - vdot q d) * (t * vdot d d - vdot q d) / vdot d d).
  { unfold q. unfold vdot in *. unfold vadd, vscale, vsub. simpl. field. lra. }
  assert (0 <= (t * vdot d d - vdot q d) * (t * vdot d d - vdot q d) / vdot d d).
  { unfold Rdiv. apply Rmult_le_pos; [apply Rle_0_sqr | left; apply Rinv_0_lt_compat; lra]. }
  rewrite <- (sqrt_square r Hr). apply sqrt_le_1_alt. lra.
Qed.

(** A ray starting at the receiver's centre reports no receiver hit: every
    face of the mesh is culled or behind it. *)
Lemma receiverTest_center_none (r : R) (center d : V3) :
  0 < r -> receiverTest r center center d = None.
Proof.
  intro Hr. unfold receiverTest.
  rewrite closestHit_none; [reflexivity|].
  intros [[a b] c] Hin. unfold triangleHit.
  destruct (sphereTriangles_outward r a b c Hr Hin) as (Hpos & _).
  rewrite intersectTriangle_behind; [reflexivity|].
  replace (vdot (vsub (vsub center center) a) (vcross (vsub b a) (vsub c a)))
    with (- vdot a (vcross (vsub b a) (vsub c a)))
    by (unfold vsub, vdot, vcross; simpl; ring).
  lra.
Qed.

(** C7 (amended): a receiver hit is only reported for a ray whose closest
    approach to the receiver centre is at most [receiver_radius], and the
    hit point lies within [receiver_radius] of the centre; the converse
    fails: the receiver is a tessellated sphere seen from the front only,
    so a ray starting at the receiver centre reports no hit. *)
Theorem receiverTest_hit_within_radius (radius : R) (center o d : V3) :
  0 < radius ->
  (forall h, receiverTest radius center o d = Some h ->
     closestApproach o d center <= radius /\ vlength (vsub (h_point h) center) <= radius) /\
  receiverTest radius center center d = None.
Proof.
  intro Hr. split; [|exact (receiverTest_center_none radius center d Hr)].
  intros h. unfold receiverTest.
  destruct (closestHit (vsub o center) d (sphereTriangles radius)) as [[x pL]|] eqn:Ec;
    [|discriminate].
  intro H. injection H as <-. simpl.
  destruct (closestHit_some _ _ _ _ _ Ec) as ([[a b] c] & Hin & Ht).
  destruct (triangleHit_some _ _ _ _ _ _ _ Ht) as (t & Hi & ->).
  destruct (intersectTriangle_hit _ _ _ _ _ _ Hi) as (u & v & Hu & Hv & Huv & Hp & Hdn).
  destruct (sphereTriangles_outward radius a b c Hr Hin) as (_ & Ha & Hb & Hc).
  pose proof (triangle_point_in_ball a b c radius u v Ha Hb Hc Hu Hv Huv) as Hball.
  cbv zeta in Hball. rewrite <- Hp in Hball.
  assert (Hd : 0 < vdot d d) by (apply (vdot_self_pos d (vcross (vsub b a) (vsub c a))); lra).
  split.
  - apply (closestApproach_le o d center t radius Hd ltac:(lra)).
    replace (vdot (vsub (vadd o (vscale d t)) center) (vsub (vadd o (vscale d t)) center))
      with (vdot (vadd (vsub o center) (vscale d t)) (vadd (vsub o center) (vscale d t)))
      by (unfold vdot, vadd, vsub, vscale; simpl; ring).
    exact Hball.
  - unfold vlength. rewrite <- (sqrt_square radius) by lra. apply sqrt_le_1_alt.
    replace (vdot (vsub (vadd (vadd (vsub o center) (vscale d t)) center) center)
                  (vsub (vadd (vadd (vsub o center) (vscale d t)) center) center))
      with (vdot (vadd (vsub o center) (vscale d t)) (vadd (vsub o center) (vscale d t)))
      by (unfold vdot, vadd, vsub, vscale; simpl; ring).
    exact Hball.
Qed.

Lemma cos_meridian_le (ix : nat) :
  (ix <= 16)%nat ->
  cos ((0 + INR ix / INR widthSegments * (2 * PI)) - PI / 16) <= cos (PI / 16).
Proof.
  intro Hix. pose proof PI_RGT_0 as Hpi.
  replace ((0 + INR ix / INR widthSegments * (2 * PI)) - PI / 16)
    with ((2 * INR ix - 1) * PI / 16) by (unfold widthSegments; rewrite INR_16; field).
  destruct (Nat.eq_dec ix 0) as [-> | H0].
  - replace ((2 * INR 0 - 1) * PI / 16) with (- (PI / 16)) by (simpl; field).
    rewrite cos_neg. lra.
  - assert (H1 : 1 <= INR ix) by (apply (le_INR 1); lia).
    assert (H16 : INR ix <= 16) by (rewrite <- INR_16; apply le_INR; exact Hix).
    destruct (le_lt_dec ix 8) as [H8 | H8].
    + assert (INR ix <= 8) by (apply (le_INR ix 8) in H8; simpl in H8; lra).
      apply cos_decr_1; nra.
    + assert (9 <= INR ix) by (apply (le_INR 9 ix) in H8; simpl in H8; lra).
      apply Rle_trans with (cos (2 * PI - PI / 16)).
      * apply cos_incr_1; nra.
      * rewrite cos_minus, cos_2PI, sin_2PI. lra.
Qed.

Lemma cos_PI16_bounds : 0 < cos (PI / 16) < 1.
Proof.
  pose proof PI_RGT_0. split.
  - apply cos_gt_0; lra.
  - rewrite <- cos_0. apply cos_decreasing_1; lra.
Qed.

(** Every vertex of the mesh lies in the half-space
    [v . grazeNormal <= r cos (pi/16)]. *)
Lemma sphereVertex_graze (r : R) (ix iy : nat) :
  0 < r -> (ix <= 16)%nat -> (iy <= 16)%nat ->
  vdot (sphereVertex r ix iy) grazeNormal <= r * cos (PI / 16).
Proof.
  intros Hr Hix Hiy. unfold sphereVertex, sph, grazeNormal, vdot. cbn [vx vy vz].
  set (phi := 0 + INR ix / INR widthSegments * (2 * PI)).
  set (theta := 0 + INR iy / INR heightSegments * PI).
  replace (- r * cos phi * sin theta * - cos (PI / 16) + r * cos theta * 0 +
           r * sin phi * sin theta * sin (PI / 16))
    with (r * sin theta * cos (phi - PI / 16)) by (rewrite cos_minus; ring).
  pose proof (cos_meridian_le ix Hix) as Hc. fold phi in Hc.
  destruct cos_PI16_bounds as [Hc16 _].
  assert (Hs : 0 <= sin theta <= 1).
  { split; [|apply SIN_bound]. pose proof PI_RGT_0. apply sin_ge_0.
    - unfold theta. apply Rplus_le_le_0_compat; [lra|].
      apply Rmult_le_pos; [|lra]. unfold Rdiv. apply Rmult_le_pos; [apply pos_INR|].
      left. apply Rinv_0_lt_compat. unfold heightSegments. rewrite INR_16. lra.
    - unfold theta, heightSegments. rewrite INR_16.
      assert (INR iy <= 16) by (rewrite <- INR_16; apply le_INR; exact Hiy).
      replace (0 + INR iy / 16 * PI) with (INR iy * PI / 16) by field. nra. }
  set (C := cos (phi - PI / 16)) in *.
  assert (0 <= r * sin theta) by (apply Rmult_le_pos; lra).
  assert (r * C <= r * cos (PI / 16)) by (apply Rmult_le_compat_l; lra).
  destruct (Rle_dec C 0).
  - assert (r * sin theta * C <= 0) by (rewrite <- (Rmult_0_r (r * sin theta)); apply Rmult_le_compat_l; lra).
    assert (0 < r * cos (PI / 16)) by (apply Rmult_lt_0_compat; lra). lra.
  - assert (0 <= (1 - sin theta) * (r * C)) by (apply Rmult_le_pos; nra). nra.
Qed.

Lemma sphereTriangles_graze (r : R) (a b c : V3) :
  0 < r -> In (a, b, c) (sphereTriangles r) ->
  vdot a grazeNormal <= r * cos (PI / 16) /\ vdot b grazeNormal <= r * cos (PI / 16) /\
  vdot c grazeNormal <= r * cos (PI / 16).
Proof.
  intros Hr Hin. apply sphereTriangles_in in Hin as (iy & ix & Hiy & Hix & Hq).
  unfold sphereQuad in Hq. apply in_app_or in Hq.
  destruct Hq as [Hq | Hq];
    [destruct (Nat.eqb iy 0) | destruct (Nat.eqb iy (heightSegments - 1))];
    try destruct Hq as [Hq | []]; try contradiction; injection Hq as <- <- <-;
    refine (conj _ (conj _ _)); apply sphereVertex_graze; first [exact Hr | lia].
Qed.

(** A culled intersection test reports nothing for a ray running in a plane
    [x . n = H] when all three vertices lie strictly below it. *)
Lemma intersectTriangle_separated (o d a b c n : V3) (H : R) :
  vdot a n < H -> vdot b n < H -> vdot c n < H ->
  vdot o n = H -> vdot d n = 0 ->
  intersectTriangle o d a b c true = None.
Proof.
  intros Ha Hb Hc Ho Hd.
  destruct (intersectTriangle o d a b c true) as [t|] eqn:Ei; [|reflexivity].
  exfalso. destruct (intersectTriangle_hit _ _ _ _ _ _ Ei) as (u & v & Hu & Hv & Huv & Hp & _).
  apply (f_equal (fun p => vdot p n)) in Hp.
  replace (vdot (vadd o (vscale d t)) n) with (vdot o n + t * vdot d n) in Hp
    by (unfold vdot, vadd, vscale; simpl; ring).
  replace (vdot (vadd a (vadd (vscale (vsub b a) u) (vscale (vsub c a) v))) n)
    with ((1 - u - v) * vdot a n + u * vdot b n + v * vdot c n) in Hp
    by (unfold vdot, vadd, vscale, vsub; simpl; ring).
  rewrite Ho, Hd in Hp.
  set (M := Rmax (vdot a n) (Rmax (vdot b n) (vdot c n))).
  assert (HaM : vdot a n <= M) by apply Rmax_l.
  assert (HbM : vdot b n <= M) by (eapply Rle_trans; [apply Rmax_l | apply Rmax_r]).
  assert (HcM : vdot c n <= M) by (eapply Rle_trans; [apply Rmax_r | apply Rmax_r]).
  assert (HM : M < H) by (unfold M; repeat apply Rmax_lub_lt; assumption).
  assert ((1 - u - v) * vdot a n <= (1 - u - v) * M) by (apply Rmult_le_compat_l; lra).
  assert (u * vdot b n <= u * M) by (apply Rmult_le_compat_l; lra).
  assert (v * vdot c n <= v * M) by (apply Rmult_le_compat_l; lra).
  lra.
Qed.

Lemma grazeOffset_bounds : 1 / 2 * cos (PI / 16) < grazeOffset < 1 / 2.
Proof. destruct cos_PI16_bounds. unfold grazeOffset. lra. Qed.

(** C7 counterexample: a ray starting outside a receiver of radius 1/2 at
    the origin, with the centre ahead of it, passes the centre at distance
    [grazeOffset] < 1/2, and the receiver test reports no hit: the ray runs
    outside every face plane of the tessellated sphere. *)
Lemma receiverTest_misses_grazing_ray :
  0 < vdot (vsub (mkV3 0 0 0) grazeOrigin) (mkV3 0 1 0) /\
  1 / 2 < vlength (vsub grazeOrigin (mkV3 0 0 0)) /\
  closestApproach grazeOrigin (mkV3 0 1 0) (mkV3 0 0 0) = grazeOffset /\
  grazeOffset < 1 / 2 /\
  receiverTest (1 / 2) (mkV3 0 0 0) grazeOrigin (mkV3 0 1 0) = None.
Proof.
  destruct cos_PI16_bounds as [Hc0 Hc1]. destruct grazeOffset_bounds as [Hg0 Hg1].
  pose proof (sin2_cos2 (PI / 16)) as Hsc. unfold Rsqr in Hsc.
  set (H := grazeOffset) in *.
  assert (HH : 0 <= H) by lra.
  split; [|split; [|split; [|split]]].
  - unfold vdot, vsub, grazeOrigin. cbn [vx vy vz]. lra.
  - unfold vlength. rewrite <- (sqrt_square (1 / 2)) by lra. apply sqrt_lt_1_alt.
    unfold vdot, vsub, grazeOrigin. cbn [vx vy vz]. fold H. split; [lra|].
    pose proof (Rle_0_sqr (- H * cos (PI / 16) - 0)).
    pose proof (Rle_0_sqr (H * sin (PI / 16) - 0)). unfold Rsqr in *. lra.
  - unfold closestApproach, vdot, vsub, grazeOrigin. cbn [vx vy vz]. fold H.
    match goal with |- sqrt ?x = _ => replace x with (H * H * (sin (PI / 16) * sin (PI / 16) + cos (PI / 16) * cos (PI / 16))) by (field; lra) end.
    rewrite Hsc, Rmult_1_r. apply sqrt_square. exact HH.
  - exact Hg1.
  - unfold receiverTest. rewrite closestHit_none; [reflexivity|].
    intros [[a b] c] Hin. unfold triangleHit.
    destruct (sphereTriangles_graze (1 / 2) a b c ltac:(lra) Hin) as (Ha & Hb & Hc).
    rewrite (intersectTriangle_separated _ _ a b c grazeNormal H); try reflexivity; try lra.
    + unfold vdot, vsub, grazeOrigin, grazeNormal. cbn [vx vy vz]. fold H.
      replace ((- H * cos (PI / 16) - 0) * - cos (PI / 16) + (-1 - 0) * 0 + (H * sin (PI / 16) - 0) * sin (PI / 16))
        with (H * (sin (PI / 16) * sin (PI / 16) + cos (PI / 16) * cos (PI / 16))) by ring.
      rewrite Hsc. ring.
    + unfold vdot, grazeNormal. cbn [vx vy vz]. ring.
Qed.

Lemma receiverTest_hit_within_radius_witness :
  0 < 1 / 2 /\
  ((forall h, receiverTest (1 / 2) (mkV3 0 0 0) (mkV3 (-1) 0 0) (mkV3 1 0 0) = Some h ->
      closestApproach (mkV3 (-1) 0 0) (mkV3 1 0 0) (mkV3 0 0 0) <= 1 / 2 /\
      vlength (vsub (h_point h) (mkV3 0 0 0)) <= 1 / 2) /\
   receiverTest (1 / 2) (mkV3 0 0 0) (mkV3 0 0 0) (mkV3 1 0 0) = None).
Proof.
  split; [lra|].
  apply (receiverTest_hit_within_radius (1 / 2) (mkV3 0 0 0) (mkV3 (-1) 0 0) (mkV3 1 0 0)).
  lra.
Defined.

Lemma emitDirection_cube_normalisation_witness :
  0 <= 3 / 4 <= 1 /\ vlength (inverseCdfDirection (3 / 4) (1 / 2)) = 1.
Proof.
  assert (H : 0 <= 3 / 4 <= 1) by lra. split; [exact H|].
  exact (proj2 (proj2 (proj2 emitDirection_cube_normalisation)) (3 / 4) (1 / 2) H).
Defined.

(** * Further properties of the code *)

Lemma bytesLE_length (k : nat) (v : Z) : List.length (bytesLE k v) = k.
Proof. revert v; induction k as [|k IH]; intro v; simpl; [reflexivity | rewrite IH; reflexivity]. Qed.

Lemma readLE_bytesLE (k : nat) (v : Z) : readLE (bytesLE k v) = (v mod 256 ^ Z.of_nat k)%Z.
Proof.
  revert v; induction k as [|k IH]; intro v.
  - simpl. rewrite Z.mod_1_r. reflexivity.
  - cbn [bytesLE readLE]. rewrite IH, Nat2Z.inj_succ, Z.pow_succ_r by lia.
    rewrite Z.rem_mul_r; [reflexivity | lia |]. apply Z.pow_pos_nonneg; lia.
Qed.

Lemma wavHeader_length (n : Z) (sr : R) (len : Z) : List.length (wavHeader n sr len) = 44%nat.
Proof. reflexivity. Qed.

Lemma wavBlock_length (j : nat) (chans : list (list R)) :
  List.length (flat_map (fun ch => bytesLE 2 (wavSample (nth j ch 0))) chans)
  = (2 * List.length chans)%nat.
Proof.
  induction chans as [|ch chans IH]; [reflexivity|].
  cbn [flat_map]. rewrite length_app, bytesLE_length, IH. simpl. lia.
Qed.

Lemma wavData_blocks (chans : list (list R)) (n len : Z) :
  n = Z.of_nat (List.length chans) -> (1 <= n)%Z ->
  forall k fuel pos off, (k <= fuel)%nat -> pos = (len - 2 * n * Z.of_nat k)%Z ->
  wavData fuel chans n len pos off =
  flat_map (fun j => flat_map (fun ch => bytesLE 2 (wavSample (nth j ch 0))) chans)
           (seq off k).
Proof.
  intros Hn H1 k. induction k as [|k IH]; intros fuel pos off Hk Hpos.
  - destruct fuel; simpl; [reflexivity|].
    replace (pos <? len)%Z with false by (symmetry; apply Z.ltb_ge; lia). reflexivity.
  - destruct fuel as [|fuel]; [lia|]. cbn [wavData seq flat_map].
    replace (pos <? len)%Z with true by (symmetry; apply Z.ltb_lt; lia).
    f_equal. apply IH; lia.
Qed.

Lemma flat_map_blocks_length (chans : list (list R)) (k off : nat) :
  List.length (flat_map (fun j => flat_map (fun ch => bytesLE 2 (wavSample (nth j ch 0))) chans)
           (seq off k)) = (k * (2 * List.length chans))%nat.
Proof.
  revert off; induction k as [|k IH]; intro off; [reflexivity|].
  cbn [seq flat_map]. rewrite length_app, wavBlock_length, IH. lia.
Qed.

Lemma wavData_done (fuel : nat) (chans : list (list R)) (n len pos : Z) (off : nat) :
  (len <= pos)%Z -> wavData fuel chans n len pos off = [].
Proof.
  intro H. destruct fuel; simpl; [reflexivity|].
  replace (pos <? len)%Z with false by (symmetry; apply Z.ltb_ge; lia). reflexivity.
Qed.

Lemma audioBufferToWav_length (b : MultiBuffer) :
  Z.of_nat (List.length (audioBufferToWav b)) =
  (44 + 2 * Z.of_nat (List.length (mb_channels b)) * Z.of_nat (mb_length b))%Z.
Proof.
  unfold audioBufferToWav. rewrite length_app, !wavHeader_length.
  destruct (mb_channels b) as [|ch chans] eqn:Hc.
  - rewrite wavData_done by (simpl; lia). simpl List.length. lia.
  - set (chs := ch :: chans).
    set (n := Z.of_nat (List.length chs)).
    set (len := (Z.of_nat (mb_length b) * n * 2 + 44)%Z).
    rewrite (wavData_blocks chs n len eq_refl) with (k := mb_length b).
    + rewrite flat_map_blocks_length. unfold n. lia.
    + unfold n; simpl; lia.
    + assert (1 <= n)%Z by (unfold n; simpl; lia). unfold len. nia.
    + unfold len. lia.
Qed.

Lemma wav_field (b : MultiBuffer) (k m : nat) (v : Z) :
  firstn k (skipn m (audioBufferToWav b)) = bytesLE k v ->
  readLE (firstn k (skipn m (audioBufferToWav b))) = (v mod 256 ^ Z.of_nat k)%Z.
Proof. intro H. rewrite H. apply readLE_bytesLE. Qed.

(** X1: the WAV file written by [audioBufferToWav] has 44 + 2 * channels * length bytes; its RIFF, WAVE, fmt and data tags and its RIFF size, channel count, sample rate and data size fields read back (little endian) as the values written. *)
Theorem audioBufferToWav_header (b : MultiBuffer) :
  let out := audioBufferToWav b in
  let numOfChan := Z.of_nat (List.length (mb_channels b)) in
  let total := Z.of_nat (List.length out) in
  total = (44 + 2 * numOfChan * Z.of_nat (mb_length b))%Z /\
  readLE (firstn 4 out) = 0x46464952%Z /\
  readLE (firstn 4 (skipn 4 out)) = ((total - 8) mod 2 ^ 32)%Z /\
  readLE (firstn 4 (skipn 8 out)) = 0x45564157%Z /\
  readLE (firstn 4 (skipn 12 out)) = 0x20746d66%Z /\
  readLE (firstn 2 (skipn 22 out)) = (numOfChan mod 2 ^ 16)%Z /\
  readLE (firstn 4 (skipn 24 out)) = (Ztrunc (mb_sampleRate b) mod 2 ^ 32)%Z /\
  readLE (firstn 4 (skipn 36 out)) = 0x61746164%Z /\
  readLE (firstn 4 (skipn 40 out)) = ((total - 44) mod 2 ^ 32)%Z.
Proof.
  cbv zeta. rewrite audioBufferToWav_length.
  set (n := Z.of_nat (List.length (mb_channels b))).
  set (L := Z.of_nat (mb_length b)).
  split; [reflexivity|].
  split; [change (firstn 4 (audioBufferToWav b)) with (firstn 4 (skipn 0 (audioBufferToWav b)));
          rewrite (wav_field b 4 0 0x46464952) by reflexivity; reflexivity|].
  split; [rewrite (wav_field b 4 4 (L * n * 2 + 44 - 8)) by reflexivity; f_equal; lia|].
  split; [rewrite (wav_field b 4 8 0x45564157) by reflexivity; reflexivity|].
  split; [rewrite (wav_field b 4 12 0x20746d66) by reflexivity; reflexivity|].
  split; [rewrite (wav_field b 2 22 n) by reflexivity; reflexivity|].
  split; [rewrite (wav_field b 4 24 (Ztrunc (mb_sampleRate b))) by reflexivity; reflexivity|].
  split; [rewrite (wav_field b 4 36 0x61746164) by reflexivity; reflexivity|].
  rewrite (wav_field b 4 40 (L * n * 2 + 44 - 40 - 4)) by reflexivity; f_equal; lia.
Qed.

Lemma Ztrunc_bounds (y : R) (lo hi : Z) :
  IZR lo <= y <= IZR hi -> (lo <= Ztrunc y <= hi)%Z.
Proof.
  intros [H1 H2]. unfold Ztrunc. destruct (Rlt_dec y 0) as [Hy | Hy].
  - pose proof (Zceil_ge y) as Hc.
    pose proof (Zfloor_spec (- y)) as Hf.
    unfold Zceil in *. rewrite opp_IZR in Hc.
    assert (lo <= - Zfloor (- y))%Z by (apply le_IZR; rewrite opp_IZR; lra).
    assert (- hi - 1 < Zfloor (- y))%Z
      by (apply lt_IZR; rewrite minus_IZR, opp_IZR; lra).
    lia.
  - pose proof (Zfloor_spec y) as Hf.
    assert (Zfloor y <= hi)%Z by (apply le_IZR; lra).
    assert (lo - 1 < Zfloor y)%Z by (apply lt_IZR; rewrite minus_IZR; lra).
    lia.
Qed.

Lemma wavSample_value (x : R) :
  let sample := Rmax (-1) (Rmin 1 x) in
  let q := Ztrunc (if Rltb sample 0 then sample * 32768 else sample * 32767) in
  wavSample x = q /\ (-32768 <= q <= 32767)%Z.
Proof.
  cbv zeta. unfold wavSample.
  set (s := Rmax (-1) (Rmin 1 x)).
  assert (Hs : -1 <= s <= 1).
  { unfold s. split; [apply Rmax_l|]. apply Rmax_lub; [lra | apply Rmin_l]. }
  assert (Hq : (-32768 <= Ztrunc (if Rltb s 0 then s * 32768 else s * 32767) <= 32767)%Z).
  { apply Ztrunc_bounds. unfold Rltb. destruct (Rlt_dec s 0); lra. }
  split; [|exact Hq].
  unfold toInt32. rewrite Z.mod_small by lia. lia.
Qed.

Lemma readInt16_bytesLE (v : Z) : (-32768 <= v <= 32767)%Z -> readInt16 (bytesLE 2 v) = v.
Proof.
  intro H. unfold readInt16. rewrite readLE_bytesLE. simpl Z.of_nat.
  destruct (Z_lt_le_dec v 0).
  - replace (v mod 256 ^ 2)%Z with (v + 65536)%Z.
    + replace ((v + 65536) <? 2 ^ 15)%Z with false by (symmetry; apply Z.ltb_ge; lia). lia.
    + apply Z.mod_unique with (-1)%Z; lia.
  - rewrite Z.mod_small by lia.
    replace (v <? 2 ^ 15)%Z with true by (symmetry; apply Z.ltb_lt; lia). reflexivity.
Qed.

Lemma skipn_blocks (chans : list (list R)) :
  forall j k off, (j <= k)%nat ->
  skipn (j * (2 * List.length chans))
    (flat_map (fun i => flat_map (fun ch => bytesLE 2 (wavSample (nth i ch 0))) chans)
              (seq off k))
  = flat_map (fun i => flat_map (fun ch => bytesLE 2 (wavSample (nth i ch 0))) chans)
             (seq (off + j) (k - j)).
Proof.
  induction j as [|j IH]; intros k off Hjk.
  - rewrite Nat.add_0_r, Nat.sub_0_r. reflexivity.
  - destruct k as [|k]; [lia|]. cbn [seq flat_map].
    replace (S j * (2 * List.length chans))%nat
      with (List.length (flat_map (fun ch => bytesLE 2 (wavSample (nth off ch 0%R))) chans)
            + j * (2 * List.length chans))%nat by (rewrite wavBlock_length; lia).
    rewrite skipn_app, skipn_all2 by lia. simpl app.
    match goal with |- context [(?a + ?b - ?a)%nat] => replace (a + b - a)%nat with b by lia end.
    rewrite IH by lia.
    replace (off + S j)%nat with (S off + j)%nat by lia. reflexivity.
Qed.

Lemma block_sample (j : nat) (chans : list (list R)) :
  forall c rest, (c < List.length chans)%nat ->
  firstn 2 (skipn (2 * c)
    (flat_map (fun ch => bytesLE 2 (wavSample (nth j ch 0))) chans ++ rest))
  = bytesLE 2 (wavSample (nth j (nth c chans []) 0)).
Proof.
  induction chans as [|ch chans IH]; intros c rest Hc; [simpl in Hc; lia|].
  destruct c as [|c].
  - reflexivity.
  - cbn [flat_map]. rewrite <- app_assoc.
    replace (2 * S c)%nat with (2 * c + 2)%nat by lia.
    assert (E : forall v (r : list Z), skipn 2 (bytesLE 2 v ++ r) = r) by reflexivity.
    rewrite <- skipn_skipn, E.
    simpl in Hc |- *. apply IH. lia.
Qed.

(** X2: the 16-bit sample at byte 44 + 2 * (channels * j + c) of the WAV file is the truncation of the clamped sample j of channel c scaled by 32768 (negative) or 32767, and it lies in [-32768, 32767]. *)
Theorem audioBufferToWav_samples (b : MultiBuffer) (j c : nat) :
  (j < mb_length b)%nat -> (c < List.length (mb_channels b))%nat ->
  let x := nth j (nth c (mb_channels b) []) 0 in
  let sample := Rmax (-1) (Rmin 1 x) in
  let q := Ztrunc (if Rltb sample 0 then sample * 32768 else sample * 32767) in
  readInt16 (firstn 2 (skipn (44 + 2 * (List.length (mb_channels b) * j + c))
                             (audioBufferToWav b))) = q /\
  (-32768 <= q <= 32767)%Z.
Proof.
  intros Hj Hc. cbv zeta.
  destruct (wavSample_value (nth j (nth c (mb_channels b) []) 0)) as [Hv Hq].
  split; [|exact Hq]. rewrite <- Hv.
  unfold audioBufferToWav.
  set (chs := mb_channels b) in *.
  set (n := Z.of_nat (List.length chs)).
  set (len := (Z.of_nat (mb_length b) * n * 2 + 44)%Z).
  assert (Hn : (1 <= n)%Z) by (unfold n; lia).
  rewrite skipn_app, skipn_all2 by (rewrite wavHeader_length; lia).
  rewrite wavHeader_length, app_nil_l.
  rewrite (wavData_blocks chs n len eq_refl Hn (mb_length b)).
  2: { unfold len. nia. }
  2: { unfold len. lia. }
  replace (44 + 2 * (List.length chs * j + c) - 44)%nat
    with (2 * c + j * (2 * List.length chs))%nat by lia.
  rewrite <- skipn_skipn, skipn_blocks by lia.
  destruct (mb_length b - j)%nat as [|k] eqn:Hk; [lia|].
  cbn [seq flat_map]. rewrite Nat.add_0_l, block_sample by exact Hc.
  apply readInt16_bytesLE. rewrite Hv. exact Hq.
Qed.

Lemma Rmax_idem_l (a x : R) : Rmax a (Rmax a x) = Rmax a x.
Proof. unfold Rmax. repeat destruct Rle_dec; lra. Qed.

Lemma floor_clamp_idem (x : R) :
  Rmax 0 (IZR (Zfloor (Rmax 0 (IZR (Zfloor x))))) = Rmax 0 (IZR (Zfloor x)).
Proof.
  unfold Rmax at 2 3. destruct (Rle_dec 0 (IZR (Zfloor x))).
  - rewrite Zfloor_IZR. unfold Rmax. destruct Rle_dec; lra.
  - rewrite Zfloor_IZR. unfold Rmax. destruct Rle_dec; lra.
Qed.

Lemma clamp01_range (v : R) : 0 <= clamp01 v <= 1.
Proof. unfold clamp01, Rmax, Rmin. repeat destruct Rle_dec; lra. Qed.

Lemma clamp01_idem (v : R) : clamp01 (clamp01 v) = clamp01 v.
Proof. unfold clamp01, Rmax, Rmin. repeat destruct Rle_dec; lra. Qed.

(** X3: [normalizeRayRadiosityConfig] puts every field in its range (scattering in [0, 1], 0.0005 <= resolution <= maxTime, an integral threshold >= 0, density >= 0.1, minEnergy >= 1e-12, gain >= 0.01), and normalising its result again changes nothing. *)
Theorem normalizeRayRadiosityConfig_ranges_idempotent (o : RROverrides) :
  let c := normalizeRayRadiosityConfig o in
  0 <= rr_scatteringCoeff c <= 1 /\
  0.0005 <= rr_histogramResolution c <= rr_maxTime c /\
  0 <= rr_hybridBounceThreshold c /\
  IZR (Zfloor (rr_hybridBounceThreshold c)) = rr_hybridBounceThreshold c /\
  0.1 <= rr_poissonDensity c /\
  1e-12 <= rr_minEnergyThreshold c /\
  0.01 <= rr_diffuseGain c /\
  normalizeRayRadiosityConfig (configAsOverrides c) = c.
Proof.
  cbv zeta. destruct o as [en sc hr mt kh pd me dg]. unfold normalizeRayRadiosityConfig.
  cbn [configAsOverrides with_default ov_enabled ov_scatteringCoeff ov_histogramResolution
       ov_maxTime ov_hybridBounceThreshold ov_poissonDensity ov_minEnergyThreshold ov_diffuseGain
       rr_enabled rr_scatteringCoeff rr_histogramResolution rr_maxTime
       rr_hybridBounceThreshold rr_poissonDensity rr_minEnergyThreshold rr_diffuseGain].
  set (h := Rmax 0.0005 (with_default hr (rr_histogramResolution rrBase))).
  set (k := with_default kh (rr_hybridBounceThreshold rrBase)).
  assert (Hh : 0.0005 <= h) by apply Rmax_l.
  split; [apply clamp01_range|].
  split; [split; [exact Hh | apply Rmax_l]|].
  split; [apply Rmax_l|].
  split.
  { unfold Rmax at 1 2. destruct (Rle_dec 0 (IZR (Zfloor k))).
    - rewrite Zfloor_IZR. reflexivity.
    - rewrite Zfloor_IZR. reflexivity. }
  split; [apply Rmax_l|].
  split; [apply Rmax_l|].
  split; [apply Rmax_l|].
  unfold h. rewrite clamp01_idem, !Rmax_idem_l, floor_clamp_idem.
  reflexivity.
Qed.

(** X4: the worker's merge and clamping of a configuration normalised by the main thread changes only [minEnergyThreshold], raised to at least 1e-10, and the clamped scatter weight equals the scattering coefficient. *)
Theorem worker_renormalization_of_main_config (o : RROverrides) :
  let c := normalizeRayRadiosityConfig o in
  normalizeRR (mergeRR (configAsOverrides c)) =
    mkRRConfig (rr_enabled c) (rr_scatteringCoeff c) (rr_histogramResolution c)
      (rr_maxTime c) (rr_hybridBounceThreshold c) (rr_poissonDensity c)
      (Rmax 1e-10 (rr_minEnergyThreshold c)) (rr_diffuseGain c) /\
  clamp01 (rr_scatteringCoeff c) = rr_scatteringCoeff c.
Proof.
  cbv zeta. destruct o as [en sc hr mt kh pd me dg].
  unfold normalizeRR, mergeRR, normalizeRayRadiosityConfig.
  cbn [configAsOverrides with_default ov_enabled ov_scatteringCoeff ov_histogramResolution
       ov_maxTime ov_hybridBounceThreshold ov_poissonDensity ov_minEnergyThreshold ov_diffuseGain
       rr_enabled rr_scatteringCoeff rr_histogramResolution rr_maxTime
       rr_hybridBounceThreshold rr_poissonDensity rr_minEnergyThreshold rr_diffuseGain].
  set (h := Rmax 0.0005 (with_default hr (rr_histogramResolution rrBase))).
  assert (Hh : 0.0005 <= h) by apply Rmax_l.
  split; [|apply clamp01_idem].
  rewrite (Rmax_right 1e-4 h) by lra.
  rewrite (Rmax_right h (Rmax h _)) by apply Rmax_l.
  rewrite Rmax_idem_l, floor_clamp_idem. reflexivity.
Qed.


Section SortBy.

Variable A : Type.
Variable le : A -> A -> bool.
Hypothesis le_total : forall x y, le x y = false -> le y x = true.

Lemma insert_by_perm (x : A) (l : list A) : Permutation (x :: l) (insert_by le x l).
Proof.
  induction l as [|y l IH]; simpl; [reflexivity|].
  destruct (le y x); [|reflexivity].
  rewrite perm_swap. constructor. exact IH.
Qed.

Lemma insert_by_sorted (x : A) (l : list A) :
  Sorted (fun a b => le a b = true) l -> Sorted (fun a b => le a b = true) (insert_by le x l).
Proof.
  induction l as [|y l IH]; intro Hs; simpl.
  - repeat constructor.
  - destruct (le y x) eqn:Hyx.
    + apply Sorted_inv in Hs as [Hl Hh]. constructor; [apply IH; exact Hl|].
      destruct l as [|z l]; simpl; [constructor; exact Hyx|].
      destruct (le z x); constructor; [inversion Hh; assumption | exact Hyx].
    + constructor; [exact Hs|]. constructor. apply le_total. exact Hyx.
Qed.

Lemma sort_by_spec (l : list A) :
  Sorted (fun a b => le a b = true) (sort_by le l) /\ Permutation l (sort_by le l).
Proof.
  unfold sort_by.
  assert (H : forall acc, Sorted (fun a b => le a b = true) acc ->
            Sorted (fun a b => le a b = true) (fold_left (fun acc x => insert_by le x acc) l acc) /\
            Permutation (acc ++ l) (fold_left (fun acc x => insert_by le x acc) l acc)).
  { induction l as [|x l IH]; intros acc Hacc; simpl.
    - rewrite app_nil_r. split; [exact Hacc | reflexivity].
    - destruct (IH (insert_by le x acc) (insert_by_sorted x acc Hacc)) as [H1 H2].
      split; [exact H1|].
      rewrite <- H2. rewrite <- (insert_by_perm x acc).
      apply Permutation_sym, Permutation_middle. }
  exact (H [] (Sorted_nil _)).
Qed.

End SortBy.

Lemma Rleb_total (x y : R) : Rleb x y = false -> Rleb y x = true.
Proof. unfold Rleb. destruct (Rle_dec x y); destruct (Rle_dec y x); intros; try lra; congruence. Qed.

(** X5: sorting an arrival list by time returns a list sorted by time that is a permutation of the input. *)
Theorem sortArrivals_sorted_permutation (l : list Arrival) :
  Sorted (fun a b => time a <= time b) (sortArrivals l) /\ Permutation l (sortArrivals l).
Proof.
  destruct (sort_by_spec Arrival (fun a b => Rleb (time a) (time b))
              (fun x y => Rleb_total (time x) (time y)) l) as [Hs Hp].
  split; [|exact Hp].
  unfold sortArrivals. clear Hp. induction Hs as [|a l0 Hl IH Hh]; [constructor|constructor; [exact IH|]].
  destruct Hh as [|b l1 Hab]; constructor.
  unfold Rleb in Hab. destruct Rle_dec; [assumption | discriminate].
Qed.

Lemma cos_2PI_minus (x : R) : cos (2 * PI - x) = cos x.
Proof. rewrite cos_minus, cos_2PI, sin_2PI. ring. Qed.

Lemma hann_symmetric (N n : nat) :
  (2 <= N)%nat -> (n < N)%nat -> hann N (N - 1 - n) = hann N n.
Proof.
  intros HN Hn. unfold hann.
  assert (HN1 : 1 < INR N) by (apply lt_1_INR; lia).
  rewrite minus_INR by lia. rewrite minus_INR by lia. simpl INR at 2.
  replace (2 * PI * (INR N - 1 - INR n) / (INR N - 1))
    with (2 * PI - 2 * PI * INR n / (INR N - 1)) by (field; lra).
  rewrite cos_2PI_minus. reflexivity.
Qed.

(** X6: for N >= 2, [hannWindow N] has N values in [0, 1], is symmetric (w[N-1-n] = w[n]) and is 0 at both ends. *)
Theorem hannWindow_range_symmetric (N : nat) :
  (2 <= N)%nat ->
  List.length (hannWindow N) = N /\
  (forall n, (n < N)%nat -> 0 <= nth n (hannWindow N) 0 <= 1) /\
  (forall n, (n < N)%nat -> nth (N - 1 - n) (hannWindow N) 0 = nth n (hannWindow N) 0) /\
  nth 0 (hannWindow N) 0 = 0 /\ nth (N - 1) (hannWindow N) 0 = 0.
Proof.
  intro HN.
  assert (HN1 : 1 < INR N) by (apply lt_1_INR; lia).
  split; [unfold hannWindow; rewrite length_map, length_seq; reflexivity|].
  split.
  { intros n Hn. rewrite nth_hannWindow by exact Hn. apply fround32_hann_range. }
  split.
  { intros n Hn. rewrite !nth_hannWindow by lia. f_equal. apply hann_symmetric; assumption. }
  split.
  - rewrite nth_hannWindow by lia. rewrite <- fround32_0. f_equal. unfold hann. simpl INR.
    replace (2 * PI * 0 / (INR N - 1)) with 0 by (field; lra). rewrite cos_0. lra.
  - rewrite nth_hannWindow by lia. rewrite <- fround32_0. f_equal.
    unfold hann. rewrite minus_INR by lia. simpl INR.
    replace (2 * PI * (INR N - 1) / (INR N - 1)) with (2 * PI) by (field; lra).
    rewrite cos_2PI. lra.
Qed.

Lemma firwinTaps_nth_gen (N n : nat) (fl fh fs : R) :
  (n < N)%nat ->
  nth n (firwinTaps N fl fh fs) 0 =
  fround32
    ((let k := INR n - (INR N - 1) / 2 in
      if Req_EM_T k 0 then 2 * (fh / fs - fl / fs)
      else (sin (2 * PI * (fh / fs) * k) - sin (2 * PI * (fl / fs) * k)) / (PI * k))
     * fround32 (hann N n)).
Proof.
  intro Hn. unfold firwinTaps. rewrite (nth_map_seq _ N n 0 Hn).
  rewrite nth_hannWindow by exact Hn. reflexivity.
Qed.

(** X7: for N >= 2 taps, the normalised kernel of [firwinBandpass] has N taps and is symmetric: h[N-1-n] = h[n] (linear phase). *)
Theorem firwinBandpass_symmetric (N : nat) (fl fh fs : R) :
  (2 <= N)%nat -> sumList (firwinTaps N fl fh fs) <> 0 ->
  List.length (firwinBandpass N fl fh fs) = N /\
  forall n, (n < N)%nat ->
    nth (N - 1 - n) (firwinBandpass N fl fh fs) 0 = nth n (firwinBandpass N fl fh fs) 0.
Proof.
  intros HN _.
  split; [unfold firwinBandpass; rewrite length_map; apply firwinTaps_length|].
  intros n Hn. unfold firwinBandpass. rewrite !nth_map_fround_div. do 2 f_equal.
  rewrite !firwinTaps_nth_gen by lia. rewrite hann_symmetric by assumption.
  do 2 f_equal. cbv zeta.
  assert (HN1 : 1 < INR N) by (apply lt_1_INR; lia).
  replace (INR (N - 1 - n) - (INR N - 1) / 2) with (- (INR n - (INR N - 1) / 2))
    by (rewrite !minus_INR by lia; simpl INR; field).
  set (k := INR n - (INR N - 1) / 2).
  destruct (Req_EM_T (- k) 0) as [H1 | H1]; destruct (Req_EM_T k 0) as [H2 | H2];
    try reflexivity; try lra.
  replace (2 * PI * (fh / fs) * - k) with (- (2 * PI * (fh / fs) * k)) by ring.
  replace (2 * PI * (fl / fs) * - k) with (- (2 * PI * (fl / fs) * k)) by ring.
  rewrite !sin_neg. field. split; [exact H2 | apply PI_neq0].
Qed.

Lemma peak_fold_ge (l : list R) (m : R) :
  m <= fold_left (fun m s => Rmax m (Rabs s)) l m /\
  forall s, In s l -> Rabs s <= fold_left (fun m s => Rmax m (Rabs s)) l m.
Proof.
  revert m; induction l as [|x l IH]; intro m; simpl.
  - split; [lra | intros s []].
  - destruct (IH (Rmax m (Rabs x))) as [H1 H2]. split.
    + pose proof (Rmax_l m (Rabs x)). lra.
    + intros s [<- | Hs]; [pose proof (Rmax_r m (Rabs x)); lra | apply H2; exact Hs].
Qed.

Lemma peakAbs_nonneg (l : list R) : 0 <= peakAbs l.
Proof. apply (proj1 (peak_fold_ge l 0)). Qed.

Lemma peakAbs_ge (l : list R) (s : R) : In s l -> Rabs s <= peakAbs l.
Proof. apply (proj2 (peak_fold_ge l 0)). Qed.

Lemma Rabs_le_bound (x b : R) : Rabs x <= b -> - b <= x <= b.
Proof. unfold Rabs. destruct Rcase_abs; lra. Qed.

(** X8: [createIRAudioBuffer] keeps the sample rate and every sample of the buffer it returns is in [-1, 1]. *)
Theorem createIRAudioBuffer_samples_bounded (arrivals : list Arrival) (sampleRate : R) :
  ab_sampleRate (createIRAudioBuffer arrivals sampleRate) = sampleRate /\
  forall s, In s (ab_data (createIRAudioBuffer arrivals sampleRate)) -> -1 <= s <= 1.
Proof.
  destruct arrivals as [|a arrs].
  - split; [reflexivity|]. intros s Hs. simpl in Hs. destruct Hs as [<- | []]. lra.
  - unfold createIRAudioBuffer. cbv zeta. split; [reflexivity|].
    set (d := fold_left _ _ _). intros s Hs. cbn [ab_data] in Hs.
    unfold Rltb in Hs. destruct (Rlt_dec 1 (peakAbs d)) as [Hp | Hp].
    + apply in_map_iff in Hs as [x [<- Hx]].
      pose proof (peakAbs_ge d x Hx) as Hb.
      replace (-1) with (- 1) by ring. apply Rabs_le_bound. unfold Rdiv. rewrite Rabs_mult, Rabs_inv, (Rabs_pos_eq (peakAbs d)) by lra.
      apply Rmult_le_reg_r with (peakAbs d); [lra|].
      rewrite Rmult_assoc, Rinv_l by lra. lra.
    + pose proof (peakAbs_ge d s Hs). replace (-1) with (- 1) by ring.
      apply Rabs_le_bound. lra.
Qed.

(** X10: reflecting about a unit normal keeps the squared length and the length of the vector and flips the sign of its normal component. *)
Theorem vreflect_isometry (v n : V3) :
  vdot n n = 1 ->
  vdot (vreflect v n) (vreflect v n) = vdot v v /\
  vlength (vreflect v n) = vlength v /\
  vdot (vreflect v n) n = - vdot v n.
Proof.
  intro Hn.
  assert (H1 : vdot (vreflect v n) (vreflect v n) = vdot v v).
  { destruct v as [a b c], n as [x y z]. unfold vreflect, vsub, vscale, vdot in *. simpl in *.
    transitivity (a * a + b * b + c * c
                  + 4 * (a * x + b * y + c * z) * (a * x + b * y + c * z) * (x * x + y * y + z * z - 1)).
    - ring.
    - rewrite Hn. ring. }
  split; [exact H1|]. split; [unfold vlength; rewrite H1; reflexivity|].
  destruct v as [a b c], n as [x y z]. unfold vreflect, vsub, vscale, vdot in *. simpl in *.
  transitivity (- (a * x + b * y + c * z) - 2 * (a * x + b * y + c * z) * (x * x + y * y + z * z - 1)).
  - ring.
  - rewrite Hn. ring.
Qed.

Lemma prodList_cons (u : R) (l : list R) : prodList (u :: l) = u * prodList l.
Proof.
  unfold prodList. simpl. rewrite Rmult_1_l.
  assert (H : forall l a, fold_left Rmult l a = a * fold_left Rmult l 1).
  { induction l0 as [|x l0 IH]; intro a; simpl; [ring|].
    rewrite IH, (IH (1 * x)). ring. }
  apply H.
Qed.

Section PoissonDraws.

Variable G : Type.
Variable rand : G -> R * G.

Lemma drawList_S (n : nat) (s : RandomState G) :
  drawList rand (S n) s =
  (fst (mathRandom G rand s) :: fst (drawList rand n (snd (mathRandom G rand s))),
   snd (drawList rand n (snd (mathRandom G rand s)))).
Proof.
  cbn [drawList]. rewrite !st_bind_run. unfold st_ret. reflexivity.
Qed.

Lemma poissonLoop_draws (L : R) (fuel : nat) :
  forall k p s m,
  fst (poissonLoop G rand fuel L k p s) = Some m ->
  (k <= m)%nat /\
  let '(us, s') := drawList rand (S (m - k)) s in
  snd (poissonLoop G rand fuel L k p s) = s' /\
  (forall i, (1 <= i <= m - k)%nat -> L < p * prodList (firstn i us)) /\
  p * prodList us <= L.
Proof.
  induction fuel as [|fuel IH]; intros k p s m H; [discriminate|].
  cbn [poissonLoop] in H |- *. rewrite st_bind_run in H |- *.
  set (u := fst (mathRandom G rand s)) in *.
  set (s1 := snd (mathRandom G rand s)) in *.
  unfold Rltb in H |- *. destruct (Rlt_dec L (p * u)) as [Hlt | Hge].
  - destruct (IH (S k) (p * u) s1 m H) as [Hkm Hrest].
    split; [lia|].
    replace (S (m - k)) with (S (S (m - S k))) by lia.
    rewrite drawList_S. fold u s1.
    destruct (drawList rand (S (m - S k)) s1) as [us s'] eqn:Hd.
    simpl fst; simpl snd.
    destruct Hrest as [Hs [Hpre Hlast]]. split; [exact Hs|]. split.
    + intros [|i] Hi; [lia|]. simpl firstn. rewrite prodList_cons.
      destruct i as [|i].
      * simpl firstn. unfold prodList. simpl. lra.
      * rewrite <- Rmult_assoc. apply Hpre. lia.
    + rewrite prodList_cons, <- Rmult_assoc. exact Hlast.
  - simpl in H. injection H as <-. split; [lia|].
    replace (k - 0 - k)%nat with 0%nat by lia. rewrite drawList_S. fold u s1.
    simpl. split; [reflexivity|]. split; [intros i Hi; lia|].
    unfold prodList. simpl. lra.
Qed.

End PoissonDraws.

(** X11: when [samplePoisson lambda] (lambda > 0) returns m, it has consumed exactly m + 1 draws of [Math.random], every product of the first 1..m draws is above exp(-lambda) and the product of all m + 1 draws is at most exp(-lambda). *)
Theorem samplePoisson_draws (G : Type) (rand : G -> R * G) (loopFuel : nat)
    (lambda : R) (s : RandomState G) (m : nat) :
  0 < lambda -> fst (samplePoisson G rand loopFuel lambda s) = Some m ->
  let '(us, s') := drawList rand (S m) s in
  snd (samplePoisson G rand loopFuel lambda s) = s' /\
  (forall i, (1 <= i <= m)%nat -> exp (- lambda) < prodList (firstn i us)) /\
  prodList us <= exp (- lambda).
Proof.
  intros Hl H. unfold samplePoisson, Rleb in *.
  destruct (Rle_dec lambda 0) as [Hle | _]; [lra|].
  destruct (poissonLoop_draws G rand (exp (- lambda)) loopFuel 0 1 s m H) as [_ Hd].
  rewrite Nat.sub_0_r in Hd. destruct (drawList rand (S m) s) as [us s'].
  destruct Hd as [Hs [Hpre Hlast]]. split; [exact Hs|]. split.
  - intros i Hi. rewrite <- (Rmult_1_l (prodList _)). apply Hpre. exact Hi.
  - rewrite <- (Rmult_1_l (prodList _)). exact Hlast.
Qed.

Lemma vnormalize_unit (a : V3) :
  0 < vdot a a -> vdot (vnormalize a) (vnormalize a) = 1.
Proof.
  intro H. unfold vnormalize, vlength.
  destruct (Req_EM_T (sqrt (vdot a a)) 0) as [H0 | H0].
  - pose proof (sqrt_lt_R0 _ H). lra.
  - assert (Hs : sqrt (vdot a a) * sqrt (vdot a a) = vdot a a) by (apply sqrt_sqrt; lra).
    destruct a as [x y z]. unfold vdot, vscale in *. simpl in *.
    set (q := sqrt (x * x + y * y + z * z)) in *.
    transitivity ((x * x + y * y + z * z) / (q * q)); [field; exact H0|].
    rewrite Hs. field. lra.
Qed.

Lemma vnormalize_orth (a n : V3) : vdot a n = 0 -> vdot (vnormalize a) n = 0.
Proof.
  intro H. unfold vnormalize. destruct a as [x y z], n as [p q r].
  unfold vdot, vscale in *. simpl in *.
  set (c := 1 / _).
  transitivity ((x * p + y * q + z * r) * c); [ring|]. rewrite H. ring.
Qed.

Lemma vnormalize_of_unit (a : V3) : vdot a a = 1 -> vnormalize a = a.
Proof.
  intro H. unfold vnormalize, vlength. rewrite H, sqrt_1.
  destruct (Req_EM_T 1 0) as [H1 | _]; [lra|].
  destruct a as [x y z]. unfold vscale. simpl. f_equal; field.
Qed.

(** The tangent frame of [randomHemisphereDirection]. *)
Lemma hemisphere_tangent (n : V3) :
  vdot n n = 1 ->
  let t := if Rltb (Rabs (vz n)) (Rabs (vx n))
           then vnormalize (mkV3 (- vy n) (vx n) 0)
           else vnormalize (mkV3 0 (- vz n) (vy n)) in
  vdot t t = 1 /\ vdot t n = 0.
Proof.
  intro Hn. cbv zeta. destruct n as [x y z]. unfold vdot in Hn. simpl in Hn.
  unfold Rltb. cbn [vx vy vz].
  destruct (Rlt_dec (Rabs z) (Rabs x)) as [Hzx | Hzx].
  - split.
    + apply vnormalize_unit. unfold vdot. simpl.
      assert (x <> 0) by (intro; subst; pose proof (Rabs_pos z); rewrite Rabs_R0 in Hzx; lra).
      pose proof (Rle_0_sqr y). assert (0 < x * x) by (apply Rsqr_pos_lt; exact H). unfold Rsqr in *. lra.
    + apply vnormalize_orth. unfold vdot. simpl. ring.
  - split.
    + apply vnormalize_unit. unfold vdot. simpl.
      destruct (Req_EM_T z 0) as [Hz | Hz].
      * subst z. rewrite Rabs_R0 in Hzx.
        assert (Hx : x = 0) by (pose proof (Rabs_pos x); destruct (Req_EM_T x 0); [exact e|];
                                  pose proof (Rabs_no_R0 x n); lra).
        subst x. lra.
      * pose proof (Rle_0_sqr y). assert (0 < z * z) by (apply Rsqr_pos_lt; exact Hz).
        unfold Rsqr in *. lra.
    + apply vnormalize_orth. unfold vdot. simpl. ring.
Qed.

Lemma frame_norm (t b n : V3) (a1 a2 a3 : R) :
  vdot t t = 1 -> vdot b b = 1 -> vdot n n = 1 ->
  vdot t b = 0 -> vdot t n = 0 -> vdot b n = 0 ->
  let v := vadd (vadd (vscale t a1) (vscale b a2)) (vscale n a3) in
  vdot v v = a1 * a1 + a2 * a2 + a3 * a3 /\ vdot v n = a3.
Proof.
  intros Htt Hbb Hnn Htb Htn Hbn. cbv zeta.
  destruct t as [t1 t2 t3], b as [b1 b2 b3], n as [n1 n2 n3].
  unfold vdot, vadd, vscale in *. simpl in *. split.
  - transitivity (a1 * a1 * (t1 * t1 + t2 * t2 + t3 * t3) + a2 * a2 * (b1 * b1 + b2 * b2 + b3 * b3)
                  + a3 * a3 * (n1 * n1 + n2 * n2 + n3 * n3)
                  + 2 * a1 * a2 * (t1 * b1 + t2 * b2 + t3 * b3)
                  + 2 * a1 * a3 * (t1 * n1 + t2 * n2 + t3 * n3)
                  + 2 * a2 * a3 * (b1 * n1 + b2 * n2 + b3 * n3)); [ring|].
    rewrite Htt, Hbb, Hnn, Htb, Htn, Hbn. ring.
  - transitivity (a1 * (t1 * n1 + t2 * n2 + t3 * n3) + a2 * (b1 * n1 + b2 * n2 + b3 * n3)
                  + a3 * (n1 * n1 + n2 * n2 + n3 * n3)); [ring|].
    rewrite Htn, Hbn, Hnn. ring.
Qed.

Lemma cross_frame (n t : V3) :
  vdot n n = 1 -> vdot t t = 1 -> vdot t n = 0 ->
  let b := vcross n t in
  vdot b b = 1 /\ vdot t b = 0 /\ vdot b n = 0.
Proof.
  intros Hn Ht Htn. cbv zeta.
  destruct n as [x y z], t as [p q r]. unfold vdot, vcross in *. simpl in *.
  split; [|split; ring].
  transitivity ((x * x + y * y + z * z) * (p * p + q * q + r * r)
                - (p * x + q * y + r * z) * (p * x + q * y + r * z)); [ring|].
  rewrite Hn, Ht, Htn. ring.
Qed.

(** X12: for a unit normal and a first draw u1 in [0, 1), [randomHemisphereDirection] returns a unit vector whose cosine with the normal is sqrt(1 - u1) > 0. *)
Theorem randomHemisphereDirection_cosine (G : Type) (rand : G -> R * G)
    (normal : V3) (s : RandomState G) :
  vdot normal normal = 1 ->
  0 <= fst (mathRandom G rand s) < 1 ->
  let d := fst (randomHemisphereDirection G rand normal s) in
  vdot d d = 1 /\
  vdot d normal = sqrt (1 - fst (mathRandom G rand s)) /\
  0 < vdot d normal.
Proof.
  intros Hn Hu. cbv zeta. unfold randomHemisphereDirection.
  rewrite !st_bind_run. unfold st_ret. simpl fst.
  set (u1 := fst (mathRandom G rand s)) in *.
  set (u2 := fst (mathRandom G rand (snd (mathRandom G rand s)))).
  pose proof (hemisphere_tangent normal Hn) as Ht. cbv zeta in Ht.
  set (t := if Rltb (Rabs (vz normal)) (Rabs (vx normal)) then _ else _) in *.
  destruct Ht as [Htt Htn].
  destruct (cross_frame normal t Hn Htt Htn) as [Hbb [Htb Hbn]].
  rewrite Rmax_right by lra.
  destruct (frame_norm t (vcross normal t) normal (sqrt u1 * cos (2 * PI * u2))
              (sqrt u1 * sin (2 * PI * u2)) (sqrt (1 - u1)) Htt Hbb Hn Htb Htn Hbn)
    as [Hvv Hvn].
  assert (Hv1 : vdot (vadd (vadd (vscale t (sqrt u1 * cos (2 * PI * u2)))
                                 (vscale (vcross normal t) (sqrt u1 * sin (2 * PI * u2))))
                           (vscale normal (sqrt (1 - u1))))
                     (vadd (vadd (vscale t (sqrt u1 * cos (2 * PI * u2)))
                                 (vscale (vcross normal t) (sqrt u1 * sin (2 * PI * u2))))
                           (vscale normal (sqrt (1 - u1)))) = 1).
  { rewrite Hvv.
    assert (H1 : sqrt u1 * sqrt u1 = u1) by (apply sqrt_sqrt; lra).
    assert (H2 : sqrt (1 - u1) * sqrt (1 - u1) = 1 - u1) by (apply sqrt_sqrt; lra).
    pose proof (sin2_cos2 (2 * PI * u2)) as Hsc. unfold Rsqr in Hsc.
    transitivity (sqrt u1 * sqrt u1 * (sin (2 * PI * u2) * sin (2 * PI * u2)
                                       + cos (2 * PI * u2) * cos (2 * PI * u2))
                  + sqrt (1 - u1) * sqrt (1 - u1)); [ring|].
    rewrite Hsc, H1, H2. ring. }
  rewrite vnormalize_of_unit by exact Hv1.
  split; [exact Hv1|]. split; [exact Hvn|].
  rewrite Hvn. apply sqrt_lt_R0. lra.
Qed.

Lemma sumList_app (l1 l2 : list R) : sumList (l1 ++ l2) = sumList l1 + sumList l2.
Proof.
  unfold sumList. rewrite fold_left_app, fold_left_Rplus_acc. reflexivity.
Qed.

Lemma sumList_const (l : list Arrival) (c : R) :
  (forall a, In a l -> amplitude a * amplitude a = c) ->
  sumList (map (fun a => amplitude a * amplitude a) l) = INR (List.length l) * c.
Proof.
  induction l as [|a l IH]; intro H; simpl map.
  - unfold sumList. simpl. ring.
  - rewrite sumList_cons, IH by (intros b Hb; apply H; right; exact Hb).
    rewrite (H a (or_introl eq_refl)). cbn [List.length]. rewrite S_INR. ring.
Qed.

(** X13: with draws in [0, 1), the squared amplitudes of the pulses synthesised from a histogram add up to the sum of the bins above [minEnergy]: pulse synthesis conserves energy. *)
Theorem synthesizeRadiosityPulses_energy (G : Type) (rand : G -> R * G) (loopFuel : nat)
    (dt lam eps : R) :
  (forall g, 0 <= fst (rand g) < 1) -> 0 < dt -> 0 <= eps -> 0 <= lam ->
  forall hist s ps,
  fst (synthesizeRadiosityPulses G rand loopFuel hist dt lam eps s) = Some ps ->
  sumList (map (fun a => amplitude a * amplitude a) ps) =
  sumList (filter (fun E => negb (Rleb E eps)) hist).
Proof.
  intros Hr Hdt Heps Hlam hist. unfold synthesizeRadiosityPulses. generalize 0%nat.
  induction hist as [|E hist IH]; intros i s ps H.
  - simpl in H. injection H as <-. reflexivity.
  - cbn [synthBins] in H. rewrite st_bind_run in H.
    destruct (fst (synthBin G rand loopFuel i E dt lam eps s)) as [ps1|] eqn:H1;
      [|simpl in H; discriminate].
    rewrite st_bind_run in H. simpl in H.
    destruct (fst (synthBins G rand loopFuel hist (S i) dt lam eps
                    (snd (synthBin G rand loopFuel i E dt lam eps s)))) as [rest|] eqn:H2;
      [|discriminate].
    injection H as <-. rewrite map_app, sumList_app, (IH (S i) _ rest H2).
    cbn [filter].
    destruct (synthBin_spec G rand loopFuel Hr i E dt lam eps s ps1 Hdt Heps Hlam H1)
      as [[HE ->] | [HE [pc [_ [Hlen Hall]]]]].
    + replace (Rleb E eps) with true by (unfold Rleb; destruct Rle_dec; [reflexivity | lra]).
      cbn [negb map]. rewrite sumList_nil. ring.
    + replace (Rleb E eps) with false by (unfold Rleb; destruct Rle_dec; [lra | reflexivity]).
      cbn [negb]. rewrite sumList_cons.
      rewrite (sumList_const ps1 (E / INR (Nat.max 1 pc))).
      * rewrite Hlen. field. apply not_0_INR. lia.
      * intros a Ha. destruct (Hall a Ha) as [Habs _].
        assert (Hsq : amplitude a * amplitude a = Rabs (amplitude a) * Rabs (amplitude a))
          by (unfold Rabs; destruct Rcase_abs; ring).
        rewrite Hsq, Habs. apply sqrt_sqrt.
        assert (0 < INR (Nat.max 1 pc)) by (apply lt_0_INR; lia).
        unfold Rdiv. apply Rmult_le_pos; [lra | left; apply Rinv_0_lt_compat; assumption].
Qed.

Lemma addInto_length (a d : list R) : List.length (addInto a d) = List.length a.
Proof.
  revert d; induction a as [|x a IH]; intros [|y d]; simpl; try reflexivity.
  rewrite IH. reflexivity.
Qed.

Lemma addInto_nth (a d : list R) (i : nat) :
  (i < List.length a)%nat -> nth i (addInto a d) 0 = nth i a 0 + nth i d 0.
Proof.
  revert d i; induction a as [|x a IH]; intros d i Hi; [simpl in Hi; lia|].
  destruct d as [|y d].
  - destruct i; simpl; ring.
  - destruct i as [|i]; simpl; [reflexivity|]. apply IH. simpl in Hi. lia.
Qed.

Lemma sumList_perm (l1 l2 : list R) : Permutation l1 l2 -> sumList l1 = sumList l2.
Proof.
  induction 1 as [|x l1 l2 _ IH|x y l|l1 l2 l3 _ IH1 _ IH2].
  - reflexivity.
  - rewrite !sumList_cons, IH. reflexivity.
  - rewrite !sumList_cons. ring.
  - rewrite IH1, IH2. reflexivity.
Qed.

Lemma combine_fold (irb : R -> option (list R)) (fs : list R) :
  forall acc,
  let r := fold_left (fun acc freq => match irb freq with
                                      | Some irData => addInto acc irData
                                      | None => acc end) fs acc in
  List.length r = List.length acc /\
  forall i, (i < List.length acc)%nat ->
    nth i r 0 = nth i acc 0 +
      sumList (map (fun f => match irb f with Some d => nth i d 0 | None => 0 end) fs).
Proof.
  induction fs as [|f fs IH]; intro acc; cbv zeta; simpl fold_left.
  - split; [reflexivity|]. intros i _. simpl map. rewrite sumList_nil. ring.
  - set (acc' := match irb f with Some irData => addInto acc irData | None => acc end).
    assert (Hl : List.length acc' = List.length acc)
      by (unfold acc'; destruct (irb f); [apply addInto_length | reflexivity]).
    destruct (IH acc') as [H1 H2]. split; [rewrite H1; exact Hl|].
    intros i Hi. rewrite H2 by lia. simpl map. rewrite sumList_cons.
    unfold acc'. destruct (irb f) as [d|].
    + rewrite addInto_nth by exact Hi. ring.
    + ring.
Qed.

Lemma maxLength_fold (irb : R -> option (list R)) (fs : list R) :
  forall m0,
  let m := fold_left (fun m freq => match irb freq with
                                    | Some d => Nat.max m (List.length d)
                                    | None => m end) fs m0 in
  (m0 <= m)%nat /\
  (forall f d, In f fs -> irb f = Some d -> (List.length d <= m)%nat) /\
  (m = m0 \/ exists f d, In f fs /\ irb f = Some d /\ List.length d = m).
Proof.
  induction fs as [|f fs IH]; intro m0; cbv zeta; simpl fold_left.
  - split; [lia|]. split; [intros f d []|left; reflexivity].
  - set (m1 := match irb f with Some d => Nat.max m0 (List.length d) | None => m0 end).
    destruct (IH m1) as [H1 [H2 H3]]. cbv zeta in H1, H2, H3.
    assert (Hm1 : (m0 <= m1)%nat) by (unfold m1; destruct (irb f); lia).
    split; [lia|]. split.
    + intros g d [<- | Hg] Hd; [|exact (H2 g d Hg Hd)].
      assert (Hd1 : (List.length d <= m1)%nat) by (unfold m1; rewrite Hd; lia). lia.
    + destruct H3 as [H3 | [g [d [Hg [Hd Hlen]]]]].
      * assert (Hm : m1 = m0 \/ exists d, irb f = Some d /\ m1 = List.length d).
        { unfold m1. destruct (irb f) as [d|].
          - destruct (Nat.max_spec m0 (List.length d)) as [[_ Hmx] | [_ Hmx]].
            + right. exists d. split; [reflexivity | exact Hmx].
            + left. exact Hmx.
          - left. reflexivity. }
        destruct Hm as [Hm | [d [Hd Hm]]]; [left; lia|].
        right. exists f, d. split; [left; reflexivity|]. split; [exact Hd | lia].
      * right. exists g, d. split; [right; exact Hg | split; assumption].
Qed.

Lemma Rmax_scale (a b c : R) : 0 <= c -> Rmax (a * c) (b * c) = Rmax a b * c.
Proof. intro Hc. unfold Rmax. repeat destruct Rle_dec; nra. Qed.

Lemma peak_fold_scale (l : list R) (c : R) :
  0 <= c -> forall m0,
  fold_left (fun m s => Rmax m (Rabs s)) (map (fun s => s * c) l) (m0 * c) =
  fold_left (fun m s => Rmax m (Rabs s)) l m0 * c.
Proof.
  intro Hc. induction l as [|x l IH]; intro m0; simpl; [reflexivity|].
  rewrite Rabs_mult, (Rabs_pos_eq c Hc), Rmax_scale by exact Hc. apply IH.
Qed.

Lemma peakAbs_zero (l : list R) : peakAbs l <= 0 -> Forall (fun s => s = 0) l.
Proof.
  intro H. apply Forall_forall. intros s Hs. pose proof (peakAbs_ge l s Hs).
  pose proof (Rabs_pos s). destruct (Req_EM_T s 0); [assumption|].
  pose proof (Rabs_no_R0 s n). lra.
Qed.

Lemma sort_by_Rleb_perm (l : list R) : Permutation l (sort_by Rleb l).
Proof. exact (proj2 (sort_by_spec R Rleb Rleb_total l)). Qed.

(** X14: [combineFrequencyBands] returns null exactly when there is no audio context or every band buffer present is empty. *)
Theorem combineFrequencyBands_none (audioContext : option R)
    (irBuffers : R -> option (list R)) (freqBands : list R) :
  combineFrequencyBands audioContext irBuffers freqBands = None <->
  audioContext = None \/
  (forall f d, In f freqBands -> irBuffers f = Some d -> d = []).
Proof.
  unfold combineFrequencyBands. destruct audioContext as [sr|].
  2: { split; intro; [left; reflexivity | reflexivity]. }
  cbv zeta.
  pose proof (sort_by_Rleb_perm freqBands) as Hp.
  destruct (maxLength_fold irBuffers (sort_by Rleb freqBands) 0) as [_ [Hge Hex]].
  cbv zeta in Hge, Hex.
  set (m := fold_left _ (sort_by Rleb freqBands) 0%nat) in *.
  destruct (Nat.eqb_spec m 0) as [H0 | H0].
  - split; intro H; [|reflexivity]. right. intros f d Hf Hd.
    pose proof (Hge f d (Permutation_in _ Hp Hf) Hd). destruct d; [reflexivity | simpl in *; lia].
  - split; intro H; [discriminate|].
    destruct H as [H | H]; [discriminate|].
    destruct Hex as [Hm | [f [d [Hf [Hd Hlen]]]]]; [lia|].
    rewrite (H f d (Permutation_in _ (Permutation_sym Hp) Hf) Hd) in Hlen. simpl in Hlen. lia.
Qed.

(** X15: a buffer returned by [combineFrequencyBands] has the context's sample rate and the length of the longest band buffer; each sample is one positive factor times the sum of the bands' samples at that index (0 past a band's end), and its peak is 0.98 unless it is all zeros. *)
Theorem combineFrequencyBands_mix (audioContext : option R)
    (irBuffers : R -> option (list R)) (freqBands : list R) (out : AudioBuffer) :
  combineFrequencyBands audioContext irBuffers freqBands = Some out ->
  audioContext = Some (ab_sampleRate out) /\
  (forall f d, In f freqBands -> irBuffers f = Some d ->
     (List.length d <= List.length (ab_data out))%nat) /\
  (exists f d, In f freqBands /\ irBuffers f = Some d /\
     List.length d = List.length (ab_data out)) /\
  (exists g, 0 < g /\ forall i, (i < List.length (ab_data out))%nat ->
     nth i (ab_data out) 0 =
     g * sumList (map (fun f => match irBuffers f with
                                | Some d => nth i d 0 | None => 0 end) freqBands)) /\
  (peakAbs (ab_data out) = 0.98 \/ Forall (fun s => s = 0) (ab_data out)).
Proof.
  intro H. unfold combineFrequencyBands in H. destruct audioContext as [sr|]; [|discriminate].
  cbv zeta in H.
  pose proof (sort_by_Rleb_perm freqBands) as Hp.
  destruct (maxLength_fold irBuffers (sort_by Rleb freqBands) 0) as [_ [Hge Hex]].
  cbv zeta in Hge, Hex.
  set (m := fold_left _ (sort_by Rleb freqBands) 0%nat) in *.
  destruct (Nat.eqb_spec m 0) as [H0 | H0]; [discriminate|].
  destruct (combine_fold irBuffers (sort_by Rleb freqBands) (ab_data (createBuffer m sr)))
    as [Hlen Hnth].
  cbv zeta in Hlen, Hnth.
  set (d1 := fold_left _ (sort_by Rleb freqBands) (ab_data (createBuffer m sr))) in *.
  assert (Hlm : List.length d1 = m) by (rewrite Hlen; apply repeat_length).
  assert (Hsum : forall i, (i < m)%nat ->
    nth i d1 0 = sumList (map (fun f => match irBuffers f with
                                        | Some d => nth i d 0 | None => 0 end) freqBands)).
  { intros i Hi. rewrite Hnth by (simpl; rewrite repeat_length; exact Hi).
    simpl ab_data. rewrite nth_repeat_lt by exact Hi. rewrite Rplus_0_l.
    apply sumList_perm, Permutation_map, Permutation_sym, Hp. }
  pose proof (peakAbs_nonneg d1) as Hp0.
  unfold Rltb in H. destruct (Rlt_dec 0 (peakAbs d1)) as [Hpos | Hz].
  - injection H as <-. cbn [ab_sampleRate ab_data]. rewrite length_map, Hlm.
    split; [reflexivity|]. split.
    { intros f d Hf Hd. apply (Hge f d (Permutation_in _ Hp Hf) Hd). }
    split.
    { destruct Hex as [Hm | [f [d [Hf [Hd Hl]]]]]; [lia|].
      exists f, d. split; [exact (Permutation_in _ (Permutation_sym Hp) Hf)|]. split; assumption. }
    split.
    { exists (0.98 / peakAbs d1). split; [apply Rdiv_lt_0_compat; lra|].
      intros i Hi. rewrite nth_indep with (d' := 0 / peakAbs d1 * 0.98)
        by (rewrite length_map; lia).
      rewrite (map_nth (fun s => s / peakAbs d1 * 0.98)), Hsum by exact Hi.
      field. lra. }
    left. unfold peakAbs.
    rewrite (map_ext (fun s => s / peakAbs d1 * 0.98) (fun s => s * (0.98 / peakAbs d1)))
      by (intro; field; lra).
    replace 0 with (0 * (0.98 / peakAbs d1)) at 1 by ring.
    rewrite peak_fold_scale by (left; apply Rdiv_lt_0_compat; lra).
    fold (peakAbs d1). field. lra.
  - injection H as <-. cbn [ab_sampleRate ab_data]. rewrite Hlm.
    split; [reflexivity|]. split.
    { intros f d Hf Hd. apply (Hge f d (Permutation_in _ Hp Hf) Hd). }
    split.
    { destruct Hex as [Hm | [f [d [Hf [Hd Hl]]]]]; [lia|].
      exists f, d. split; [exact (Permutation_in _ (Permutation_sym Hp) Hf)|]. split; assumption. }
    split.
    { exists 1. split; [lra|]. intros i Hi. rewrite Hsum by exact Hi. ring. }
    right. apply peakAbs_zero. lra.
Qed.

Lemma setInto_exact (n : nat) (src : list R) :
  List.length src = n -> setInto n src = src.
Proof. intro H. unfold setInto. rewrite H, Nat.sub_diag. apply app_nil_r. Qed.

Lemma nth_map_lt {A B} (f : A -> B) (l : list A) (d : B) (d0 : A) (c : nat) :
  (c < List.length l)%nat -> nth c (map f l) d = f (nth c l d0).
Proof.
  intro Hc. rewrite nth_indep with (d' := f d0) by (rewrite length_map; exact Hc).
  apply map_nth.
Qed.

(** X16: [applyPreDelayToBuffer] on a buffer returns a buffer with the same sample rate and channel count: the same buffer if the rounded offset is <= 0, the samples from the offset on if 0 < offset < length, and one zero sample per channel otherwise. *)
Theorem applyPreDelayToBuffer_trims (b : MultiBuffer) (preDelayMs : R) :
  Forall (fun ch => List.length ch = mb_length b) (mb_channels b) ->
  let offsetSamples := jsRound (preDelayMs / 1000 * mb_sampleRate b) in
  exists b', applyPreDelayToBuffer (Some b) preDelayMs = Some b' /\
    mb_sampleRate b' = mb_sampleRate b /\
    List.length (mb_channels b') = List.length (mb_channels b) /\
    Forall (fun ch => List.length ch = mb_length b') (mb_channels b') /\
    ((offsetSamples <= 0)%Z /\ b' = b \/
     (0 < offsetSamples < Z.of_nat (mb_length b))%Z /\
       mb_length b' = (mb_length b - Z.to_nat offsetSamples)%nat /\
       (forall c i, (c < List.length (mb_channels b))%nat -> (i < mb_length b')%nat ->
          nth i (nth c (mb_channels b') []) 0 =
          nth (i + Z.to_nat offsetSamples) (nth c (mb_channels b) []) 0) \/
     (Z.of_nat (mb_length b) <= offsetSamples)%Z /\ mb_length b' = 1%nat /\
       Forall (fun ch => ch = [0]) (mb_channels b')).
Proof.
  intro Hch. cbv zeta. unfold applyPreDelayToBuffer.
  set (off := jsRound (preDelayMs / 1000 * mb_sampleRate b)).
  destruct (Z.leb_spec off 0) as [Hle | Hgt].
  { eexists. split; [reflexivity|]. split; [reflexivity|]. split; [reflexivity|].
    split; [exact Hch|]. left. split; [exact Hle | reflexivity]. }
  destruct (Z.leb_spec (Z.of_nat (mb_length b)) off) as [Hge | Hlt].
  { eexists. split; [reflexivity|]. cbn [mb_sampleRate mb_channels mb_length createMultiBuffer].
    split; [reflexivity|]. split; [apply repeat_length|].
    split; [apply Forall_forall; intros ch Hc; apply repeat_spec in Hc; subst ch; reflexivity|].
    right; right. split; [exact Hge|]. split; [reflexivity|].
    apply Forall_forall. intros ch Hc. apply repeat_spec in Hc. exact Hc. }
  eexists. split; [reflexivity|]. cbn [mb_sampleRate mb_channels mb_length].
  set (k := Z.to_nat off). set (L := mb_length b).
  assert (Hk : (k < L)%nat) by (unfold k, L; lia).
  assert (Hsub : forall ch, List.length ch = L ->
            setInto (L - k) (firstn (L - k) (skipn k ch)) = skipn k ch).
  { intros ch Hl. rewrite firstn_all2 by (rewrite length_skipn; lia).
    apply setInto_exact. rewrite length_skipn. lia. }
  split; [reflexivity|]. split; [apply length_map|]. split.
  { apply Forall_forall. intros ch Hc. apply in_map_iff in Hc as [src [<- Hsrc]].
    rewrite Forall_forall in Hch. rewrite (Hsub src (Hch src Hsrc)), length_skipn.
    rewrite (Hch src Hsrc). reflexivity. }
  right; left. split; [lia|]. split; [reflexivity|].
  intros c i Hc Hi.
  rewrite (nth_map_lt _ _ _ [] c Hc).
  assert (Hin : In (nth c (mb_channels b) []) (mb_channels b)) by (apply nth_In; exact Hc).
  rewrite Forall_forall in Hch.
  rewrite (Hsub _ (Hch _ Hin)), nth_skipn. f_equal. lia.
Qed.

Lemma processBatches_progress (G : Type) (rand : G -> R * G) (cx : Ctx) (p : SimParams) :
  (1 <= batchSize p)%Z ->
  let n := numRays p in
  let b := batchSize p in
  let K := Z.to_nat ((n + b - 1) / b) in
  forall fuel j acc msgs s,
  (Z.of_nat j * b < n)%Z -> (K - j <= fuel)%nat ->
  exists acc' new,
    fst (processBatches G rand cx p fuel (Z.of_nat j * b) acc msgs s) = (Some acc', msgs ++ new) /\
    map (fun m => match m with MsgProgress x _ => Some x | _ => None end) new =
    map (fun k => Some (IZR (Z.min (Z.of_nat k * b) n) / IZR n)) (seq (S j) (K - j)).
Proof.
  intros Hb n b K fuel. induction fuel as [|fuel IH]; intros j acc msgs s Hj Hf.
  - exfalso.
    assert (Z.of_nat j + 1 <= (n + b - 1) / b)%Z
      by (apply Z.div_le_lower_bound; lia).
    unfold K in Hf. lia.
  - cbn [processBatches]. rewrite st_bind_run. cbv zeta.
    match goal with |- context [traceRays ?a ?b ?c ?d ?e ?f ?g] =>
      destruct (traceRays a b c d e f g) as [acc1 s1] end.
    cbn [fst snd].
    change (numRays p) with n. change (batchSize p) with b.
    destruct (Z.ltb_spec (Z.min (Z.of_nat j * b + b) n) n) as [Hlt | Hge].
    + assert (Hjb : (Z.of_nat (S j) * b < n)%Z) by lia.
      assert (HK : (Z.of_nat j + 2 <= (n + b - 1) / b)%Z)
        by (apply Z.div_le_lower_bound; lia).
      replace (Z.min (Z.of_nat j * b + b) n) with (Z.of_nat (S j) * b)%Z by lia.
      destruct (IH (S j) acc1 (msgs ++ [MsgProgress (IZR (Z.of_nat (S j) * b) / IZR n)
               (countArrivals (acc_arrivals acc1) + (if cx_useRR cx then acc_count acc1 else 0))%Z])
                s1 Hjb) as [acc' [new [H1 H2]]]; [unfold K in *; lia|].
      exists acc', (MsgProgress (IZR (Z.of_nat (S j) * b) / IZR n)
               (countArrivals (acc_arrivals acc1) + (if cx_useRR cx then acc_count acc1 else 0))%Z
               :: new).
      split; [rewrite H1, <- app_assoc; reflexivity|].
      replace (K - j)%nat with (S (K - S j)) by (unfold K; lia).
      cbn [seq map]. rewrite H2. f_equal. f_equal. f_equal. f_equal. lia.
    + assert (Hn : (n <= Z.of_nat j * b + b)%Z) by lia.
      replace (Z.min (Z.of_nat j * b + b) n) with n by lia.
      eexists; eexists. split; [reflexivity|].
      assert (HK : ((n + b - 1) / b = Z.of_nat j + 1)%Z).
      { symmetry. apply Z.div_unique with (n - 1 - Z.of_nat j * b)%Z; lia. }
      replace (K - j)%nat with 1%nat by (unfold K; rewrite HK; lia).
      cbn [seq map]. replace (Z.min (Z.of_nat (S j) * b) n) with n by lia.
      reflexivity.
Qed.

(** X17: with numRays n >= 1 and batchSize b >= 1, the ray phase posts ceil(n / b) progress messages with values min(k * b, n) / n for k = 1 .. ceil(n / b), the last one being 1. *)
Theorem rayPhase_progress (G : Type) (rand : G -> R * G) (seedrandom : string -> G)
    (sc : Scene) (p : SimParams) (s : RandomState G) :
  (1 <= numRays p)%Z -> (1 <= batchSize p)%Z ->
  let n := numRays p in
  let b := batchSize p in
  let K := Z.to_nat ((n + b - 1) / b) in
  exists acc msgs,
    fst (rayPhase G rand seedrandom sc p s) = (Some acc, msgs) /\
    map (fun m => match m with MsgProgress x _ => Some x | _ => None end) msgs =
    map (fun k => Some (IZR (Z.min (Z.of_nat k * b) n) / IZR n)) (seq 1 K) /\
    last (map (fun m => match m with MsgProgress x _ => Some x | _ => None end) msgs) None
      = Some 1.
Proof.
  intros Hn Hb. cbv zeta.
  set (n := numRays p) in *. set (b := batchSize p) in *.
  assert (HK1 : (1 <= (n + b - 1) / b)%Z) by (apply Z.div_le_lower_bound; lia).
  assert (HKn : ((n + b - 1) / b <= n)%Z) by (apply Z.div_le_upper_bound; nia).
  assert (HKb : (n <= (n + b - 1) / b * b)%Z).
  { pose proof (Z.div_mod (n + b - 1) b ltac:(lia)).
    pose proof (Z.mod_pos_bound (n + b - 1) b ltac:(lia)). lia. }
  unfold rayPhase. rewrite st_bind_run.
  destruct (processBatches_progress G rand (makeCtx sc p) p Hb
              (S (Z.to_nat (numRays p))) 0 (initAcc (makeCtx sc p)) []
              (snd (seedMathRandom G seedrandom (seed p) s)))
    as [acc [new [H1 H2]]];
    [change (numRays p) with n; change (batchSize p) with b; lia
    |cbv zeta; change (numRays p) with n; change (batchSize p) with b; lia|].
  exists acc, new. rewrite Nat.sub_0_r in H2.
  split; [exact H1|]. split; [exact H2|].
  rewrite H2. change (numRays p) with n. change (batchSize p) with b.
  replace (Z.to_nat ((n + b - 1) / b)) with (S (Z.to_nat ((n + b - 1) / b) - 1)) by lia.
  rewrite seq_S, map_app. change (map ?f [?x]) with [f x]. rewrite last_last.
  replace (1 + (Z.to_nat ((n + b - 1) / b) - 1))%nat with (Z.to_nat ((n + b - 1) / b)) by lia.
  rewrite Z2Nat.id by lia. rewrite Z.min_r by lia.
  f_equal. field. apply not_0_IZR. lia.
Qed.

Lemma sumList_list_add (buf : list R) (i : nat) (v : R) :
  (i < List.length buf)%nat -> sumList (list_add buf i v) = sumList buf + v.
Proof.
  revert i; induction buf as [|x xs IH]; intros i Hi; [simpl in Hi; lia|].
  destruct i as [|i]; simpl list_add; rewrite !sumList_cons.
  - ring.
  - rewrite IH by (simpl in Hi; lia). ring.
Qed.

Lemma sumList_addAt (buf : list R) (i : Z) (v : R) :
  (0 <= i < Z.of_nat (List.length buf))%Z -> sumList (addAt buf i v) = sumList buf + v.
Proof.
  intro Hi. unfold addAt. replace (i <? 0)%Z with false by (symmetry; apply Z.ltb_ge; lia).
  apply sumList_list_add. lia.
Qed.

Lemma placeArrival_sum (sr : R) (len : Z) (buf : list R) (a : Arrival) :
  Z.of_nat (List.length buf) = len ->
  (0 <= Zfloor (time a * sr) < len)%Z ->
  sumList (placeArrival sr len buf a) = sumList buf + amplitude a.
Proof.
  intros Hl Hb. unfold placeArrival. cbv zeta.
  set (base := Zfloor (time a * sr)) in *.
  destruct (Z.ltb_spec base (len - 1)) as [H1 | H1].
  - rewrite sumList_addAt by (rewrite addAt_length; lia).
    rewrite sumList_addAt by lia. ring.
  - destruct (Z.ltb_spec base len) as [H2 | H2]; [|lia].
    apply sumList_addAt. lia.
Qed.

Lemma fold_placeArrival_sum (sr : R) (len : Z) (arrs : list Arrival) :
  Forall (fun a => 0 <= Zfloor (time a * sr) < len)%Z arrs ->
  forall buf, Z.of_nat (List.length buf) = len ->
  sumList (fold_left (placeArrival sr len) arrs buf) = sumList buf + sumList (map amplitude arrs).
Proof.
  induction 1 as [|a arrs Ha _ IH]; intros buf Hl; simpl.
  - rewrite sumList_nil. ring.
  - rewrite IH by (rewrite placeArrival_length; exact Hl).
    rewrite placeArrival_sum by assumption. rewrite sumList_cons. ring.
Qed.

Lemma maxArrivalTime_ge (arrs : list Arrival) :
  forall m a, In a arrs -> time a <= fold_left (fun m a => Rmax m (time a)) arrs m.
Proof.
  assert (Hmono : forall l m, m <= fold_left (fun m a => Rmax m (time a)) l m).
  { induction l as [|x l IH]; intro m; simpl; [lra|].
    pose proof (IH (Rmax m (time x))). pose proof (Rmax_l m (time x)). lra. }
  induction arrs as [|x arrs IH]; intros m a Ha; [destruct Ha|].
  simpl. destruct Ha as [<- | Ha].
  - pose proof (Hmono arrs (Rmax m (time x))). pose proof (Rmax_r m (time x)). lra.
  - apply IH. exact Ha.
Qed.

Lemma sumList_repeat0 (n : nat) : sumList (repeat 0 n) = 0.
Proof.
  induction n as [|n IH]; [apply sumList_nil|]. simpl repeat. rewrite sumList_cons, IH. ring.
Qed.

(** X9: for a positive sample rate and non-negative arrival times, the samples of [createIRAudioBuffer] add up to the total arrival amplitude divided by a factor g >= 1 (the peak normalisation): fractional placement loses no amplitude. *)
Theorem createIRAudioBuffer_conserves_amplitude (arrivals : list Arrival) (sampleRate : R) :
  arrivals <> [] -> 0 < sampleRate -> Forall (fun a => 0 <= time a) arrivals ->
  exists g, 1 <= g /\
    sumList (ab_data (createIRAudioBuffer arrivals sampleRate)) * g =
    sumList (map amplitude arrivals).
Proof.
  intros Hne Hsr Hpos. unfold createIRAudioBuffer.
  destruct arrivals as [|a0 arrs]; [congruence|].
  set (arrivals := a0 :: arrs) in *. cbv zeta.
  set (maxTime := maxArrivalTime arrivals).
  set (len := Zceil (Rmax (maxTime + 0.5) 1 * sampleRate)).
  assert (Hlen : Rmax (maxTime + 0.5) 1 * sampleRate <= IZR len) by apply Zceil_ge.
  assert (Hm : (maxTime + 0.5) * sampleRate <= Rmax (maxTime + 0.5) 1 * sampleRate)
    by (apply Rmult_le_compat_r; [lra | apply Rmax_l]).
  assert (Hin : Forall (fun a => 0 <= Zfloor (time a * sampleRate) < len)%Z arrivals).
  { apply Forall_forall. intros a Ha. rewrite Forall_forall in Hpos.
    pose proof (Hpos a Ha) as Ht.
    pose proof (maxArrivalTime_ge arrivals 0 a Ha) as Hta. fold (maxArrivalTime arrivals) in Hta.
    fold maxTime in Hta.
    pose proof (Zfloor_spec (time a * sampleRate)) as Hf.
    assert (Hts : 0 <= time a * sampleRate) by (apply Rmult_le_pos; lra).
    assert (Hts2 : time a * sampleRate <= maxTime * sampleRate)
      by (apply Rmult_le_compat_r; lra).
    split.
    - assert (-1 < Zfloor (time a * sampleRate))%Z by (apply lt_IZR; lra). lia.
    - apply lt_IZR. nra. }
  assert (Hl0 : Z.of_nat (List.length (ab_data (createBuffer (Z.to_nat len) sampleRate))) = len).
  { simpl. rewrite repeat_length. apply Z2Nat.id.
    apply le_IZR. pose proof (Rmax_r (maxTime + 0.5) 1). nra. }
  pose proof (fold_placeArrival_sum sampleRate len arrivals Hin _ Hl0) as Hs.
  simpl ab_data in Hs. rewrite sumList_repeat0, Rplus_0_l in Hs.
  set (d := fold_left (placeArrival sampleRate len) arrivals _) in *.
  cbn [ab_data]. unfold Rltb. destruct (Rlt_dec 1 (peakAbs d)) as [Hp | Hp].
  - exists (peakAbs d). split; [lra|]. rewrite sumList_map_div, <- Hs. field. lra.
  - exists 1. split; [lra|]. rewrite Hs. ring.
Qed.

(** ** Witnesses *)

Lemma audioBufferToWav_samples_witness :
  let b := mkMultiBuffer 44100 2 [[1/2; -2]; [1; 0]] in
  (1 < mb_length b)%nat /\ (0 < List.length (mb_channels b))%nat /\
  (let x := nth 1 (nth 0 (mb_channels b) []) 0 in
   let sample := Rmax (-1) (Rmin 1 x) in
   let q := Ztrunc (if Rltb sample 0 then sample * 32768 else sample * 32767) in
   readInt16 (firstn 2 (skipn (44 + 2 * (List.length (mb_channels b) * 1 + 0))
                              (audioBufferToWav b))) = q /\
   (-32768 <= q <= 32767)%Z).
Proof.
  cbv zeta.
  assert (H1 : lt 1 (mb_length (mkMultiBuffer 44100 2 [[1/2; -2]; [1; 0]]))) by (simpl; lia).
  assert (H2 : lt 0 (List.length (mb_channels (mkMultiBuffer 44100 2 [[1/2; -2]; [1; 0]]))))
    by (simpl; lia).
  split; [exact H1|]. split; [exact H2|].
  exact (audioBufferToWav_samples (mkMultiBuffer 44100 2 [[1/2; -2]; [1; 0]]) 1 0 H1 H2).
Defined.

Lemma hannWindow_range_symmetric_witness :
  (2 <= 4)%nat /\
  List.length (hannWindow 4) = 4%nat /\
  (forall n, (n < 4)%nat -> 0 <= nth n (hannWindow 4) 0 <= 1) /\
  (forall n, (n < 4)%nat -> nth (4 - 1 - n) (hannWindow 4) 0 = nth n (hannWindow 4) 0) /\
  nth 0 (hannWindow 4) 0 = 0 /\ nth (4 - 1) (hannWindow 4) 0 = 0.
Proof.
  assert (H : (2 <= 4)%nat) by lia. split; [exact H|].
  exact (hannWindow_range_symmetric 4 H).
Defined.

Lemma firwinBandpass_symmetric_witness :
  (2 <= numTaps)%nat /\ sumList (firwinTaps numTaps 20 60 44100) <> 0 /\
  List.length (firwinBandpass numTaps 20 60 44100) = numTaps /\
  forall n, (n < numTaps)%nat ->
    nth (numTaps - 1 - n) (firwinBandpass numTaps 20 60 44100) 0 =
    nth n (firwinBandpass numTaps 20 60 44100) 0.
Proof.
  assert (H1 : (2 <= numTaps)%nat) by (unfold numTaps; lia).
  assert (H2 : sumList (firwinTaps numTaps 20 60 44100) <> 0)
    by (pose proof firwinTaps_40_sum_pos; lra).
  split; [exact H1|]. split; [exact H2|].
  exact (firwinBandpass_symmetric numTaps 20 60 44100 H1 H2).
Defined.

Lemma vreflect_isometry_witness :
  vdot (mkV3 0 0 1) (mkV3 0 0 1) = 1 /\
  vdot (vreflect (mkV3 1 2 3) (mkV3 0 0 1)) (vreflect (mkV3 1 2 3) (mkV3 0 0 1)) =
    vdot (mkV3 1 2 3) (mkV3 1 2 3) /\
  vlength (vreflect (mkV3 1 2 3) (mkV3 0 0 1)) = vlength (mkV3 1 2 3) /\
  vdot (vreflect (mkV3 1 2 3) (mkV3 0 0 1)) (mkV3 0 0 1) = - vdot (mkV3 1 2 3) (mkV3 0 0 1).
Proof.
  assert (H : vdot (mkV3 0 0 1) (mkV3 0 0 1) = 1) by (unfold vdot; simpl; ring).
  split; [exact H|].
  exact (vreflect_isometry (mkV3 1 2 3) (mkV3 0 0 1) H).
Defined.

Lemma samplePoisson_draws_witness :
  let s := mkRandomState (list R) [9/10; 0] None in
  0 < 1 /\ fst (samplePoisson (list R) streamRand 2 1 s) = Some 1%nat /\
  (let '(us, s') := drawList streamRand 2 s in
   snd (samplePoisson (list R) streamRand 2 1 s) = s' /\
   (forall i, (1 <= i <= 1)%nat -> exp (- (1)) < prodList (firstn i us)) /\
   prodList us <= exp (- (1))).
Proof.
  cbv zeta.
  assert (Hl : 0 < 1) by lra.
  assert (He : exp (- (1)) < 9/10).
  { pose proof (exp_ineq1 1 ltac:(lra)).
    assert (Hm : exp 1 * exp (- (1)) = 1)
      by (rewrite <- exp_plus; replace (1 + - (1)) with 0 by ring; apply exp_0).
    nra. }
  assert (Hs : fst (samplePoisson (list R) streamRand 2 1
                      (mkRandomState (list R) [9/10; 0] None)) = Some 1%nat).
  { unfold samplePoisson. rewrite Rleb_false by lra.
    cbn [poissonLoop st_bind st_ret fst snd mathRandom streamRand active native].
    rewrite Rltb_true by lra.
    cbn [poissonLoop st_bind st_ret fst snd mathRandom streamRand active native].
    rewrite Rltb_false by (pose proof (exp_pos (- (1))); lra). reflexivity. }
  split; [exact Hl|]. split; [exact Hs|].
  exact (samplePoisson_draws (list R) streamRand 2 1
           (mkRandomState (list R) [9/10; 0] None) 1 Hl Hs).
Defined.

Lemma randomHemisphereDirection_cosine_witness :
  let s := mkRandomState (list R) [1/2; 1/4] None in
  let normal := mkV3 0 1 0 in
  vdot normal normal = 1 /\
  0 <= fst (mathRandom (list R) streamRand s) < 1 /\
  (let d := fst (randomHemisphereDirection (list R) streamRand normal s) in
   vdot d d = 1 /\
   vdot d normal = sqrt (1 - fst (mathRandom (list R) streamRand s)) /\
   0 < vdot d normal).
Proof.
  cbv zeta.
  assert (H1 : vdot (mkV3 0 1 0) (mkV3 0 1 0) = 1) by (unfold vdot; simpl; ring).
  assert (H2 : 0 <= fst (mathRandom (list R) streamRand
                           (mkRandomState (list R) [1/2; 1/4] None)) < 1)
    by (simpl; lra).
  split; [exact H1|]. split; [exact H2|].
  exact (randomHemisphereDirection_cosine (list R) streamRand (mkV3 0 1 0)
           (mkRandomState (list R) [1/2; 1/4] None) H1 H2).
Defined.

Lemma synthesizeRadiosityPulses_energy_witness :
  (forall g : unit, 0 <= fst ((fun _ : unit => (1/2, tt)) g) < 1) /\
  0 < 0.0025 /\ 0 <= 1e-8 /\ 0 <= 12 /\
  forall hist s ps,
    fst (synthesizeRadiosityPulses unit (fun _ => (1/2, tt)) 100 hist 0.0025 12 1e-8 s)
      = Some ps ->
    sumList (map (fun a => amplitude a * amplitude a) ps) =
    sumList (filter (fun E => negb (Rleb E 1e-8)) hist).
Proof.
  assert (Hr : forall g : unit, 0 <= fst ((fun _ : unit => (1/2, tt)) g) < 1)
    by (intro g; simpl; lra).
  assert (Hdt : 0 < 0.0025) by lra.
  assert (He : 0 <= 1e-8) by lra.
  assert (Hl : 0 <= 12) by lra.
  split; [exact Hr|]. split; [exact Hdt|]. split; [exact He|]. split; [exact Hl|].
  exact (synthesizeRadiosityPulses_energy unit (fun _ => (1/2, tt)) 100
           0.0025 12 1e-8 Hr Hdt He Hl).
Defined.

Lemma combineFrequencyBands_mix_witness :
  let irb := fun _ : R => Some [1] in
  let out := mkAudioBuffer 48000 [0.98] in
  combineFrequencyBands (Some 48000) irb [100] = Some out /\
  (Some 48000 = Some (ab_sampleRate out) /\
  (forall f d, In f [100] -> irb f = Some d ->
     (List.length d <= List.length (ab_data out))%nat) /\
  (exists f d, In f [100] /\ irb f = Some d /\
     List.length d = List.length (ab_data out)) /\
  (exists g, 0 < g /\ forall i, (i < List.length (ab_data out))%nat ->
     nth i (ab_data out) 0 =
     g * sumList (map (fun f => match irb f with
                                | Some d => nth i d 0 | None => 0 end) [100])) /\
  (peakAbs (ab_data out) = 0.98 \/ Forall (fun s => s = 0) (ab_data out))).
Proof.
  cbv zeta.
  assert (H : combineFrequencyBands (Some 48000) (fun _ : R => Some [1]) [100]
              = Some (mkAudioBuffer 48000 [0.98])).
  { unfold combineFrequencyBands, peakAbs.
    cbn [sort_by insert_by fold_left Nat.max List.length Nat.eqb createBuffer ab_data
         repeat addInto].
    assert (Hp : Rmax 0 (Rabs (0 + 1)) = 1).
    { rewrite Rplus_0_l, Rabs_R1. apply Rmax_right. lra. }
    rewrite Hp, Rltb_true by lra. cbn [map].
    do 3 f_equal. field. }
  split; [exact H|].
  exact (combineFrequencyBands_mix (Some 48000) (fun _ : R => Some [1]) [100]
           (mkAudioBuffer 48000 [0.98]) H).
Defined.

Lemma applyPreDelayToBuffer_trims_witness :
  let b := mkMultiBuffer 1000 4 [[1; 2; 3; 4]] in
  Forall (fun ch => List.length ch = mb_length b) (mb_channels b) /\
  (let offsetSamples := jsRound (2 / 1000 * mb_sampleRate b) in
  exists b', applyPreDelayToBuffer (Some b) 2 = Some b' /\
    mb_sampleRate b' = mb_sampleRate b /\
    List.length (mb_channels b') = List.length (mb_channels b) /\
    Forall (fun ch => List.length ch = mb_length b') (mb_channels b') /\
    ((offsetSamples <= 0)%Z /\ b' = b \/
     (0 < offsetSamples < Z.of_nat (mb_length b))%Z /\
       mb_length b' = (mb_length b - Z.to_nat offsetSamples)%nat /\
       (forall c i, (c < List.length (mb_channels b))%nat -> (i < mb_length b')%nat ->
          nth i (nth c (mb_channels b') []) 0 =
          nth (i + Z.to_nat offsetSamples) (nth c (mb_channels b) []) 0) \/
     (Z.of_nat (mb_length b) <= offsetSamples)%Z /\ mb_length b' = 1%nat /\
       Forall (fun ch => ch = [0]) (mb_channels b'))).
Proof.
  cbv zeta.
  assert (H : Forall (fun ch => List.length ch = mb_length (mkMultiBuffer 1000 4 [[1; 2; 3; 4]]))
                (mb_channels (mkMultiBuffer 1000 4 [[1; 2; 3; 4]])))
    by (repeat constructor).
  split; [exact H|].
  exact (applyPreDelayToBuffer_trims (mkMultiBuffer 1000 4 [[1; 2; 3; 4]]) 2 H).
Defined.

Lemma rayPhase_progress_witness :
  let p := plainParams 1 in
  let s := mkRandomState (list R) [] None in
  (1 <= numRays p)%Z /\ (1 <= batchSize p)%Z /\
  (let n := numRays p in
   let b := batchSize p in
   let K := Z.to_nat ((n + b - 1) / b) in
   exists acc msgs,
     fst (rayPhase (list R) streamRand streamSeed emptyRoom p s) = (Some acc, msgs) /\
     map (fun m => match m with MsgProgress x _ => Some x | _ => None end) msgs =
     map (fun k => Some (IZR (Z.min (Z.of_nat k * b) n) / IZR n)) (seq 1 K) /\
     last (map (fun m => match m with MsgProgress x _ => Some x | _ => None end) msgs) None
       = Some 1).
Proof.
  cbv zeta.
  assert (H1 : (1 <= numRays (plainParams 1))%Z) by (simpl; lia).
  assert (H2 : (1 <= batchSize (plainParams 1))%Z) by (simpl; lia).
  split; [exact H1|]. split; [exact H2|].
  exact (rayPhase_progress (list R) streamRand streamSeed emptyRoom (plainParams 1)
           (mkRandomState (list R) [] None) H1 H2).
Defined.

Lemma createIRAudioBuffer_conserves_amplitude_witness :
  [mkArrival 1 (1/2)] <> [] /\ 0 < 44100 /\ Forall (fun a => 0 <= time a) [mkArrival 1 (1/2)] /\
  exists g, 1 <= g /\
    sumList (ab_data (createIRAudioBuffer [mkArrival 1 (1/2)] 44100)) * g =
    sumList (map amplitude [mkArrival 1 (1/2)]).
Proof.
  assert (H1 : [mkArrival 1 (1/2)] <> []) by discriminate.
  assert (H2 : 0 < 44100) by lra.
  assert (H3 : Forall (fun a => 0 <= time a) [mkArrival 1 (1/2)])
    by (repeat constructor; simpl; lra).
  split; [exact H1|]. split; [exact H2|]. split; [exact H3|].
  exact (createIRAudioBuffer_conserves_amplitude [mkArrival 1 (1/2)] 44100 H1 H2 H3).
Defined.
